(** * pyaiblocker: board state and adversarial search of the game Isolation

    A shallow embedding of [src/board.py] (class [Board]) and [src/ai.py]
    (class [AI]).  Python integers are [Z]; a Python list is a [list]
    read and written through Python's index rule (negative indices count
    from the end, anything else out of range raises [IndexError]); the
    dictionary [__players_position] is a [gmap]; exceptions are values
    of the result type [res]; objects mutated in place live in a store. *)

From Stdlib Require Import ZArith Lia List Bool.
From Stdlib Require Import Floats.SpecFloat.
From stdpp Require Import base option list gmap fin_maps.

Local Open Scope Z_scope.

(** ** Python run-time conventions *)

Module Py.

(** The exceptions the two modules can raise. *)
Inductive exn : Type :=
| IndexError
| KeyError
| AssertionError
| TypeError
| ValueError
| OverflowError
| ZeroDivisionError.

(** Outcome of a call: a value, an exception, or the exhaustion of the
    step budget that bounds the loops and the recursion of the model
    (the theorems of totality show the budget is never exhausted). *)
Inductive res (A : Type) : Type :=
| Ok (a : A)
| Raise (e : exn)
| OutOfFuel.
Arguments Ok {A} a.
Arguments Raise {A} e.
Arguments OutOfFuel {A}.

Definition bind {A B : Type} (m : res A) (k : A -> res B) : res B :=
  match m with
  | Ok a => k a
  | Raise e => Raise e
  | OutOfFuel => OutOfFuel
  end.

(** [assert c] *)
Definition assert (c : bool) : res unit :=
  if c then Ok tt else Raise AssertionError.

(** [l[i]] *)
Definition norm_index (len i : Z) : option nat :=
  let j := if i <? 0 then i + len else i in
  if (0 <=? j) && (j <? len) then Some (Z.to_nat j) else None.

Definition getitem {A : Type} (l : list A) (i : Z) : res A :=
  match norm_index (Z.of_nat (length l)) i with
  | Some j => match l !! j with Some a => Ok a | None => Raise IndexError end
  | None => Raise IndexError
  end.

(** [l[i] = v] *)
Definition setitem {A : Type} (l : list A) (i : Z) (v : A) : res (list A) :=
  match norm_index (Z.of_nat (length l)) i with
  | Some j => Ok (<[j := v]> l)
  | None => Raise IndexError
  end.

(** [d[k]] on a dictionary *)
Definition dict_get {V : Type} (d : gmap Z V) (k : Z) : res V :=
  match d !! k with
  | Some v => Ok v
  | None => Raise KeyError
  end.

(** The values [is_game_over] returns and the heuristics receive as
    [winner]: the boolean [False] or an integer. *)
Inductive value : Type :=
| VFalse
| VInt (n : Z).

(** Truth value of [if v:]. *)
Definition truthy (v : value) : bool :=
  match v with
  | VFalse => false
  | VInt n => negb (n =? 0)
  end.

(** [v == n] for an integer [n] ([False == 0] holds in Python). *)
Definition eq_int (v : value) (n : Z) : bool :=
  match v with
  | VFalse => n =? 0
  | VInt m => m =? n
  end.

(** Numbers that are either integers or the floats [-inf] and [inf]:
    the type of [best_score], [alpha] and [beta]. *)
Inductive num : Type :=
| NegInf
| Fin (n : Z)
| PosInf.

Definition neg (a : num) : num :=
  match a with
  | NegInf => PosInf
  | Fin n => Fin (- n)
  | PosInf => NegInf
  end.

(** [a > b] *)
Definition gt (a b : num) : bool :=
  match a, b with
  | NegInf, _ => false
  | _, PosInf => false
  | Fin x, Fin y => y <? x
  | Fin _, NegInf => true
  | PosInf, _ => true
  end.

(** [a >= b] *)
Definition ge (a b : num) : bool :=
  match a, b with
  | _, NegInf => true
  | PosInf, _ => true
  | Fin x, Fin y => y <=? x
  | _, _ => false
  end.

(** [a <= b] *)
Definition le (a b : num) : bool := ge b a.

(** [max(a, b)]: the first argument unless the second is greater. *)
Definition max (a b : num) : num := if gt b a then b else a.

(** [range(start, 0, -1)] *)
Definition range_down (start : Z) : list Z :=
  map (fun k : nat => start - Z.of_nat k) (seq 0 (Z.to_nat start)).

End Py.

Import Py.

Notation "'do' x <- m ; k" := (Py.bind m (fun x => k))
  (at level 10, x name, m at level 100, k at level 200,
   format "'[v' 'do'  x  <-  m ; '/' k ']'").
Notation "'do' '_' <- m ; k" := (Py.bind m (fun _ => k))
  (at level 10, m at level 100, k at level 200,
   format "'[v' 'do'  '_'  <-  m ; '/' k ']'").

(** ** [board.py]: class [Board] *)

Module Board.

Definition PLAYER1 : Z := 1.
Definition PLAYER2 : Z := 2.
Definition BOX_CLEAR : Z := 4.
Definition BOX_BLOCK : Z := 8.
Definition BOX_BLOCKED_MASK : Z := 16.

(** The attributes of a [Board] object ([__dict__]).  A position is
    [None] until the player has moved. *)
Record t : Type := mk {
  rows : Z;
  columns : Z;
  board : list Z;
  active_player : Z;
  inactive_player : Z;
  players_position : gmap Z (option (Z * Z))
}.

(** [clear_board]: [[BOX_CLEAR for _ in range(rows * columns)]] *)
Definition clear_board (b : t) : t :=
  mk (rows b) (columns b)
     (replicate (Z.to_nat (rows b * columns b)) BOX_CLEAR)
     (active_player b) (inactive_player b) (players_position b).

(** [__init__] *)
Definition init (rows columns : Z) : t :=
  clear_board
    (mk rows columns [] PLAYER1 PLAYER2
        (<[PLAYER1 := None]> (<[PLAYER2 := None]> ∅))).


(** [gen_random_blocked_boxes], given the positions that the calls of
    [random.randint(0, columns * rows - 1)] return. *)
Fixpoint gen_random_blocked_boxes (b : t) (draws : list Z) : res t :=
  match draws with
  | [] => Ok b
  | pos :: rest =>
      do cells <- setitem (board b) pos (Z.lor BOX_BLOCK BOX_BLOCKED_MASK);
      gen_random_blocked_boxes
        (mk (rows b) (columns b) cells (active_player b)
            (inactive_player b) (players_position b)) rest
  end.

(** [player_pos] *)
Definition player_pos (b : t) (player : Z) : res (option (Z * Z)) :=
  do _ <- assert (bool_decide (is_Some (players_position b !! player)));
  dict_get (players_position b) player.

Definition offset (b : t) (x y : Z) : Z := x + y * columns b.

Definition box_blocked (b : t) (x y : Z) : res bool :=
  do cell <- getitem (board b) (offset b x y);
  Ok (Z.land cell BOX_BLOCKED_MASK =? BOX_BLOCKED_MASK).

(** [__block_box] *)
Definition block_box (b : t) (x y board_state : Z) : res t :=
  do cells <- setitem (board b) (offset b x y)
                  (Z.lor board_state BOX_BLOCKED_MASK);
  Ok (mk (rows b) (columns b) cells (active_player b)
         (inactive_player b) (players_position b)).

(** [range(n)] *)
Definition range (n : Z) : list Z :=
  map Z.of_nat (seq 0 (Z.to_nat n)).

(** The inner loop of [get_free_boxes]: one row. *)
Fixpoint free_row (b : t) (y : Z) (xs : list Z) (moves : list (Z * Z))
  : res (list (Z * Z)) :=
  match xs with
  | [] => Ok moves
  | x :: xs' =>
      do blocked <- box_blocked b x y;
      free_row b y xs' (if blocked then moves else moves ++ [(x, y)])
  end.

(** The outer loop of [get_free_boxes]. *)
Fixpoint free_rows (b : t) (ys : list Z) (moves : list (Z * Z))
  : res (list (Z * Z)) :=
  match ys with
  | [] => Ok moves
  | y :: ys' =>
      do moves' <- free_row b y (range (columns b)) moves;
      free_rows b ys' moves'
  end.

Definition get_free_boxes (b : t) : res (list (Z * Z)) :=
  free_rows b (range (rows b)) [].

Definition dirs_deltas : list (Z * Z) :=
  [(-1, -1); (0, -1); (1, -1); (1, 0); (1, 1); (0, 1); (-1, 1); (-1, 0)].

(** The [while] loop of [get_legal_moves] along one direction, from
    [(x, y)], with a budget of iterations. *)
Fixpoint ray (fuel : nat) (b : t) (dx dy x y : Z) (moves : list (Z * Z))
  : res (list (Z * Z)) :=
  match fuel with
  | O => OutOfFuel
  | S fuel' =>
      if (0 <=? x + dx) && (x + dx <? columns b)
         && ((0 <=? y + dy) && (y + dy <? rows b))
      then
        let x := x + dx in
        let y := y + dy in
        do blocked <- box_blocked b x y;
        if blocked then Ok moves
        else ray fuel' b dx dy x y (moves ++ [(x, y)])
      else Ok moves
  end.

(** No ray takes more steps than the larger side of the grid. *)
Definition ray_fuel (b : t) : nat :=
  S (Z.to_nat (Z.max (columns b) (rows b))).

(** The [for] loop of [get_legal_moves] over the directions. *)
Fixpoint rays (b : t) (loc : Z * Z) (dirs : list (Z * Z))
         (moves : list (Z * Z)) : res (list (Z * Z)) :=
  match dirs with
  | [] => Ok moves
  | (dx, dy) :: dirs' =>
      do moves' <- ray (ray_fuel b) b dx dy (fst loc) (snd loc) moves;
      rays b loc dirs' moves'
  end.

(** [get_legal_moves(player=None)] *)
Definition get_legal_moves (b : t) (player : option Z)
  : res (list (Z * Z)) :=
  do loc <- match player with
        | None => dict_get (players_position b) (active_player b)
        | Some p => dict_get (players_position b) p
        end;
  match loc with
  | None => get_free_boxes b
  | Some xy => rays b xy dirs_deltas []
  end.

(** The switch of players that ends [make_move] and [make_move_copy]. *)
Definition switch_player (b : t) : t :=
  if active_player b =? PLAYER1
  then mk (rows b) (columns b) (board b) PLAYER2 PLAYER1
          (players_position b)
  else mk (rows b) (columns b) (board b) PLAYER1 PLAYER2
          (players_position b).

(** [__players_position[__active_player] = (x, y)] *)
Definition set_position (b : t) (x y : Z) : t :=
  mk (rows b) (columns b) (board b) (active_player b) (inactive_player b)
     (<[active_player b := Some (x, y)]> (players_position b)).

(** [make_move]: the attributes of [self] after the call. *)
Definition make_move (b : t) (x y : Z) : res t :=
  do blocked <- box_blocked b x y;
  do _ <- assert (negb blocked);
  let b1 := set_position b x y in
  do b2 <- block_box b1 x y (active_player b1);
  Ok (switch_player b2).

(** [pickle.loads(pickle.dumps(self))]: the attributes of the copy. *)
Definition pickle_roundtrip (b : t) : t :=
  mk (rows b) (columns b) (board b) (active_player b) (inactive_player b)
     (players_position b).

(** [make_move_copy]: the attributes of the returned object. *)
Definition make_move_copy (b : t) (x y : Z) : res t :=
  let board_copy := pickle_roundtrip b in
  do blocked <- box_blocked board_copy x y;
  do _ <- assert (negb blocked);
  let c1 := set_position board_copy x y in
  do c2 <- block_box c1 x y (active_player c1);
  Ok (switch_player c2).

(** Truth value of a list: non-empty. *)
Definition nonempty {A : Type} (l : list A) : bool :=
  match l with [] => false | _ :: _ => true end.

Definition is_game_over (b : t) : res value :=
  do a_moves <- get_legal_moves b (Some (active_player b));
  if negb (nonempty a_moves) then Ok (VInt (inactive_player b))
  else
    do o_moves <- get_legal_moves b (Some (inactive_player b));
    if negb (nonempty o_moves) then Ok (VInt (active_player b))
    else Ok VFalse.

End Board.

(** ** Objects in a store: in-place mutation and copies

    [make_move] mutates the object [self]; [make_move_copy] unpickles a
    fresh object and mutates that one.  A store maps object identities to
    the attributes of the [Board] objects alive; a call on an identity
    that names no object is not a run of the program ([None]). *)

Module Heap.

Definition ref : Type := nat.

Definition alloc (σ : gmap nat Board.t) : ref := fresh (dom σ).

(** [self.make_move(x, y)]: the faults of [make_move] are raised before
    its first assignment, so a raising call leaves the store as it was. *)
Definition make_move (σ : gmap nat Board.t) (self : ref) (x y : Z)
  : option (res unit * gmap nat Board.t) :=
  match σ !! self with
  | None => None
  | Some b =>
      Some match Board.make_move b x y with
           | Ok b' => (Ok tt, <[self := b']> σ)
           | Raise e => (Raise e, σ)
           | OutOfFuel => (OutOfFuel, σ)
           end
  end.

(** [self.make_move_copy(x, y)]: [board_copy] is a new object; every
    assignment of the body is to an attribute of [board_copy]. *)
Definition make_move_copy (σ : gmap nat Board.t) (self : ref) (x y : Z)
  : option (res ref * gmap nat Board.t) :=
  match σ !! self with
  | None => None
  | Some b =>
      let board_copy := alloc σ in
      let σ1 := <[board_copy := Board.pickle_roundtrip b]> σ in
      Some match Board.make_move_copy b x y with
           | Ok c => (Ok board_copy, <[board_copy := c]> σ1)
           | Raise e => (Raise e, σ1)
           | OutOfFuel => (OutOfFuel, σ1)
           end
  end.

End Heap.

(** ** Python floats: IEEE 754 binary64, as specified by [SpecFloat] *)

Module Float.

Definition prec : Z := 53.
Definition emax : Z := 1024.

(** Conversion of an integer operand of a float operation: correctly
    rounded, [OverflowError] when the integer is too large. *)
Definition of_int (n : Z) : res spec_float :=
  match binary_normalize prec emax n 0 false with
  | S754_infinity _ => Raise OverflowError
  | f => Ok f
  end.

Definition is_zero (f : spec_float) : bool :=
  match f with S754_zero _ => true | _ => false end.

(** [x / n] for a float [x] and an integer [n] *)
Definition truediv_int (x : spec_float) (n : Z) : res spec_float :=
  do y <- of_int n;
  if is_zero y then Raise ZeroDivisionError else Ok (SFdiv prec emax x y).

(** [x * n] for a float [x] and an integer [n] *)
Definition mul_int (x : spec_float) (n : Z) : res spec_float :=
  do y <- of_int n;
  Ok (SFmul prec emax x y).

(** [int(x)]: truncation towards zero *)
Definition to_int (x : spec_float) : res Z :=
  match x with
  | S754_zero _ => Ok 0
  | S754_infinity _ => Raise OverflowError
  | S754_nan => Raise ValueError
  | S754_finite s m e =>
      let a := if 0 <=? e then Z.pos m * 2 ^ e else Z.pos m / 2 ^ (- e) in
      Ok (if s then - a else a)
  end.

(** The literal [1.0] *)
Definition one : spec_float := S754_finite false 4503599627370496 (-52).

End Float.

(** ** [ai.py]: class [AI] *)

Module AI.

Definition MAX_SCORE : Z := 10000.

Definition manhattan_distance (x1 y1 x2 y2 : Z) : Z :=
  Z.abs (x1 - x2) + Z.abs (y1 - y2).

(** [*board.player_pos(player)]: unpacking [None] raises [TypeError]. *)
Definition unpack_pos (b : Board.t) (player : Z) : res (Z * Z) :=
  do pos <- Board.player_pos b player;
  match pos with
  | Some xy => Ok xy
  | None => Raise TypeError
  end.

(** [int((1.0 / dist) * total)] *)
Definition inv_scaled (dist total : Z) : res Z :=
  do q <- Float.truediv_int Float.one dist;
  do p <- Float.mul_int q total;
  Float.to_int p.

Definition inv_dist_to_centre (b : Board.t) (player : Z) : res Z :=
  let total := Board.columns b * Board.rows b in
  let centre := (Board.columns b / 2, Board.rows b / 2) in
  do pos <- unpack_pos b player;
  let dist := manhattan_distance (fst pos) (snd pos)
                                 (fst centre) (snd centre) in
  if dist <=? 0 then Ok (total + 5) else inv_scaled dist total.

(** The terminal branch that opens every heuristic; [None] when the
    game is in play. *)
Definition terminal_score (winner : value) (player : Z) : option Z :=
  if truthy winner
  then Some (if eq_int winner player then MAX_SCORE else - MAX_SCORE)
  else None.

Definition score_func1 (b : Board.t) (winner : value) (player : Z)
  : res Z :=
  match terminal_score winner player with
  | Some s => Ok s
  | None =>
      do a_dist <- inv_dist_to_centre b (Board.active_player b);
      do o_dist <- inv_dist_to_centre b (Board.inactive_player b);
      Ok (a_dist - o_dist)
  end.

Definition score_func2 (b : Board.t) (winner : value) (player : Z)
  : res Z :=
  match terminal_score winner player with
  | Some s => Ok s
  | None =>
      do a_moves <- Board.get_legal_moves b (Some (Board.active_player b));
      do o_moves <- Board.get_legal_moves b
                      (Some (Board.inactive_player b));
      Ok (Z.of_nat (length a_moves) - Z.of_nat (length o_moves))
  end.

Definition score_func3 (b : Board.t) (winner : value) (player : Z)
  : res Z :=
  match terminal_score winner player with
  | Some s => Ok s
  | None =>
      do a <- unpack_pos b (Board.active_player b);
      do o <- unpack_pos b (Board.inactive_player b);
      Ok (manhattan_distance (fst a) (snd a) (fst o) (snd o))
  end.

Definition score_func4 (b : Board.t) (winner : value) (player : Z)
  : res Z :=
  match terminal_score winner player with
  | Some s => Ok s
  | None =>
      let total := Board.columns b * Board.rows b in
      do a <- unpack_pos b (Board.active_player b);
      do o <- unpack_pos b (Board.inactive_player b);
      let dist := manhattan_distance (fst a) (snd a) (fst o) (snd o) in
      if dist <=? 0 then Ok (total + 5) else inv_scaled dist total
  end.

(** A scoring heuristic: [score_func(board, winner, player)]. *)
Definition heuristic : Type := Board.t -> value -> Z -> res Z.

(** What a search returns: [(best_score, best_move)]. *)
Definition result : Type := num * option (Z * Z).

Definition player_sign (b : Board.t) (player : Z) : Z :=
  if Board.active_player b =? player then 1 else -1.

(** The [for] loop of [negamax]; [rec] is the recursive call at
    [depth - 1]. *)
Fixpoint negamax_loop (rec : Board.t -> res result) (b : Board.t)
         (moves : list (Z * Z)) (best_score : num)
         (best_move : option (Z * Z)) : res result :=
  match moves with
  | [] => Ok (best_score, best_move)
  | move :: rest =>
      do new_board <- Board.make_move_copy b (fst move) (snd move);
      do r <- rec new_board;
      let current_score := neg (fst r) in
      if gt current_score best_score
      then negamax_loop rec b rest current_score (Some move)
      else negamax_loop rec b rest best_score best_move
  end.

Fixpoint negamax_fuel (fuel : nat) (b : Board.t) (depth player : Z)
         (score_func : heuristic) : res result :=
  match fuel with
  | O => OutOfFuel
  | S fuel' =>
      let sign := player_sign b player in
      do winner <- Board.is_game_over b;
      if truthy winner || (depth =? 0)
      then
        do s <- score_func b winner player;
        Ok (Fin (sign * s), None)
      else
        do moves <- Board.get_legal_moves b None;
        negamax_loop
          (fun new_board =>
             negamax_fuel fuel' new_board (depth - 1) player score_func)
          b moves NegInf None
  end.

(** The [for] loop of [abnegamax], with its [break]. *)
Fixpoint abnegamax_loop (rec : Board.t -> num -> num -> res result)
         (b : Board.t) (moves : list (Z * Z)) (alpha beta : num)
         (best_score : num) (best_move : option (Z * Z)) : res result :=
  match moves with
  | [] => Ok (best_score, best_move)
  | move :: rest =>
      do new_board <- Board.make_move_copy b (fst move) (snd move);
      do r <- rec new_board (neg beta) (neg alpha);
      let current_score := neg (fst r) in
      let best :=
        if gt current_score best_score
        then (current_score, Some move)
        else (best_score, best_move) in
      let alpha := max alpha current_score in
      if ge alpha beta then Ok best
      else abnegamax_loop rec b rest alpha beta (fst best) (snd best)
  end.

Fixpoint abnegamax_fuel (fuel : nat) (b : Board.t) (depth player : Z)
         (alpha beta : num) (score_func : heuristic) : res result :=
  match fuel with
  | O => OutOfFuel
  | S fuel' =>
      let sign := player_sign b player in
      do winner <- Board.is_game_over b;
      if truthy winner || (depth =? 0)
      then
        do s <- score_func b winner player;
        Ok (Fin (sign * s), None)
      else
        do moves <- Board.get_legal_moves b None;
        abnegamax_loop
          (fun new_board a' b' =>
             abnegamax_fuel fuel' new_board (depth - 1) player a' b'
                            score_func)
          b moves alpha beta NegInf None
  end.

(** A budget of recursive calls that covers every search: a search of
    depth [depth >= 0] nests at most [depth + 1] calls, and a search
    of negative depth ends when the game does, after at most one move
    for every cell of the board. *)
Definition search_fuel (b : Board.t) (depth : Z) : nat :=
  S (if 0 <=? depth then Z.to_nat depth else length (Board.board b)).

Definition negamax (b : Board.t) (depth player : Z)
           (score_func : heuristic) : res result :=
  negamax_fuel (search_fuel b depth) b depth player score_func.

Definition abnegamax (b : Board.t) (depth player : Z) (alpha beta : num)
           (score_func : heuristic) : res result :=
  abnegamax_fuel (search_fuel b depth) b depth player alpha beta
                 score_func.

(** The retry loop of [power_abnegamax] over
    [range(depth - 1, 0, -1)], with its [break]; [run i_depth] is the
    call of [abnegamax] at depth [i_depth]. *)
Fixpoint power_loop (run : Z -> res result) (depths : list Z)
         (best : result) : res result :=
  match depths with
  | [] => Ok best
  | i_depth :: rest =>
      do r <- run i_depth;
      if gt (fst r) (Fin (- MAX_SCORE)) then Ok r
      else power_loop run rest r
  end.

Definition power_abnegamax (b : Board.t) (depth player : Z)
           (alpha beta : num) (score_func : heuristic) : res result :=
  do best <- abnegamax b depth player alpha beta score_func;
  if le (fst best) (Fin (- MAX_SCORE))
  then power_loop
         (fun i_depth =>
            abnegamax b i_depth player alpha beta score_func)
         (range_down (depth - 1)) best
  else Ok best.

(** *** Zero-pruning instrumentation

    [abnegamax], returning besides its result whether the test
    [alpha >= beta] succeeded at some node of the tree searched. *)
Fixpoint abnegamax_loop_cut
         (rec : Board.t -> num -> num -> res (result * bool))
         (b : Board.t) (moves : list (Z * Z)) (alpha beta : num)
         (best_score : num) (best_move : option (Z * Z))
  : res (result * bool) :=
  match moves with
  | [] => Ok ((best_score, best_move), false)
  | move :: rest =>
      do new_board <- Board.make_move_copy b (fst move) (snd move);
      do rc <- rec new_board (neg beta) (neg alpha);
      let current_score := neg (fst (fst rc)) in
      let best :=
        if gt current_score best_score
        then (current_score, Some move)
        else (best_score, best_move) in
      let alpha := max alpha current_score in
      if ge alpha beta then Ok (best, true)
      else
        do rest_rc <- abnegamax_loop_cut rec b rest alpha beta
                                         (fst best) (snd best);
        Ok (fst rest_rc, snd rc || snd rest_rc)
  end.

Fixpoint abnegamax_cut_fuel (fuel : nat) (b : Board.t) (depth player : Z)
         (alpha beta : num) (score_func : heuristic)
  : res (result * bool) :=
  match fuel with
  | O => OutOfFuel
  | S fuel' =>
      let sign := player_sign b player in
      do winner <- Board.is_game_over b;
      if truthy winner || (depth =? 0)
      then
        do s <- score_func b winner player;
        Ok ((Fin (sign * s), None), false)
      else
        do moves <- Board.get_legal_moves b None;
        abnegamax_loop_cut
          (fun new_board a' b' =>
             abnegamax_cut_fuel fuel' new_board (depth - 1) player a' b'
                                score_func)
          b moves alpha beta NegInf None
  end.

Definition abnegamax_cut (b : Board.t) (depth player : Z)
           (alpha beta : num) (score_func : heuristic)
  : res (result * bool) :=
  abnegamax_cut_fuel (search_fuel b depth) b depth player alpha beta
                     score_func.

End AI.

(** A fifth heuristic, with the signature and the terminal branch of the
    four of [ai.py]: in play, every blocked box costs [MAX_SCORE]. *)
Definition blocked_boxes (b : Board.t) : Z :=
  Z.of_nat
    (length
       (List.filter
          (fun cell =>
             Z.land cell Board.BOX_BLOCKED_MASK =? Board.BOX_BLOCKED_MASK)
          (Board.board b))).

Definition crowding : AI.heuristic :=
  fun b winner player =>
    match AI.terminal_score winner player with
    | Some s => Ok s
    | None => Ok (- (AI.MAX_SCORE * blocked_boxes b))
    end.

(** ** Vocabulary of the statements *)

(** [box_blocked] answers [False] on the cell. *)
Definition unblocked (b : Board.t) (xy : Z * Z) : Prop :=
  Board.box_blocked b (fst xy) (snd xy) = Ok false.

(** The cell list has one entry for every cell of the grid. *)
Definition grid_ok (b : Board.t) : Prop :=
  Z.of_nat (length (Board.board b)) = Board.rows b * Board.columns b.

Definition in_grid (b : Board.t) (x y : Z) : Prop :=
  (0 <= x < Board.columns b) /\ (0 <= y < Board.rows b).

(** The player has moved, to a cell of the grid. *)
Definition positioned (b : Board.t) (p x y : Z) : Prop :=
  Board.players_position b !! p = Some (Some (x, y)) /\ in_grid b x y.

(** A heuristic that answers within its budget of steps. *)
Definition returns (score_func : AI.heuristic) : Prop :=
  forall b winner player, score_func b winner player <> OutOfFuel.

(** The board a legal move leads to, [j] being the index of the cell. *)
Definition moved (b : Board.t) (j : nat) (x y : Z) : Board.t :=
  Board.switch_player
    (Board.mk (Board.rows b) (Board.columns b)
       (<[j := Z.lor (Board.active_player b) Board.BOX_BLOCKED_MASK]>
          (Board.board b))
       (Board.active_player b) (Board.inactive_player b)
       (<[Board.active_player b := Some (x, y)]>
          (Board.players_position b))).

(** Steps left to the edge of the grid along one axis, and along a
    direction. *)
Definition room1 (d v n : Z) : Z := if d =? 1 then n - 1 - v else v.

Definition room (b : Board.t) (dx dy x y : Z) : Z :=
  if dx =? 0 then room1 dy y (Board.rows b)
  else if dy =? 0 then room1 dx x (Board.columns b)
  else Z.min (room1 dx x (Board.columns b)) (room1 dy y (Board.rows b)).

(** The sum of the rooms of the directions [dirs] from [loc]. *)
Fixpoint rooms (b : Board.t) (loc : Z * Z) (dirs : list (Z * Z)) : Z :=
  match dirs with
  | [] => 0
  | d :: dirs' =>
      Z.max 0 (room b (fst d) (snd d) (fst loc) (snd loc))
      + rooms b loc dirs'
  end.

(** The number of boxes of the cell list that are not blocked. *)
Definition free_boxes (b : Board.t) : nat :=
  length
    (List.filter
       (fun cell =>
          negb (Z.land cell Board.BOX_BLOCKED_MASK =? Board.BOX_BLOCKED_MASK))
       (Board.board b)).

(** ** Sample boards *)

(** A 1 x 2 board after one move of each player: neither can move. *)
Definition both_immobilized : Board.t :=
  Board.mk 1 2 [17; 18] 1 2 (<[1 := Some (0, 0)]> (<[2 := Some (1, 0)]> ∅)).

(** A 3 x 3 board after player 1 took [(0, 1)]. *)
Definition taken_0_1 : Board.t :=
  Board.mk 3 3 [4; 4; 4; 17; 4; 4; 4; 4; 4] 2 1
           (<[1 := Some (0, 1)]> (<[2 := None]> ∅)).

(** A 1 x 4 board with the players at its two ends, player 1 to move. *)
Definition corridor : Board.t :=
  Board.mk 1 4 [17; 4; 4; 18] 1 2
           (<[1 := Some (0, 0)]> (<[2 := Some (3, 0)]> ∅)).

(** A 1 x 10001 board with the players at its two ends. *)
Definition long_corridor : Board.t :=
  Board.mk 1 10001 (17 :: replicate (Z.to_nat 9999) 4 ++ [18]) 1 2
           (<[1 := Some (0, 0)]> (<[2 := Some (10000, 0)]> ∅)).

(** ** Boards of a game *)

(** One of the two players is active and the other inactive. *)
Definition players_ok (b : Board.t) : Prop :=
  (Board.active_player b = Board.PLAYER1 /\
   Board.inactive_player b = Board.PLAYER2) \/
  (Board.active_player b = Board.PLAYER2 /\
   Board.inactive_player b = Board.PLAYER1).

(** The states the methods of [Board] give a box: clear, or blocked and
    holding a player or a block. *)
Definition cell_ok (cell : Z) : Prop :=
  cell = Board.BOX_CLEAR \/
  cell = Z.lor Board.PLAYER1 Board.BOX_BLOCKED_MASK \/
  cell = Z.lor Board.PLAYER2 Board.BOX_BLOCKED_MASK \/
  cell = Z.lor Board.BOX_BLOCK Board.BOX_BLOCKED_MASK.

(** The entry of player [p] in the dictionary: [None], or a cell of the
    grid that is blocked. *)
Definition position_ok (b : Board.t) (p : Z) : Prop :=
  match Board.players_position b !! p with
  | Some None => True
  | Some (Some (x, y)) => in_grid b x y /\ Board.box_blocked b x y = Ok true
  | None => False
  end.

Definition well_formed (b : Board.t) : Prop :=
  grid_ok b /\ players_ok b /\ Forall cell_ok (Board.board b) /\
  (forall p, is_Some (Board.players_position b !! p)
             <-> p = Board.PLAYER1 \/ p = Board.PLAYER2) /\
  position_ok b Board.PLAYER1 /\ position_ok b Board.PLAYER2.

(** The boards a program obtains from the constructor by blocking boxes
    at random and by making legal moves. *)
Inductive reachable : Board.t -> Prop :=
| reach_new (rows columns : Z) :
    0 <= rows -> 0 <= columns -> reachable (Board.init rows columns)
| reach_blocks (b b' : Board.t) (draws : list Z) :
    reachable b ->
    Forall (fun pos => 0 <= pos <= Board.columns b * Board.rows b - 1) draws ->
    Board.gen_random_blocked_boxes b draws = Ok b' ->
    reachable b'
| reach_move (b b' : Board.t) (moves : list (Z * Z)) (x y : Z) :
    reachable b ->
    Board.get_legal_moves b None = Ok moves ->
    (x, y) ∈ moves ->
    Board.make_move b x y = Ok b' ->
    reachable b'.

(** A sequence of calls of [make_move] on one board. *)
Fixpoint play (b : Board.t) (moves : list (Z * Z)) : res Board.t :=
  match moves with
  | [] => Ok b
  | move :: rest =>
      do b' <- Board.make_move b (fst move) (snd move);
      play b' rest
  end.

(** The cells of a ray: [n] steps from [(x, y)] in direction [(dx, dy)]. *)
Definition ray_cells (x y dx dy : Z) (n : nat) : list (Z * Z) :=
  map (fun i : nat => (x + Z.of_nat i * dx, y + Z.of_nat i * dy)) (seq 1 n).

(** Every cell of the grid, row after row. *)
Definition all_cells (rows columns : Z) : list (Z * Z) :=
  flat_map (fun y => map (fun x => (x, y)) (Board.range columns))
           (Board.range rows).

(** [box_blocked] answers [False] on the cell, as a boolean. *)
Definition free_at (b : Board.t) (xy : Z * Z) : bool :=
  match Board.box_blocked b (fst xy) (snd xy) with
  | Ok false => true
  | _ => false
  end.

(** A cell is on the ray of [(x, y)] in a direction, [k] steps away,
    with every cell up to it inside the grid and free. *)
Definition clear_path (b : Board.t) (x y : Z) (d : Z * Z) (k : Z)
           (m : Z * Z) : Prop :=
  1 <= k /\ m = (x + k * fst d, y + k * snd d) /\
  forall i, 1 <= i <= k ->
            in_grid b (x + i * fst d) (y + i * snd d) /\
            Board.box_blocked b (x + i * fst d) (y + i * snd d) = Ok false.

(** The moves gathered so far are apart from each other and on rays of
    the directions [done]. *)
Definition rays_apart (x y : Z) (done : list (Z * Z))
           (moves : list (Z * Z)) : Prop :=
  NoDup moves /\
  forall m, m ∈ moves ->
            exists d k, d ∈ done /\ 1 <= k /\
                        m = (x + k * fst d, y + k * snd d).


(** ** Vocabulary of the searches *)

(** What a search within the window [(alpha, beta)] tells about the
    score [nu] of the full search: a score [v] at or below [alpha] is an
    upper bound, a score at or above [beta] a lower bound, and a score
    strictly inside the window is exact. *)
Definition window_bounds (alpha beta v nu : num) : Prop :=
  (le v alpha = true -> le nu v = true) /\
  (gt v alpha = true -> gt beta v = true -> v = nu) /\
  (ge v beta = true -> ge nu v = true).

(** The best score [B] of a pruned loop against the best score [M] of
    the full loop over the same moves, before a cutoff. *)
Definition loop_inv (alpha0 B M : num) : Prop :=
  (le M alpha0 = true /\ le M B = true /\ le B alpha0 = true) \/
  (gt M alpha0 = true /\ B = M).

(** [best_score] after a move that scored [c]. *)
Definition better (c best : num) : num := if gt c best then c else best.

(** The other seat: the same board with the roles of the two players
    exchanged. *)
Definition swap_roles (b : Board.t) : Board.t :=
  Board.mk (Board.rows b) (Board.columns b) (Board.board b)
           (Board.inactive_player b) (Board.active_player b)
           (Board.players_position b).


(** A result with an integer score and a move that satisfies [P]. *)
Definition picks (P : Z * Z -> Prop) (r : AI.result) : Prop :=
  (exists n, fst r = Fin n) /\ exists m, snd r = Some m /\ P m.

(** A heuristic that raises nothing on the boards of a game. *)
Definition safe (score_func : AI.heuristic) : Prop :=
  forall b winner player,
    well_formed b -> exists s, score_func b winner player = Ok s.

(** ** The renderer: where the board is on the screen

    [src/renderer.py], class [RenderBoard].  A call of
    [pygame.draw.rect(surface, colour, (x, y, w, h))] is the rectangle
    it fills; a method that draws returns the rectangles in the order of
    the calls. *)

Module Renderer.

Definition colour : Type := Z * Z * Z.

Definition BLACK : colour := (0, 0, 0).
Definition RED : colour := (255, 0, 0).
Definition BLUE : colour := (0, 0, 255).
Definition GREEN : colour := (0, 255, 0).
Definition GREY : colour := (96, 96, 96).
Definition LBLUE : colour := (68, 68, 255).
Definition LRED : colour := (255, 68, 68).
Definition BROWN : colour := (102, 51, 0).

Record rect : Type := mk_rect {
  rect_colour : colour;
  rect_x : Z;
  rect_y : Z;
  rect_w : Z;
  rect_h : Z
}.

Record t : Type := mk {
  rows : Z;
  columns : Z;
  box_width : Z;
  margin_width : Z;
  box_mapping : gmap Z colour;
  board_x : Z;
  board_y : Z;
  board_width : Z;
  board_height : Z
}.

(** [RenderBoard(pygame_surface, board_x, board_y, rows, columns,
    box_mapping, box_width, margin_width)] *)
Definition init (board_x board_y rows columns : Z)
           (box_mapping : gmap Z colour) (box_width margin_width : Z) : t :=
  mk rows columns box_width margin_width box_mapping board_x board_y
     (columns * box_width + (columns - 1) * margin_width)
     (rows * box_width + (rows - 1) * margin_width).

(** The inner loop of [draw_board]: one row of boxes, from [curr_x]. *)
Fixpoint draw_row (r : t) (game_board : list Z) (y : Z) (xs : list Z)
         (curr_x curr_y : Z) (drawn : list rect) : res (list rect) :=
  match xs with
  | [] => Ok drawn
  | x :: xs' =>
      let offset := x + y * columns r in
      do box <- getitem game_board offset;
      do c <- dict_get (box_mapping r) box;
      draw_row r game_board y xs'
               (curr_x + (box_width r + margin_width r)) curr_y
               (drawn ++ [mk_rect c curr_x curr_y (box_width r)
                                  (box_width r)])
  end.

(** The outer loop of [draw_board]: every row starts at [board_x]. *)
Fixpoint draw_rows (r : t) (game_board : list Z) (ys : list Z)
         (curr_y : Z) (drawn : list rect) : res (list rect) :=
  match ys with
  | [] => Ok drawn
  | y :: ys' =>
      do drawn' <- draw_row r game_board y (Board.range (columns r))
                            (board_x r) curr_y drawn;
      draw_rows r game_board ys' (curr_y + (box_width r + margin_width r))
                drawn'
  end.

Definition draw_board (r : t) (game_board : list Z) : res (list rect) :=
  do _ <- assert (Z.of_nat (length game_board) =? rows r * columns r);
  draw_rows r game_board (Board.range (rows r)) (board_y r) [].

Definition mouse_in_board (r : t) (mouse_x mouse_y : Z) : bool :=
  if ((board_x r <=? mouse_x) && (mouse_x <=? board_x r + board_width r))
     && ((board_y r <=? mouse_y) && (mouse_y <=? board_y r + board_height r))
  then true
  else false.

Definition mouse_in_margin (r : t) (mouse_x mouse_y box_x box_y : Z)
  : bool :=
  if ((box_x + 1) * box_width r + box_x * margin_width r
      <? mouse_x - board_x r)
     && (mouse_x - board_x r
         <? (box_x + 1) * box_width r + (box_x + 1) * margin_width r)
  then true
  else if ((box_y + 1) * box_width r + box_y * margin_width r
           <? mouse_y - board_y r)
          && (mouse_y - board_y r
              <? (box_y + 1) * box_width r + (box_y + 1) * margin_width r)
  then true
  else false.

(** [a // b] on integers *)
Definition floordiv (a b : Z) : res Z :=
  if b =? 0 then Raise ZeroDivisionError else Ok (a / b).

Definition get_box_coord (r : t) (mouse_x mouse_y : Z) : res (Z * Z) :=
  do box_x <- floordiv (mouse_x - board_x r) (box_width r + margin_width r);
  do box_y <- floordiv (mouse_y - board_y r) (box_width r + margin_width r);
  Ok (box_x, box_y).

Definition draw_box (r : t) (box_x box_y : Z) (c : colour) : rect :=
  let x := box_x * box_width r + box_x * margin_width r + board_x r in
  let y := box_y * box_width r + box_y * margin_width r + board_y r in
  mk_rect c x y (box_width r) (box_width r).

Definition draw_margin_box (r : t) (box_x box_y : Z) (c : colour) : rect :=
  let x := box_x * box_width r + box_x * margin_width r - margin_width r
           + board_x r in
  let y := box_y * box_width r + box_y * margin_width r - margin_width r
           + board_y r in
  mk_rect c x y (box_width r + 2 * margin_width r)
          (box_width r + 2 * margin_width r).

End Renderer.

(** The pixels a rectangle fills: [w] columns from [x] and [h] rows
    from [y]. *)
Definition covers (rc : Renderer.rect) (px py : Z) : Prop :=
  Renderer.rect_x rc <= px < Renderer.rect_x rc + Renderer.rect_w rc /\
  Renderer.rect_y rc <= py < Renderer.rect_y rc + Renderer.rect_h rc.

(** A rectangle one pixel wider and higher. *)
Definition grown (rc : Renderer.rect) : Renderer.rect :=
  Renderer.mk_rect (Renderer.rect_colour rc) (Renderer.rect_x rc)
                   (Renderer.rect_y rc) (Renderer.rect_w rc + 1)
                   (Renderer.rect_h rc + 1).

(** The rectangle [draw_board] owes to a cell: the one [draw_box] fills
    there, in the colour the mapping gives the state of the cell. *)
Definition box_drawn (r : Renderer.t) (game_board : list Z) (xy : Z * Z)
           (rc : Renderer.rect) : Prop :=
  exists box c,
    getitem game_board (fst xy + snd xy * Renderer.columns r) = Ok box /\
    Renderer.box_mapping r !! box = Some c /\
    rc = Renderer.draw_box r (fst xy) (snd xy) c.

(** ** The game controller

    [src/main.py]: the body of the loop of [main], without the clock and
    the printing.  What is drawn is returned as the list of the calls
    made on the display. *)

Module Main.

Definition start_x : Z := 10.
Definition start_y : Z := 10.
Definition box_width : Z := 50.
Definition margin_width : Z := 5.

(** Default search depth *)
Definition depth : Z := 5.

Definition box_mapping : gmap Z Renderer.colour :=
  <[Board.PLAYER1 := Renderer.LBLUE]>
    (<[Board.PLAYER2 := Renderer.LRED]>
       (<[Board.BOX_CLEAR := Renderer.GREY]>
          (<[Board.BOX_BLOCK := Renderer.BROWN]>
             (<[Board.BOX_BLOCKED_MASK := Renderer.BLACK]> ∅)))).

Definition player1_colour : Renderer.colour := Renderer.BLUE.
Definition player2_colour : Renderer.colour := Renderer.RED.

Definition visual_board (rows columns : Z) : Renderer.t :=
  Renderer.init start_x start_y rows columns box_mapping box_width
                margin_width.

(** A call on the display: [display.fill] or [pygame.draw.rect]. *)
Inductive op : Type :=
| Fill (c : Renderer.colour)
| Rect (rc : Renderer.rect).

(** An entry of [record_play] after the first:
    [(active_player, score, move)], the score being [None] for a move
    of the human player. *)
Definition entry : Type := Z * option num * option (Z * Z).

(** The variables of the loop. *)
Record state : Type := mk {
  game : Board.t;
  record_play : list entry;
  render_update : bool;
  game_over : bool
}.

(** The values before the loop, for a board of any size. *)
Definition start (rows columns : Z) : state :=
  mk (Board.init rows columns) [] true false.

(** [[i & ~BOX_BLOCKED_MASK if i != BOX_BLOCKED_MASK else
    BOX_BLOCKED_MASK for i in game.board_list]] *)
Definition board_list (game : Board.t) : list Z :=
  map (fun i => if negb (i =? Board.BOX_BLOCKED_MASK)
                then Z.land i (Z.lnot Board.BOX_BLOCKED_MASK)
                else Board.BOX_BLOCKED_MASK)
      (Board.board game).

(** [if player_pos:] draw at the unpacked [player_pos]. *)
Definition draw_at (draw : Z -> Z -> Renderer.colour -> Renderer.rect)
           (player_pos : option (Z * Z)) (c : Renderer.colour) : list op :=
  match player_pos with
  | Some (x, y) => [Rect (draw x y c)]
  | None => []
  end.

(** The refresh of the screen, [if render_update: ...]: the calls made
    on the display and the new value of [game_over]. *)
Definition refresh (visual_board : Renderer.t) (game : Board.t)
           (game_over : bool) : res (list op * bool) :=
  let board_list := board_list game in
  do player1_pos <- dict_get (Board.players_position game) Board.PLAYER1;
  do player_pos <-
     (if Board.active_player game =? Board.PLAYER2
      then dict_get (Board.players_position game) Board.PLAYER2
      else Ok player1_pos);
  let highlight :=
    draw_at (Renderer.draw_margin_box visual_board) player_pos
            Renderer.GREEN in
  do boxes <- Renderer.draw_board visual_board board_list;
  do player1_pos <- dict_get (Board.players_position game) Board.PLAYER1;
  let box1 :=
    draw_at (Renderer.draw_box visual_board) player1_pos player1_colour in
  do player2_pos <- dict_get (Board.players_position game) Board.PLAYER2;
  let box2 :=
    draw_at (Renderer.draw_box visual_board) player2_pos player2_colour in
  do winner <- Board.is_game_over game;
  Ok (Fill Renderer.BLACK :: highlight ++ map Rect boxes ++ box1 ++ box2,
      if truthy winner then true else game_over).

(** The turn of the program for [player]: search, record, move. *)
Definition ai_move (player : Z) (st : state) : res state :=
  do r <- AI.power_abnegamax (game st) depth player NegInf PosInf
                             AI.score_func2;
  let record_play :=
    record_play st
    ++ [(Board.active_player (game st), Some (fst r), snd r)] in
  match snd r with
  | None => Raise TypeError
  | Some (x, y) =>
      do game' <- Board.make_move (game st) x y;
      Ok (mk game' record_play true (game_over st))
  end.

(** The two branches that let the program play. *)
Definition ai_turn (human_playing : bool) (st : state) : res state :=
  if (Board.active_player (game st) =? Board.PLAYER1)
     && negb human_playing && negb (game_over st)
  then ai_move Board.PLAYER1 st
  else if (Board.active_player (game st) =? Board.PLAYER2)
          && negb (game_over st)
  then ai_move Board.PLAYER2 st
  else Ok st.

(** The event [MOUSEBUTTONDOWN] with the mouse at [(mouse_x, mouse_y)]. *)
Definition click (human_playing : bool) (visual_board : Renderer.t)
           (st : state) (mouse_x mouse_y : Z) : res state :=
  if (Board.active_player (game st) =? Board.PLAYER1)
     && human_playing && negb (game_over st)
  then
    if Renderer.mouse_in_board visual_board mouse_x mouse_y
    then
      do box <- Renderer.get_box_coord visual_board mouse_x mouse_y;
      if negb (Renderer.mouse_in_margin visual_board mouse_x mouse_y
                                        (fst box) (snd box))
      then
        do blocked <- Board.box_blocked (game st) (fst box) (snd box);
        if negb blocked
        then
          do moves <- Board.get_legal_moves (game st) None;
          if bool_decide (box ∈ moves)
          then
            let record_play :=
              record_play st
              ++ [(Board.active_player (game st), None, Some box)] in
            do game' <- Board.make_move (game st) (fst box) (snd box);
            Ok (mk game' record_play true (game_over st))
          else Ok st
        else Ok st
      else Ok st
    else Ok st
  else Ok st.

(** One turn of the loop with no event: the refresh, then the turn of
    the program. *)
Definition iteration (human_playing : bool) (visual_board : Renderer.t)
           (st : state) : res (state * list op) :=
  do shown <-
     (if render_update st
      then
        do shown <- refresh visual_board (game st) (game_over st);
        Ok (mk (game st) (record_play st) false (snd shown), fst shown)
      else Ok (st, []));
  do st' <- ai_turn human_playing (fst shown);
  Ok (st', snd shown).

(** [n] turns of the loop. *)
Fixpoint run (human_playing : bool) (visual_board : Renderer.t) (n : nat)
         (st : state) : res state :=
  match n with
  | O => Ok st
  | S n' =>
      do st' <- run human_playing visual_board n' st;
      do next <- iteration human_playing visual_board st';
      Ok (fst next)
  end.

End Main.

(** ** The replay of a recorded game

    [src/replay.py]: the refresh is the one of [main.py]; the keys [m]
    and [n] step through the entries recorded. *)

Module Replay.

Record state : Type := mk {
  game : Board.t;
  index : Z;
  render_update : bool;
  game_over : bool
}.

(** The values before the loop, [(rows, columns, human_playing)] being
    the first element of the list loaded. *)
Definition start (rows columns : Z) : state :=
  mk (Board.init rows columns) 0 true false.

(** [game.make_move] on the unpacked move of the entry at [index]. *)
Definition replay_entry (record_play : list Main.entry) (game : Board.t)
           (index : Z) : res Board.t :=
  do e <- getitem record_play index;
  match snd e with
  | None => Raise TypeError
  | Some (x, y) => Board.make_move game x y
  end.

(** The key [m]: move forward with a move. *)
Definition forward (record_play : list Main.entry) (st : state)
  : res state :=
  if negb (game_over st)
  then
    do game' <- replay_entry record_play (game st) (index st);
    Ok (mk game' (index st + 1) true (game_over st))
  else Ok st.

(** The key [n]: move backwards. *)
Definition backward (record_play : list Main.entry) (st : state)
  : res state :=
  let index := index st - 1 in
  do game' <- replay_entry record_play (game st) index;
  Ok (mk game' index true (game_over st)).

(** The refresh at the head of the loop. *)
Definition shown (visual_board : Renderer.t) (st : state) : res state :=
  if render_update st
  then
    do shown <- Main.refresh visual_board (game st) (game_over st);
    Ok (mk (game st) (index st) false (snd shown))
  else Ok st.

(** The keys the loop answers to. *)
Inductive key : Type :=
| K_m
| K_n.

(** The handler of [KEYDOWN]. *)
Definition handle (record_play : list Main.entry) (st : state) (k : key)
  : res state :=
  match k with
  | K_m => forward record_play st
  | K_n => backward record_play st
  end.

(** [for event in pygame.event.get()]: the keys of one batch are
    handled one after the other, with no refresh in between, so
    [game_over] is the value the last refresh left. *)
Fixpoint handle_all (record_play : list Main.entry) (keys : list key)
         (st : state) : res state :=
  match keys with
  | [] => Ok st
  | k :: rest =>
      do st' <- handle record_play st k;
      handle_all record_play rest st'
  end.

(** One turn of the loop: the refresh, then the batch of keys that have
    arrived. *)
Definition turn (visual_board : Renderer.t) (record_play : list Main.entry)
           (keys : list key) (st : state) : res state :=
  do st' <- shown visual_board st;
  handle_all record_play keys st'.

(** Turns of the loop, one for every batch of keys; a batch may be
    empty. *)
Fixpoint run (visual_board : Renderer.t) (record_play : list Main.entry)
         (batches : list (list key)) (st : state) : res state :=
  match batches with
  | [] => Ok st
  | keys :: rest =>
      do st' <- turn visual_board record_play keys st;
      run visual_board record_play rest st'
  end.

End Replay.

(** The entries a game leaves in [record_play]: every move was legal
    and was made while the game was in play. *)
Inductive recorded (start : Board.t) : list Main.entry -> Board.t -> Prop :=
| recorded_start : recorded start [] start
| recorded_move (entries : list Main.entry) (b b' : Board.t)
                (moves : list (Z * Z)) (score : option num) (x y : Z) :
    recorded start entries b ->
    Board.is_game_over b = Ok VFalse ->
    Board.get_legal_moves b None = Ok moves ->
    (x, y) ∈ moves ->
    Board.make_move b x y = Ok b' ->
    recorded start (entries ++ [(Board.active_player b, score, Some (x, y))])
             b'.


(** Batches that hold the key [m] only, so many times in each turn. *)
Definition presses (counts : list nat) : list (list Replay.key) :=
  map (fun n => replicate n Replay.K_m) counts.

(** The replay after [k] entries: the board is the one the first [k]
    entries lead to, [index] is [k], and [game_over] is what the last
    refresh found, or still unset after a move. *)
Definition replayed (start : Board.t) (entries : list Main.entry) (k : nat)
           (st : Replay.state) : Prop :=
  recorded start (take k entries) (Replay.game st) /\
  Replay.index st = Z.of_nat k /\
  if Replay.render_update st
  then Replay.game_over st = false
  else exists winner,
      Board.is_game_over (Replay.game st) = Ok winner /\
      Replay.game_over st = truthy winner.

(** * Theorems *)

(** ** Runs of the model *)

Example init_3x3_moves :
  Board.get_legal_moves (Board.init 3 3) None
  = Ok [(0,0); (1,0); (2,0); (0,1); (1,1); (2,1); (0,2); (1,2); (2,2)].
Proof. vm_compute. reflexivity. Qed.

Example float_one : Float.of_int 1 = Ok Float.one.
Proof. vm_compute. reflexivity. Qed.

Example inv_scaled_3_9 : AI.inv_scaled 3 9 = Ok 3.
Proof. vm_compute. reflexivity. Qed.

(** [(1.0 / 49) * 49] is [0.9999999999999999]: the integer part is 0. *)
Example inv_scaled_49_49 : AI.inv_scaled 49 49 = Ok 0.
Proof. vm_compute. reflexivity. Qed.

Example negamax_2x2 :
  AI.negamax (Board.init 2 2) 3 1 AI.score_func2 = Ok (Fin 0, Some (0, 0)).
Proof. vm_compute. reflexivity. Qed.

Example both_immobilized_reached :
  (do b1 <- Board.make_move (Board.init 1 2) 0 0; Board.make_move b1 1 0)
  = Ok both_immobilized.
Proof. vm_compute. reflexivity. Qed.

Example taken_0_1_reached :
  Board.make_move (Board.init 3 3) 0 1 = Ok taken_0_1.
Proof. vm_compute. reflexivity. Qed.

Example corridor_reached :
  (do b1 <- Board.make_move (Board.init 1 4) 0 0; Board.make_move b1 3 0)
  = Ok corridor.
Proof. vm_compute. reflexivity. Qed.

Example long_corridor_reached :
  (do b1 <- Board.make_move (Board.init 1 10001) 0 0;
   Board.make_move b1 10000 0)
  = Ok long_corridor.
Proof. vm_compute. reflexivity. Qed.

(** ** Outcomes *)

Lemma bind_Ok {A B : Type} (m : res A) (k : A -> res B) (r : B) :
  Py.bind m k = Ok r -> exists a, m = Ok a /\ k a = Ok r.
Proof. destruct m as [a| |]; simpl; intros H; try discriminate. eauto. Qed.

Ltac inv_bind H :=
  let a := fresh "a" in
  let Ha := fresh "Ha" in
  apply bind_Ok in H; destruct H as (a & Ha & H).

(** ** Legal moves are unblocked cells *)

Lemma free_row_unblocked b y xs : forall moves moves',
  Forall (unblocked b) moves ->
  Board.free_row b y xs moves = Ok moves' ->
  Forall (unblocked b) moves'.
Proof.
  induction xs as [|x xs IH]; simpl; intros moves moves' Hm H.
  - congruence.
  - inv_bind H. apply (IH _ _) in H; [exact H|].
    destruct a; [exact Hm|].
    apply Forall_app. split; [exact Hm|]. constructor; [exact Ha|constructor].
Qed.

Lemma free_rows_unblocked b ys : forall moves moves',
  Forall (unblocked b) moves ->
  Board.free_rows b ys moves = Ok moves' ->
  Forall (unblocked b) moves'.
Proof.
  induction ys as [|y ys IH]; simpl; intros moves moves' Hm H.
  - congruence.
  - inv_bind H.
    eapply IH; [eapply free_row_unblocked; [exact Hm|exact Ha]|exact H].
Qed.

Lemma ray_unblocked b dx dy fuel : forall x y moves moves',
  Forall (unblocked b) moves ->
  Board.ray fuel b dx dy x y moves = Ok moves' ->
  Forall (unblocked b) moves'.
Proof.
  induction fuel as [|fuel IH]; simpl; intros x y moves moves' Hm H.
  - discriminate.
  - destruct (_ && _); [|congruence].
    inv_bind H. destruct a; [congruence|].
    eapply IH; [|exact H].
    apply Forall_app. split; [exact Hm|]. constructor; [exact Ha|constructor].
Qed.

Lemma rays_unblocked b loc dirs : forall moves moves',
  Forall (unblocked b) moves ->
  Board.rays b loc dirs moves = Ok moves' ->
  Forall (unblocked b) moves'.
Proof.
  induction dirs as [|[dx dy] dirs IH]; cbn [Board.rays];
    intros moves moves' Hm H.
  - congruence.
  - inv_bind H.
    eapply IH; [eapply ray_unblocked; [exact Hm|exact Ha]|exact H].
Qed.

Lemma legal_moves_unblocked b player moves :
  Board.get_legal_moves b player = Ok moves ->
  Forall (unblocked b) moves.
Proof.
  unfold Board.get_legal_moves. intros H. inv_bind H.
  destruct a as [xy|].
  - eapply rays_unblocked; [|exact H]. constructor.
  - eapply free_rows_unblocked; [|exact H]. constructor.
Qed.

(** ** The terminal contract of the heuristics *)

Lemma terminal_score_player (w p : Z) :
  w = Board.PLAYER1 \/ w = Board.PLAYER2 ->
  AI.terminal_score (VInt w) p
  = Some (if w =? p then AI.MAX_SCORE else - AI.MAX_SCORE).
Proof. intros [-> | ->]; reflexivity. Qed.

(** C4. With a player identifier as [winner], each of the four
    heuristics returns [MAX_SCORE] when [winner] is [player] and
    [- MAX_SCORE] when it is not, whatever the board holds; no depth
    enters the computation. *)
Theorem terminal_scores (b : Board.t) (w p : Z) :
  w = Board.PLAYER1 \/ w = Board.PLAYER2 ->
  (w = p ->
   AI.score_func1 b (VInt w) p = Ok AI.MAX_SCORE /\
   AI.score_func2 b (VInt w) p = Ok AI.MAX_SCORE /\
   AI.score_func3 b (VInt w) p = Ok AI.MAX_SCORE /\
   AI.score_func4 b (VInt w) p = Ok AI.MAX_SCORE) /\
  (w <> p ->
   AI.score_func1 b (VInt w) p = Ok (- AI.MAX_SCORE) /\
   AI.score_func2 b (VInt w) p = Ok (- AI.MAX_SCORE) /\
   AI.score_func3 b (VInt w) p = Ok (- AI.MAX_SCORE) /\
   AI.score_func4 b (VInt w) p = Ok (- AI.MAX_SCORE)).
Proof.
  intros Hw.
  unfold AI.score_func1, AI.score_func2, AI.score_func3, AI.score_func4.
  rewrite (terminal_score_player _ p Hw).
  split; intros Hp.
  - apply Z.eqb_eq in Hp. rewrite Hp. auto.
  - apply Z.eqb_neq in Hp. rewrite Hp. auto.
Qed.

(** Player 2 has won: the score of player 1 is [- MAX_SCORE]. *)
Lemma terminal_scores_witness :
  AI.score_func3 (Board.init 3 3) (VInt 2) 1 = Ok (- AI.MAX_SCORE).
Proof.
  apply (terminal_scores (Board.init 3 3) 2 1); [right; reflexivity | lia].
Defined.

(** ** The terminal test *)

(** C6. [is_game_over] looks at the active player first: without a legal
    move for the active player the inactive player is returned, whatever
    the inactive player can do; the active player is returned only when
    it can move and the inactive player cannot; [False] otherwise. *)
Theorem is_game_over_active_first (b : Board.t) (a_moves : list (Z * Z)) :
  Board.get_legal_moves b (Some (Board.active_player b)) = Ok a_moves ->
  (a_moves = [] ->
   Board.is_game_over b = Ok (VInt (Board.inactive_player b))) /\
  (a_moves <> [] ->
   forall o_moves,
     Board.get_legal_moves b (Some (Board.inactive_player b)) = Ok o_moves ->
     (o_moves = [] ->
      Board.is_game_over b = Ok (VInt (Board.active_player b))) /\
     (o_moves <> [] -> Board.is_game_over b = Ok VFalse)).
Proof.
  intros Ha. unfold Board.is_game_over. rewrite Ha. simpl.
  split.
  - intros ->. reflexivity.
  - intros Hne. destruct a_moves as [|m ms]; [congruence|]. simpl.
    intros o_moves ->. simpl. split.
    + intros ->. reflexivity.
    + intros Ho. destruct o_moves; [congruence|]. reflexivity.
Qed.

(** With both players immobilized the inactive player, 2, is returned. *)
Lemma is_game_over_active_first_witness :
  Board.get_legal_moves both_immobilized (Some 2) = Ok [] /\
  Board.is_game_over both_immobilized = Ok (VInt 2).
Proof.
  split; [vm_compute; reflexivity|].
  apply (is_game_over_active_first both_immobilized []);
    [vm_compute; reflexivity | reflexivity].
Defined.

(** ** Leaves of the search *)

(** C8. On a board that is game-over, or at depth zero, [negamax] returns
    the heuristic's score of the board, multiplied by +1 when the active
    player is [player] and by -1 when it is not, and no move. *)
Theorem negamax_leaf (b : Board.t) (depth player : Z)
        (score_func : AI.heuristic) (winner : value) (s : Z) :
  Board.is_game_over b = Ok winner ->
  truthy winner = true \/ depth = 0 ->
  score_func b winner player = Ok s ->
  AI.negamax b depth player score_func
  = Ok (Fin ((if Board.active_player b =? player then 1 else -1) * s),
        None).
Proof.
  intros Hw Hleaf Hs. unfold AI.negamax, AI.search_fuel.
  cbn [AI.negamax_fuel]. rewrite Hw. cbn [Py.bind].
  assert (Hc : truthy winner || (depth =? 0) = true).
  { destruct Hleaf as [-> | ->]; [reflexivity|].
    rewrite Z.eqb_refl. apply orb_true_r. }
  rewrite Hc, Hs. reflexivity.
Qed.

(** A finished game, searched at depth 4 for player 1, who lost. *)
Lemma negamax_leaf_witness :
  AI.negamax both_immobilized 4 1 AI.score_func2
  = Ok (Fin (- AI.MAX_SCORE), None).
Proof.
  apply (negamax_leaf both_immobilized 4 1 AI.score_func2 (VInt 2)
           (- AI.MAX_SCORE)).
  - vm_compute. reflexivity.
  - left. reflexivity.
  - vm_compute. reflexivity.
Defined.

(** ** Indexing without bounds validation *)

Lemma norm_index_inside (len i : Z) :
  0 <= i < len -> Py.norm_index len i = Some (Z.to_nat i).
Proof.
  intros H. unfold Py.norm_index.
  destruct (Z.ltb_spec i 0); [lia|].
  destruct (Z.leb_spec 0 i); [|lia].
  destruct (Z.ltb_spec i len); [|lia]. reflexivity.
Qed.

Lemma getitem_inside {A : Type} (l : list A) (i : Z) :
  0 <= i < Z.of_nat (length l) -> exists a, Py.getitem l i = Ok a.
Proof.
  intros H. unfold Py.getitem. rewrite norm_index_inside by exact H.
  destruct (lookup_lt_is_Some_2 l (Z.to_nat i)) as [a Ha]; [lia|].
  rewrite Ha. eauto.
Qed.

(** C10. [box_blocked] validates no coordinate.  With [x] outside
    [0 .. columns - 1] and the flat index [x + y * columns] inside the
    cell list, it raises nothing: it reads the cell at that index and
    answers whether the mask is set in it, which is the answer for the
    cell whose coordinates, inside the row, have that index: another
    cell. *)
Theorem box_blocked_row_wrap (b : Board.t) (x y : Z) :
  0 < Board.columns b ->
  ~ (0 <= x < Board.columns b) ->
  0 <= Board.offset b x y < Z.of_nat (length (Board.board b)) ->
  let x' := Board.offset b x y mod Board.columns b in
  let y' := Board.offset b x y / Board.columns b in
  0 <= x' < Board.columns b /\ (x', y') <> (x, y) /\
  exists cell,
    Board.board b !! Z.to_nat (Board.offset b x y) = Some cell /\
    Board.box_blocked b x y
    = Ok (Z.land cell Board.BOX_BLOCKED_MASK =? Board.BOX_BLOCKED_MASK) /\
    Board.box_blocked b x' y'
    = Ok (Z.land cell Board.BOX_BLOCKED_MASK =? Board.BOX_BLOCKED_MASK).
Proof.
  intros Hc Hx Hoff x' y'.
  assert (Hx' : 0 <= x' < Board.columns b) by (apply Z.mod_pos_bound; lia).
  split; [exact Hx'|]. split.
  - intros Heq. injection Heq as Heq _. lia.
  - assert (Hsame : Board.offset b x' y' = Board.offset b x y).
    { unfold Board.offset at 1. subst x' y'.
      pose proof (Z.div_mod (Board.offset b x y) (Board.columns b)). lia. }
    destruct (getitem_inside (Board.board b) _ Hoff) as [cell Hcell].
    exists cell. split.
    + unfold Py.getitem in Hcell.
      rewrite norm_index_inside in Hcell by exact Hoff.
      destruct (Board.board b !! Z.to_nat (Board.offset b x y));
        congruence.
    + unfold Board.box_blocked. rewrite Hsame, Hcell. split; reflexivity.
Qed.

(** [(3, 0)] is answered like [(0, 1)], although the board has no
    column 3. *)
Example taken_0_1_column_3 : Board.box_blocked taken_0_1 3 0 = Ok true.
Proof. vm_compute. reflexivity. Qed.

(** On the 3 x 3 board with [(0, 1)] taken, the cell read for [(3, 0)]
    is the one of [(0, 1)], which holds player 1: both are blocked. *)
Lemma box_blocked_row_wrap_witness :
  Board.board taken_0_1 !! 3%nat = Some 17 /\
  Board.box_blocked taken_0_1 3 0 = Ok true /\
  Board.box_blocked taken_0_1 0 1 = Ok true.
Proof.
  destruct (box_blocked_row_wrap taken_0_1 3 0)
    as (_ & _ & cell & Hcell & H3 & H0).
  - simpl. lia.
  - simpl. lia.
  - unfold Board.offset. simpl. lia.
  - assert (E : cell = 17).
    { change (Some 17 = Some cell) in Hcell. congruence. }
    subst cell. split; [reflexivity|]. split; [exact H3 | exact H0].
Defined.

(** ** Construction *)








(** ** Moves on copies *)

Lemma pickle_roundtrip_eq (b : Board.t) : Board.pickle_roundtrip b = b.
Proof. destruct b. reflexivity. Qed.

Lemma getitem_Ok_index {A : Type} (l : list A) (i : Z) (a : A) :
  Py.getitem l i = Ok a ->
  exists j, Py.norm_index (Z.of_nat (length l)) i = Some j /\ l !! j = Some a.
Proof.
  unfold Py.getitem. destruct (Py.norm_index _ i) as [j|]; [|discriminate].
  destruct (l !! j) as [a'|] eqn:E; [|discriminate].
  intros [= ->]. eauto.
Qed.

Lemma box_blocked_Ok_index (b : Board.t) (x y : Z) (r : bool) :
  Board.box_blocked b x y = Ok r ->
  exists j cell,
    Py.norm_index (Z.of_nat (length (Board.board b))) (Board.offset b x y)
    = Some j /\
    Board.board b !! j = Some cell /\
    r = (Z.land cell Board.BOX_BLOCKED_MASK =? Board.BOX_BLOCKED_MASK).
Proof.
  unfold Board.box_blocked. intros H. inv_bind H.
  apply getitem_Ok_index in Ha. destruct Ha as (j & Hj & Hc).
  injection H as <-. eauto.
Qed.

Lemma make_move_unblocked (b : Board.t) (x y : Z) :
  Board.box_blocked b x y = Ok false ->
  exists j cell,
    Py.norm_index (Z.of_nat (length (Board.board b))) (Board.offset b x y)
    = Some j /\
    Board.board b !! j = Some cell /\
    Z.land cell Board.BOX_BLOCKED_MASK <> Board.BOX_BLOCKED_MASK /\
    Board.make_move b x y = Ok (moved b j x y) /\
    Board.make_move_copy b x y = Ok (moved b j x y).
Proof.
  intros H. destruct (box_blocked_Ok_index _ _ _ _ H) as (j & cell & Hj & Hc & Hr).
  exists j, cell. split; [exact Hj|]. split; [exact Hc|]. split.
  { intros E. rewrite E, Z.eqb_refl in Hr. discriminate. }
  unfold Board.make_move, Board.make_move_copy.
  rewrite pickle_roundtrip_eq, H. simpl.
  unfold Board.block_box, Py.setitem, Board.offset in *. simpl.
  rewrite Hj. simpl. split; reflexivity.
Qed.

(** C5. For a move of [get_legal_moves()], [make_move_copy] leaves the
    object it is called on, and every other object alive, as they were;
    the object it returns is new, and equal to what [make_move] makes of
    any object that was equal to the original. *)
Theorem make_move_copy_frame (σ : gmap nat Board.t) (self : Heap.ref)
        (b : Board.t) (moves : list (Z * Z)) (x y : Z) :
  σ !! self = Some b ->
  Board.get_legal_moves b None = Ok moves ->
  (x, y) ∈ moves ->
  exists (board_copy : Heap.ref) (c : Board.t) (σ' : gmap nat Board.t),
    Heap.make_move_copy σ self x y = Some (Ok board_copy, σ') /\
    σ' !! self = Some b /\
    (forall r, r <> board_copy -> σ' !! r = σ !! r) /\
    σ !! board_copy = None /\
    σ' !! board_copy = Some c /\
    forall (τ : gmap nat Board.t) (clone : Heap.ref),
      τ !! clone = Some b ->
      exists τ',
        Heap.make_move τ clone x y = Some (Ok tt, τ') /\
        τ' !! clone = Some c.
Proof.
  intros Hself Hmoves Hin.
  pose proof (legal_moves_unblocked _ _ _ Hmoves) as Hfree.
  rewrite Forall_forall in Hfree. specialize (Hfree _ Hin).
  unfold unblocked in Hfree. simpl in Hfree.
  destruct (make_move_unblocked _ _ _ Hfree) as (j & cell & _ & _ & _ & Hmv & Hcp).
  assert (Hnew : σ !! Heap.alloc σ = None).
  { apply (not_elem_of_dom (D := gset nat)).
    unfold Heap.alloc, Heap.ref. apply is_fresh. }
  assert (Hne : Heap.alloc σ <> self) by congruence.
  exists (Heap.alloc σ), (moved b j x y).
  eexists. unfold Heap.make_move_copy. rewrite Hself, Hcp.
  split; [reflexivity|]. split.
  { rewrite !lookup_insert_ne by exact Hne. exact Hself. }
  split.
  { intros r Hr. rewrite !lookup_insert_ne by congruence. reflexivity. }
  split; [exact Hnew|]. split.
  { apply lookup_insert_eq. }
  intros τ clone Hclone. eexists. unfold Heap.make_move.
  rewrite Hclone, Hmv. split; [reflexivity|]. apply lookup_insert_eq.
Qed.

(** On a store holding one fresh 3 x 3 board, a move to the centre. *)
Lemma make_move_copy_frame_witness :
  exists (board_copy : Heap.ref) (c : Board.t) (σ' : gmap nat Board.t),
    Heap.make_move_copy {[ 0%nat := Board.init 3 3 ]} 0%nat 1 1
    = Some (Ok board_copy, σ') /\
    σ' !! 0%nat = Some (Board.init 3 3) /\
    σ' !! board_copy = Some c /\
    Board.make_move (Board.init 3 3) 1 1 = Ok c.
Proof.
  destruct (make_move_copy_frame {[ 0%nat := Board.init 3 3 ]} 0%nat
              (Board.init 3 3)
              [(0,0); (1,0); (2,0); (0,1); (1,1); (2,1); (0,2); (1,2); (2,2)]
              1 1)
    as (r & c & σ' & Hcall & Hself & _ & _ & Hcopy & Hclone).
  - reflexivity.
  - vm_compute. reflexivity.
  - repeat first [apply list_elem_of_here | apply list_elem_of_further].
  - exists r, c, σ'. split; [exact Hcall|]. split; [exact Hself|].
    split; [exact Hcopy|].
    destruct (Hclone {[ 0%nat := Board.init 3 3 ]} 0%nat) as (τ' & Hmv & Hc).
    + reflexivity.
    + unfold Heap.make_move in Hmv.
      change ({[ 0%nat := Board.init 3 3 ]} !! 0%nat)
        with (Some (Board.init 3 3)) in Hmv.
      cbv beta iota in Hmv.
      destruct (Board.make_move (Board.init 3 3) 1 1) as [b'| |];
        [|discriminate Hmv|discriminate Hmv].
      injection Hmv as Hτ.
      subst τ'. rewrite lookup_insert_eq in Hc. congruence.
Defined.

(** ** Alpha-beta search without cutoff *)

Lemma abnegamax_loop_cut_fst
      (rec : Board.t -> num -> num -> res AI.result)
      (rec_cut : Board.t -> num -> num -> res (AI.result * bool))
      (b : Board.t) (beta : num) :
  (forall nb a' b', rec nb a' b' = do rc <- rec_cut nb a' b'; Ok (fst rc)) ->
  forall moves alpha best_score best_move,
    AI.abnegamax_loop rec b moves alpha beta best_score best_move
    = do rc <- AI.abnegamax_loop_cut rec_cut b moves alpha beta
                                     best_score best_move;
      Ok (fst rc).
Proof.
  intros Hrec. induction moves as [|move rest IH]; intros; simpl.
  - reflexivity.
  - destruct (Board.make_move_copy b move.1 move.2) as [nb| |]; simpl;
      try reflexivity.
    rewrite Hrec.
    destruct (rec_cut nb (neg beta) (neg alpha)) as [[r c]| |]; simpl;
      try reflexivity.
    destruct (ge _ beta); [reflexivity|].
    rewrite IH.
    destruct (AI.abnegamax_loop_cut _ _ _ _ _ _ _) as [[r' c']| |];
      reflexivity.
Qed.

Lemma abnegamax_cut_fuel_fst (player : Z) (score_func : AI.heuristic) :
  forall fuel b depth alpha beta,
    AI.abnegamax_fuel fuel b depth player alpha beta score_func
    = do rc <- AI.abnegamax_cut_fuel fuel b depth player alpha beta
                                     score_func;
      Ok (fst rc).
Proof.
  induction fuel as [|fuel IH]; intros; simpl; [reflexivity|].
  destruct (Board.is_game_over b) as [w| |]; simpl; try reflexivity.
  destruct (truthy w || (depth =? 0)).
  - destruct (score_func b w player); reflexivity.
  - destruct (Board.get_legal_moves b None) as [moves| |]; simpl;
      try reflexivity.
    apply abnegamax_loop_cut_fst. intros. apply IH.
Qed.

Lemma abnegamax_loop_no_cut
      (rec_cut : Board.t -> num -> num -> res (AI.result * bool))
      (rec_neg : Board.t -> res AI.result) (b : Board.t) (beta : num) :
  (forall nb a' b' r',
      rec_cut nb a' b' = Ok (r', false) -> rec_neg nb = Ok r') ->
  forall moves alpha best_score best_move r,
    AI.abnegamax_loop_cut rec_cut b moves alpha beta best_score best_move
    = Ok (r, false) ->
    AI.negamax_loop rec_neg b moves best_score best_move = Ok r.
Proof.
  intros Hrec. induction moves as [|move rest IH];
    intros alpha best_score best_move r H; simpl in *.
  - injection H as <-. reflexivity.
  - destruct (Board.make_move_copy b move.1 move.2) as [nb| |];
      simpl in *; try discriminate.
    destruct (rec_cut nb (neg beta) (neg alpha)) as [[r' c]| |] eqn:Hc;
      simpl in *; try discriminate.
    destruct (ge _ beta); [discriminate|].
    destruct (AI.abnegamax_loop_cut _ _ _ _ _ _ _) as [[r'' c']| |] eqn:Hl;
      simpl in *; try discriminate.
    injection H as -> Hor. apply orb_false_elim in Hor as [-> ->].
    rewrite (Hrec _ _ _ _ Hc). simpl.
    destruct (gt (neg r'.1) best_score); simpl in Hl;
      apply (IH _ _ _ _ Hl).
Qed.

Lemma abnegamax_fuel_no_cut (player : Z) (score_func : AI.heuristic) :
  forall fuel b depth alpha beta r,
    AI.abnegamax_cut_fuel fuel b depth player alpha beta score_func
    = Ok (r, false) ->
    AI.negamax_fuel fuel b depth player score_func = Ok r.
Proof.
  induction fuel as [|fuel IH]; intros b depth alpha beta r H; simpl in *;
    [discriminate|].
  destruct (Board.is_game_over b) as [w| |]; simpl in *; try discriminate.
  destruct (truthy w || (depth =? 0)).
  - destruct (score_func b w player); simpl in *; try discriminate.
    injection H as <-. reflexivity.
  - destruct (Board.get_legal_moves b None) as [moves| |]; simpl in *;
      try discriminate.
    eapply abnegamax_loop_no_cut; [|exact H].
    intros nb a' b' r' Hr. eapply IH. exact Hr.
Qed.

(** C2. When the test [alpha >= beta] succeeds at no node of the tree
    that [abnegamax] searches from the widest window, [abnegamax] and
    [negamax] return the same score and the same move. *)
Theorem abnegamax_no_cutoff_is_negamax (b : Board.t) (depth player : Z)
        (score_func : AI.heuristic) (r : AI.result) :
  AI.abnegamax_cut b depth player NegInf PosInf score_func = Ok (r, false) ->
  AI.abnegamax b depth player NegInf PosInf score_func = Ok r /\
  AI.negamax b depth player score_func = Ok r.
Proof.
  unfold AI.abnegamax_cut, AI.abnegamax, AI.negamax. intros H. split.
  - rewrite abnegamax_cut_fuel_fst, H. reflexivity.
  - eapply abnegamax_fuel_no_cut. exact H.
Qed.

(** On the corridor, at depth 3, no cutoff occurs. *)
Lemma abnegamax_no_cutoff_is_negamax_witness :
  AI.abnegamax corridor 3 1 NegInf PosInf AI.score_func2
  = Ok (Fin 10000, Some (2, 0)) /\
  AI.negamax corridor 3 1 AI.score_func2 = Ok (Fin 10000, Some (2, 0)).
Proof.
  apply (abnegamax_no_cutoff_is_negamax corridor 3 1 AI.score_func2).
  vm_compute. reflexivity.
Defined.

(** ** The retries of [power_abnegamax] *)

Lemma gt_not_le (a b : num) : gt a b = negb (le a b).
Proof.
  destruct a as [|x|], b as [|y|]; simpl; try reflexivity.
  destruct (Z.ltb_spec y x), (Z.leb_spec x y); simpl; try reflexivity; lia.
Qed.

Lemma range_down_succ (n : nat) :
  range_down (Z.of_nat (S n)) = Z.of_nat (S n) :: range_down (Z.of_nat n).
Proof.
  unfold range_down. rewrite !Nat2Z.id.
  change (seq 0 (S n)) with (0%nat :: seq 1 n).
  rewrite <- seq_shift, map_cons, map_map.
  change (Z.of_nat 0) with 0. rewrite Z.sub_0_r. apply f_equal.
  apply map_ext. intros k. lia.
Qed.

Lemma range_down_nonpositive (n : Z) : n <= 0 -> range_down n = [].
Proof.
  intros H. unfold range_down. replace (Z.to_nat n) with O by lia.
  reflexivity.
Qed.

(** The loop stops at the first depth, from the top, whose score is
    greater than [- MAX_SCORE]. *)
Lemma power_loop_first (run : Z -> res AI.result) (i : Z) (r : AI.result) :
  run i = Ok r ->
  gt (fst r) (Fin (- AI.MAX_SCORE)) = true ->
  forall (n : nat) (best : AI.result),
    1 <= i <= Z.of_nat n ->
    (forall j, i < j <= Z.of_nat n ->
               exists rj, run j = Ok rj /\
                          gt (fst rj) (Fin (- AI.MAX_SCORE)) = false) ->
    AI.power_loop run (range_down (Z.of_nat n)) best = Ok r.
Proof.
  intros Hi Hgt. induction n as [|n IH]; intros best Hin Hlosing; [lia|].
  rewrite range_down_succ. cbn [AI.power_loop].
  destruct (Z.eq_dec i (Z.of_nat (S n))) as [<- | Hne].
  - rewrite Hi. simpl. rewrite Hgt. reflexivity.
  - destruct (Hlosing (Z.of_nat (S n))) as (rj & Hrj & Hgj); [lia|].
    rewrite Hrj. simpl. rewrite Hgj. apply IH; [lia|].
    intros j Hj. apply Hlosing. lia.
Qed.

(** When no depth does, the loop ends on the result of depth 1. *)
Lemma power_loop_exhausted (run : Z -> res AI.result) :
  forall (n : nat) (best : AI.result),
    (forall j, 1 <= j <= Z.of_nat n ->
               exists rj, run j = Ok rj /\
                          gt (fst rj) (Fin (- AI.MAX_SCORE)) = false) ->
    AI.power_loop run (range_down (Z.of_nat n)) best
    = if 1 <=? Z.of_nat n then run 1 else Ok best.
Proof.
  induction n as [|n IH]; intros best Hlosing; [reflexivity|].
  rewrite range_down_succ. cbn [AI.power_loop].
  destruct (Hlosing (Z.of_nat (S n))) as (rj & Hrj & Hgj); [lia|].
  rewrite Hrj. simpl Py.bind. rewrite Hgj.
  rewrite IH by (intros j Hj; apply Hlosing; lia).
  destruct (Z.leb_spec 1 (Z.of_nat (S n))); [|lia].
  destruct (Z.leb_spec 1 (Z.of_nat n)); [reflexivity|].
  replace (Z.of_nat (S n)) with 1 in Hrj by lia. congruence.
Qed.

(** The claim C1 as stated fails.  With the heuristic [crowding] on an
    empty 2 x 2 board, depth 2 scores -20000 and the only retry, depth 1,
    scores -10000, which is not greater than [- MAX_SCORE]: the call
    returns the result of depth 1, not the result of depth 2. *)
Lemma power_abnegamax_counterexample :
  exists r2 r1 : AI.result,
    AI.abnegamax (Board.init 2 2) 2 1 NegInf PosInf crowding = Ok r2 /\
    le (fst r2) (Fin (- AI.MAX_SCORE)) = true /\
    AI.abnegamax (Board.init 2 2) 1 1 NegInf PosInf crowding = Ok r1 /\
    gt (fst r1) (Fin (- AI.MAX_SCORE)) = false /\
    AI.power_abnegamax (Board.init 2 2) 2 1 NegInf PosInf crowding = Ok r1 /\
    AI.power_abnegamax (Board.init 2 2) 2 1 NegInf PosInf crowding <> Ok r2.
Proof.
  exists (Fin (-20000), Some (0, 0)), (Fin (-10000), Some (0, 0)).
  repeat split; try (vm_compute; reflexivity).
  vm_compute. discriminate.
Qed.

(** C1, amended.  [power_abnegamax] first runs [abnegamax] at the
    requested depth.  A score greater than [- MAX_SCORE] is returned at
    once.  Otherwise [abnegamax] is run again at [depth - 1], [depth - 2],
    ..., 1, and the first result whose score is greater than
    [- MAX_SCORE] is returned; when no retry has such a score, the result
    of the last retry, depth 1, is returned, and the result of the
    requested depth only when there was no retry ([depth <= 1]). *)
Theorem power_abnegamax_retries (b : Board.t) (depth player : Z)
        (alpha beta : num) (score_func : AI.heuristic) (r0 : AI.result) :
  let run := fun d => AI.abnegamax b d player alpha beta score_func in
  let losing := fun r : AI.result =>
                  gt (fst r) (Fin (- AI.MAX_SCORE)) = false in
  run depth = Ok r0 ->
  (~ losing r0 ->
   AI.power_abnegamax b depth player alpha beta score_func = Ok r0) /\
  (losing r0 ->
   (forall i r,
       1 <= i < depth -> run i = Ok r -> ~ losing r ->
       (forall j, i < j < depth -> exists rj, run j = Ok rj /\ losing rj) ->
       AI.power_abnegamax b depth player alpha beta score_func = Ok r) /\
   ((forall j, 1 <= j < depth -> exists rj, run j = Ok rj /\ losing rj) ->
    AI.power_abnegamax b depth player alpha beta score_func
    = if 1 <? depth then run 1 else Ok r0)).
Proof.
  intros run losing H0. unfold AI.power_abnegamax.
  fold (run depth). rewrite H0. cbn [Py.bind].
  pose proof (gt_not_le (fst r0) (Fin (- AI.MAX_SCORE))) as Hneg.
  split.
  - intros Hwin. unfold losing in Hwin.
    destruct (le _ _); [|reflexivity]. simpl in Hneg. contradiction.
  - intros Hlose. unfold losing in Hlose. rewrite Hlose in Hneg.
    destruct (le _ _); [|discriminate]. clear Hneg.
    destruct (Z.le_gt_cases depth 1) as [Hd | Hd].
    + rewrite range_down_nonpositive by lia. split.
      * intros i r Hi. lia.
      * intros _. destruct (Z.ltb_spec 1 depth); [lia|]. reflexivity.
    + replace (depth - 1) with (Z.of_nat (Z.to_nat (depth - 1))) by lia.
      split.
      * intros i r Hi Hr Hwin Hothers.
        apply (power_loop_first run i r Hr).
        -- unfold losing in Hwin.
           destruct (gt (fst r) _); [reflexivity|]. exfalso. apply Hwin.
           reflexivity.
        -- lia.
        -- intros j Hj. apply Hothers. lia.
      * intros Hall.
        rewrite (power_loop_exhausted run)
          by (intros j Hj; apply Hall; lia).
        destruct (Z.leb_spec 1 (Z.of_nat (Z.to_nat (depth - 1)))); [|lia].
        destruct (Z.ltb_spec 1 depth); [reflexivity|lia].
Qed.

(** On an empty 2 x 2 board player 1 loses at depths 5 and 4 and sees
    no loss at depth 3, with the mobility heuristic: depth 3 answers.
    With [crowding], asked for depth 2, the retry of depth 1 answers. *)
Lemma power_abnegamax_retries_witness :
  AI.power_abnegamax (Board.init 2 2) 5 1 NegInf PosInf AI.score_func2
  = Ok (Fin 0, Some (0, 0)) /\
  AI.power_abnegamax (Board.init 2 2) 2 1 NegInf PosInf crowding
  = AI.abnegamax (Board.init 2 2) 1 1 NegInf PosInf crowding.
Proof.
  split.
  - destruct (power_abnegamax_retries (Board.init 2 2) 5 1 NegInf PosInf
                AI.score_func2 (Fin (-10000), Some (0, 0)))
      as [_ H]; [vm_compute; reflexivity|].
    destruct H as [H _]; [vm_compute; reflexivity|].
    apply (H 3); [lia | vm_compute; reflexivity | vm_compute; discriminate|].
    intros j Hj. assert (j = 4) as -> by lia.
    exists (Fin (-10000), Some (0, 0)). split; vm_compute; reflexivity.
  - destruct (power_abnegamax_retries (Board.init 2 2) 2 1 NegInf PosInf
                crowding (Fin (-20000), Some (0, 0)))
      as [_ H]; [vm_compute; reflexivity|].
    destruct H as [_ H]; [vm_compute; reflexivity|].
    apply H. intros j Hj. assert (j = 1) as -> by lia.
    exists (Fin (-10000), Some (0, 0)). split; vm_compute; reflexivity.
Defined.

(** ** Move generation is total, and bounded by the grid *)

Lemma box_blocked_in_grid (b : Board.t) (x y : Z) :
  grid_ok b -> in_grid b x y -> exists r, Board.box_blocked b x y = Ok r.
Proof.
  intros Hg [Hx Hy]. unfold Board.box_blocked.
  destruct (getitem_inside (Board.board b) (Board.offset b x y)) as [c Hc].
  { rewrite Hg. unfold Board.offset. nia. }
  rewrite Hc. simpl. eauto.
Qed.

Ltac each_direction H :=
  unfold Board.dirs_deltas in H;
  repeat (apply elem_of_cons in H as [H | H];
          [injection H as -> -> |]);
  [ .. | apply elem_of_nil in H; destruct H].

Lemma room_step (b : Board.t) (dx dy x y : Z) :
  (dx, dy) ∈ Board.dirs_deltas ->
  in_grid b (x + dx) (y + dy) ->
  0 <= room b dx dy (x + dx) (y + dy) /\
  room b dx dy (x + dx) (y + dy) = room b dx dy x y - 1.
Proof.
  intros Hd [Hx Hy]. each_direction Hd; unfold room, room1; simpl; lia.
Qed.

Lemma room_le (b : Board.t) (dx dy x y : Z) :
  (dx, dy) ∈ Board.dirs_deltas ->
  in_grid b x y ->
  room b dx dy x y < Z.max (Board.columns b) (Board.rows b).
Proof.
  intros Hd [Hx Hy]. each_direction Hd; unfold room, room1; simpl; lia.
Qed.

Lemma ray_condition (b : Board.t) (x y : Z) :
  (0 <=? x) && (x <? Board.columns b) && ((0 <=? y) && (y <? Board.rows b))
  = true <-> in_grid b x y.
Proof.
  unfold in_grid.
  rewrite !andb_true_iff, !Z.leb_le, !Z.ltb_lt. tauto.
Qed.

(** A ray with enough budget returns, having added no more cells than
    the room it had. *)
Lemma ray_returns (b : Board.t) (dx dy : Z) :
  grid_ok b ->
  (dx, dy) ∈ Board.dirs_deltas ->
  forall (fuel : nat) (x y : Z) (moves : list (Z * Z)),
    (1 <= fuel)%nat ->
    (in_grid b (x + dx) (y + dy) -> room b dx dy x y < Z.of_nat fuel) ->
    exists moves',
      Board.ray fuel b dx dy x y moves = Ok moves' /\
      Z.of_nat (length moves')
      <= Z.of_nat (length moves) + Z.max 0 (room b dx dy x y).
Proof.
  intros Hg Hd. induction fuel as [|fuel IH]; intros x y moves Hf Hroom;
    [lia|].
  cbn [Board.ray].
  destruct (_ && _) eqn:Hc.
  - apply ray_condition in Hc.
    destruct (room_step b dx dy x y Hd Hc) as [Hpos Hstep].
    specialize (Hroom Hc).
    destruct (box_blocked_in_grid b _ _ Hg Hc) as [blocked ->]. simpl.
    destruct blocked.
    + exists moves. split; [reflexivity | lia].
    + destruct (IH (x + dx) (y + dy) (moves ++ [(x + dx, y + dy)]))
        as (moves' & Hray & Hlen); [lia | intros _; lia |].
      exists moves'. split; [exact Hray|].
      rewrite length_app in Hlen. simpl in Hlen. lia.
  - exists moves. split; [reflexivity | lia].
Qed.

Lemma ray_fuel_enough (b : Board.t) (dx dy x y : Z) :
  (dx, dy) ∈ Board.dirs_deltas ->
  in_grid b (x + dx) (y + dy) ->
  room b dx dy x y < Z.of_nat (Board.ray_fuel b).
Proof.
  intros Hd Hc.
  destruct (room_step b dx dy x y Hd Hc) as [_ Hstep].
  pose proof (room_le b dx dy _ _ Hd Hc).
  unfold Board.ray_fuel. lia.
Qed.

Lemma rays_returns (b : Board.t) (loc : Z * Z) :
  grid_ok b ->
  forall (dirs : list (Z * Z)) (moves : list (Z * Z)),
    (forall d, d ∈ dirs -> d ∈ Board.dirs_deltas) ->
    exists moves',
      Board.rays b loc dirs moves = Ok moves' /\
      Z.of_nat (length moves')
      <= Z.of_nat (length moves) + rooms b loc dirs.
Proof.
  intros Hg. induction dirs as [|[dx dy] dirs IH]; intros moves Hsub.
  - exists moves. split; [reflexivity | simpl; lia].
  - cbn [Board.rays rooms fst snd].
    assert (Hd : (dx, dy) ∈ Board.dirs_deltas)
      by (apply Hsub, elem_of_cons; left; reflexivity).
    destruct (ray_returns b dx dy Hg Hd (Board.ray_fuel b) (fst loc)
                          (snd loc) moves)
      as (moves1 & Hray & Hlen1).
    { unfold Board.ray_fuel. lia. }
    { apply ray_fuel_enough. exact Hd. }
    rewrite Hray. cbn [Py.bind].
    destruct (IH moves1) as (moves' & Hrays & Hlen).
    { intros d Hin. apply Hsub, elem_of_cons. right. exact Hin. }
    exists moves'. split; [exact Hrays | lia].
Qed.

Lemma min_le_mul (a c : Z) : 0 <= a -> 0 <= c -> Z.min a c <= a * c.
Proof. intros Ha Hc. destruct (Z.min_spec a c) as [[? ->] | [? ->]]; nia. Qed.

(** From a cell of the grid the eight rays reach fewer cells than the
    grid has. *)
Lemma rooms_lt_area (b : Board.t) (x y : Z) :
  in_grid b x y ->
  rooms b (x, y) Board.dirs_deltas < Board.rows b * Board.columns b.
Proof.
  intros [Hx Hy]. unfold Board.dirs_deltas, rooms, room, room1. simpl.
  remember (Board.columns b - 1 - x) as x' eqn:Ex.
  remember (Board.rows b - 1 - y) as y' eqn:Ey.
  assert (Hx' : 0 <= x') by lia. assert (Hy' : 0 <= y') by lia.
  replace (Board.rows b * Board.columns b)
    with (x * y + x' * y + x' * y' + x * y' + x + x' + y + y' + 1)
    by (subst x' y'; ring).
  pose proof (min_le_mul x y ltac:(lia) ltac:(lia)).
  pose proof (min_le_mul x' y ltac:(lia) ltac:(lia)).
  pose proof (min_le_mul x' y' ltac:(lia) ltac:(lia)).
  pose proof (min_le_mul x y' ltac:(lia) ltac:(lia)).
  assert (0 <= Z.min x y) by (apply Z.min_glb; lia).
  assert (0 <= Z.min x' y) by (apply Z.min_glb; lia).
  assert (0 <= Z.min x' y') by (apply Z.min_glb; lia).
  assert (0 <= Z.min x y') by (apply Z.min_glb; lia).
  rewrite !Z.max_r by assumption.
  generalize dependent (Z.min x y). generalize dependent (Z.min x' y).
  generalize dependent (Z.min x' y'). generalize dependent (Z.min x y').
  generalize dependent (x * y). generalize dependent (x' * y).
  generalize dependent (x' * y'). generalize dependent (x * y').
  intros. lia.
Qed.

Lemma range_bounds (n x : Z) : x ∈ Board.range n -> 0 <= x < n.
Proof.
  unfold Board.range. rewrite list_elem_of_In, in_map_iff.
  intros (k & <- & Hk). apply in_seq in Hk. lia.
Qed.

Lemma free_row_returns (b : Board.t) (y : Z) :
  grid_ok b -> 0 <= y < Board.rows b ->
  forall (xs : list Z) (moves : list (Z * Z)),
    (forall x, x ∈ xs -> 0 <= x < Board.columns b) ->
    exists moves', Board.free_row b y xs moves = Ok moves'.
Proof.
  intros Hg Hy. induction xs as [|x xs IH]; intros moves Hxs; simpl.
  - eauto.
  - destruct (box_blocked_in_grid b x y Hg) as [blocked ->].
    { split; [apply Hxs, elem_of_cons; left; reflexivity | exact Hy]. }
    simpl. apply IH. intros x' Hx'. apply Hxs, elem_of_cons. right.
    exact Hx'.
Qed.

Lemma free_rows_returns (b : Board.t) :
  grid_ok b ->
  forall (ys : list Z) (moves : list (Z * Z)),
    (forall y, y ∈ ys -> 0 <= y < Board.rows b) ->
    exists moves', Board.free_rows b ys moves = Ok moves'.
Proof.
  intros Hg. induction ys as [|y ys IH]; intros moves Hys; simpl.
  - eauto.
  - destruct (free_row_returns b y Hg) with (xs := Board.range (Board.columns b))
                                            (moves := moves)
      as [moves1 ->].
    { apply Hys, elem_of_cons. left. reflexivity. }
    { intros x. apply range_bounds. }
    simpl. apply IH. intros y' Hy'. apply Hys, elem_of_cons. right.
    exact Hy'.
Qed.

(** On a board whose cell list matches its grid, the legal moves of a
    player of the dictionary are computed without fault, within the
    budget of the rays. *)
Lemma get_legal_moves_returns (b : Board.t) (p : Z) :
  grid_ok b ->
  is_Some (Board.players_position b !! p) ->
  exists moves, Board.get_legal_moves b (Some p) = Ok moves.
Proof.
  intros Hg [loc Hloc]. unfold Board.get_legal_moves, Py.dict_get.
  rewrite Hloc. simpl. destruct loc as [xy|].
  - destruct (rays_returns b xy Hg Board.dirs_deltas []) as (moves & H & _);
      eauto.
  - apply free_rows_returns; [exact Hg|]. intros y. apply range_bounds.
Qed.

(** A player standing on a cell of the grid has fewer legal moves than
    the grid has cells. *)
Lemma get_legal_moves_lt_area (b : Board.t) (p x y : Z) :
  grid_ok b ->
  Board.players_position b !! p = Some (Some (x, y)) ->
  in_grid b x y ->
  exists moves,
    Board.get_legal_moves b (Some p) = Ok moves /\
    Z.of_nat (length moves) < Board.rows b * Board.columns b.
Proof.
  intros Hg Hloc Hin. unfold Board.get_legal_moves, Py.dict_get.
  rewrite Hloc. simpl.
  destruct (rays_returns b (x, y) Hg Board.dirs_deltas [])
    as (moves & H & Hlen); [auto|].
  exists moves. split; [exact H|].
  pose proof (rooms_lt_area b x y Hin). cbn [length] in Hlen. lia.
Qed.

(** ** Floating point: how far rounding can go *)

Lemma digits2_pos_bounds (p : positive) :
  2 ^ (Z.pos (digits2_pos p) - 1) <= Z.pos p < 2 ^ Z.pos (digits2_pos p).
Proof.
  induction p as [p IH | p IH |]; cbn [digits2_pos].
  - rewrite Pos2Z.inj_succ. change (Z.pos p~1) with (2 * Z.pos p + 1).
    replace (Z.succ (Z.pos (digits2_pos p)) - 1)
      with (Z.succ (Z.pos (digits2_pos p) - 1)) by lia.
    rewrite !Z.pow_succ_r by lia.
    revert IH. generalize (2 ^ (Z.pos (digits2_pos p) - 1)).
    generalize (2 ^ Z.pos (digits2_pos p)). intros. lia.
  - rewrite Pos2Z.inj_succ. change (Z.pos p~0) with (2 * Z.pos p).
    replace (Z.succ (Z.pos (digits2_pos p)) - 1)
      with (Z.succ (Z.pos (digits2_pos p) - 1)) by lia.
    rewrite !Z.pow_succ_r by lia.
    revert IH. generalize (2 ^ (Z.pos (digits2_pos p) - 1)).
    generalize (2 ^ Z.pos (digits2_pos p)). intros. lia.
  - simpl. lia.
Qed.

Lemma Zdigits2_bounds (m : Z) :
  0 < m -> 2 ^ (Zdigits2 m - 1) <= m < 2 ^ Zdigits2 m.
Proof.
  destruct m as [|p|p]; try lia. intros _. apply digits2_pos_bounds.
Qed.

(** The number of binary digits, from bounds. *)
Lemma Zdigits2_unique (m d : Z) :
  0 < d -> 2 ^ (d - 1) <= m < 2 ^ d -> Zdigits2 m = d.
Proof.
  intros Hd Hm.
  assert (0 < m) by (pose proof (Z.pow_pos_nonneg 2 (d - 1)); lia).
  pose proof (Zdigits2_bounds m H) as Hb.
  assert (0 < Zdigits2 m) by (destruct m; simpl; lia).
  destruct (Z.lt_trichotomy (Zdigits2 m) d) as [Hlt | [Heq | Hgt]];
    [exfalso | exact Heq | exfalso].
  - assert (2 ^ Zdigits2 m <= 2 ^ (d - 1))
      by (apply Z.pow_le_mono_r; lia). lia.
  - assert (2 ^ d <= 2 ^ (Zdigits2 m - 1))
      by (apply Z.pow_le_mono_r; lia). lia.
Qed.

Lemma shr_1_m (mrs : shr_record) :
  0 <= shr_m mrs -> shr_m (shr_1 mrs) = shr_m mrs / 2.
Proof.
  destruct mrs as [m r s]. simpl. intros Hm.
  destruct m as [|[p|p|]|]; simpl; try reflexivity; try lia.
  - change (Z.pos p~1) with (2 * Z.pos p + 1).
    apply (Z.div_unique _ _ _ 1); lia.
  - change (Z.pos p~0) with (2 * Z.pos p).
    apply (Z.div_unique _ _ _ 0); lia.
Qed.

Lemma pow2_xO (n : positive) :
  2 ^ Z.pos n~0 = 2 ^ Z.pos n * 2 ^ Z.pos n.
Proof.
  change (Z.pos n~0) with (2 * Z.pos n).
  replace (2 * Z.pos n) with (Z.pos n + Z.pos n) by lia.
  apply Z.pow_add_r; lia.
Qed.

Lemma pow2_xI (n : positive) :
  2 ^ Z.pos n~1 = 2 * (2 ^ Z.pos n * 2 ^ Z.pos n).
Proof.
  change (Z.pos n~1) with (2 * Z.pos n + 1).
  replace (2 * Z.pos n + 1) with (Z.succ (Z.pos n + Z.pos n)) by lia.
  rewrite Z.pow_succ_r, Z.pow_add_r by lia. reflexivity.
Qed.

Lemma pow2_pos (k : Z) : 0 <= k -> 0 < 2 ^ k.
Proof. intros. apply Z.pow_pos_nonneg; lia. Qed.

Lemma iter_pos_shr_1_m (n : positive) :
  forall mrs : shr_record,
    0 <= shr_m mrs ->
    0 <= shr_m (SpecFloat.iter_pos shr_1 n mrs) /\
    shr_m (SpecFloat.iter_pos shr_1 n mrs) = shr_m mrs / 2 ^ Z.pos n.
Proof.
  induction n as [n IH | n IH |]; intros mrs Hm; cbn [SpecFloat.iter_pos].
  - assert (H1 : 0 <= shr_m (shr_1 mrs)).
    { rewrite shr_1_m by exact Hm. apply Z.div_pos; lia. }
    destruct (IH _ H1) as [H2 E2]. destruct (IH _ H2) as [H3 E3].
    split; [exact H3|].
    rewrite E3, E2, shr_1_m by exact Hm.
    pose proof (pow2_pos (Z.pos n) ltac:(lia)).
    rewrite !Z.div_div by lia. rewrite pow2_xI. f_equal; lia.
  - destruct (IH _ Hm) as [H2 E2]. destruct (IH _ H2) as [H3 E3].
    split; [exact H3|].
    rewrite E3, E2.
    pose proof (pow2_pos (Z.pos n) ltac:(lia)).
    rewrite !Z.div_div by lia. rewrite pow2_xO. reflexivity.
  - rewrite shr_1_m by exact Hm. split; [apply Z.div_pos; lia|].
    reflexivity.
Qed.

Lemma shr_spec (mrs : shr_record) (e n : Z) :
  0 <= shr_m mrs -> 0 <= n ->
  exists mrs',
    shr mrs e n = (mrs', e + n) /\ shr_m mrs' = shr_m mrs / 2 ^ n.
Proof.
  intros Hm Hn. destruct n as [|p|p]; try lia.
  - exists mrs. simpl. rewrite Z.add_0_r, Z.div_1_r. auto.
  - eexists. split; [reflexivity|]. apply iter_pos_shr_1_m. exact Hm.
Qed.

Lemma shr_record_of_loc_m (m : Z) (l : location) :
  shr_m (shr_record_of_loc m l) = m.
Proof. destruct l as [|[]]; reflexivity. Qed.

Lemma round_nearest_even_bounds (m : Z) (l : location) :
  m <= round_nearest_even m l <= m + 1.
Proof.
  unfold round_nearest_even. destruct l as [|[]]; try lia.
  destruct (Z.even m); lia.
Qed.

Lemma fexp_binary64 (e : Z) :
  fexp Float.prec Float.emax e = Z.max (e - 53) (-1074).
Proof. reflexivity. Qed.

Lemma pow2_split (a c : Z) : 0 <= a -> 0 <= c -> 2 ^ (a + c) = 2 ^ a * 2 ^ c.
Proof. intros. apply Z.pow_add_r; assumption. Qed.

(** Upper bound of a rounding to nearest: on a mantissa [mx] of at least
    53 digits, in the range of the normal numbers, the rounded float is
    finite and exceeds [mx * 2 ^ ex] by no more than one unit of the
    digit that rounding keeps last. *)
Lemma binary_round_aux_upper (mx ex : Z) (lx : location) :
  0 < mx ->
  53 <= Zdigits2 mx ->
  -1074 <= ex + Zdigits2 mx - 53 ->
  ex + Zdigits2 mx - 52 <= 971 ->
  exists (m : positive) (e : Z),
    binary_round_aux Float.prec Float.emax false mx ex lx
    = S754_finite false m e /\
    ex <= e <= ex + Zdigits2 mx - 52 /\
    2 ^ 52 <= Z.pos m < 2 ^ 53 /\
    Z.pos m * 2 ^ (e - ex) <= mx + 2 ^ (Zdigits2 mx - 53).
Proof.
  intros Hmx Hd Hlo Hhi.
  pose proof (Zdigits2_bounds mx Hmx) as Hb.
  set (D := Zdigits2 mx) in *. set (n := D - 53).
  assert (Hn : 0 <= n) by (unfold n; lia).
  pose proof (pow2_pos n Hn) as Hpn.
  unfold binary_round_aux, shr_fexp. rewrite fexp_binary64. fold D.
  replace (Z.max (D + ex - 53) (-1074) - ex) with n by (unfold n; lia).
  destruct (shr_spec (shr_record_of_loc mx lx) ex n) as (mrs1 & E1 & Hm1);
    [rewrite shr_record_of_loc_m; lia | exact Hn |].
  rewrite E1. rewrite shr_record_of_loc_m in Hm1.
  set (t := shr_m mrs1) in *.
  assert (Ht : 2 ^ 52 <= t < 2 ^ 53).
  { rewrite Hm1. split.
    - apply Z.div_le_lower_bound; [exact Hpn|].
      rewrite Z.mul_comm, <- pow2_split by lia.
      replace (52 + n) with (D - 1) by (unfold n; lia). apply Hb.
    - apply Z.div_lt_upper_bound; [exact Hpn|].
      rewrite <- pow2_split by lia.
      replace (n + 53) with D by (unfold n; lia). apply Hb. }
  pose proof (round_nearest_even_bounds t (loc_of_shr_record mrs1)) as Hr.
  set (r := round_nearest_even t (loc_of_shr_record mrs1)) in *.
  assert (Hrpos : 0 < r) by lia.
  pose proof (Zdigits2_bounds r Hrpos) as Hrb.
  set (Dr := Zdigits2 r) in *.
  assert (HDr : 53 <= Dr <= 54).
  { split.
    - destruct (Z.le_gt_cases 53 Dr) as [H | H]; [exact H | exfalso].
      assert (2 ^ Dr <= 2 ^ 52)
        by (destruct (Z.le_gt_cases 0 Dr);
            [apply Z.pow_le_mono_r; lia
            | rewrite Z.pow_neg_r by lia; lia]).
      lia.
    - destruct (Z.le_gt_cases Dr 54) as [H | H]; [exact H | exfalso].
      assert (2 ^ 54 <= 2 ^ (Dr - 1)) by (apply Z.pow_le_mono_r; lia).
      lia. }
  set (n2 := Dr - 53).
  assert (Hn2 : 0 <= n2 <= 1) by (unfold n2; lia).
  pose proof (pow2_pos n2 ltac:(lia)) as Hpn2.
  rewrite fexp_binary64.
  replace (Z.max (Dr + (ex + n) - 53) (-1074) - (ex + n)) with n2
    by (unfold n2, n; lia).
  destruct (shr_spec (shr_record_of_loc r loc_Exact) (ex + n) n2)
    as (mrs2 & E2 & Hm2); [simpl; lia | lia |].
  rewrite E2. simpl shr_m in Hm2.
  assert (Hq : 2 ^ 52 <= shr_m mrs2).
  { rewrite Hm2. apply Z.div_le_lower_bound; [exact Hpn2|].
    rewrite Z.mul_comm, <- pow2_split by lia.
    replace (52 + n2) with (Dr - 1) by (unfold n2; lia). apply Hrb. }
  assert (Hq' : shr_m mrs2 < 2 ^ 53).
  { rewrite Hm2. apply Z.div_lt_upper_bound; [exact Hpn2|].
    rewrite <- pow2_split by lia.
    replace (n2 + 53) with Dr by (unfold n2; lia). apply Hrb. }
  destruct (shr_m mrs2) as [|m|m] eqn:Em; [lia | | lia].
  assert (Hle : (ex + n + n2 <=? Float.emax - Float.prec) = true).
  { apply Z.leb_le. unfold Float.emax, Float.prec, n, n2. lia. }
  rewrite Hle.
  exists m, (ex + n + n2). split; [reflexivity|]. split.
  { unfold n, n2. lia. }
  split; [lia|].
  replace (ex + n + n2 - ex) with (n2 + n) by lia.
  rewrite pow2_split by lia.
  pose proof (Z.mul_div_le r (2 ^ n2) Hpn2) as H1.
  pose proof (Z.mul_div_le mx (2 ^ n) Hpn) as H2.
  rewrite <- Hm2 in H1. rewrite <- Hm1 in H2. fold n.
  nia.
Qed.

Lemma pos_iter_xO (p k : positive) :
  Z.pos (Pos.iter xO p k) = Z.pos p * 2 ^ Z.pos k.
Proof.
  induction k as [|k IH] using Pos.peano_ind.
  - simpl. lia.
  - rewrite Pos.iter_succ, Pos2Z.inj_succ, Z.pow_succ_r by lia.
    change (Z.pos (Pos.iter xO p k)~0) with (2 * Z.pos (Pos.iter xO p k)).
    rewrite IH. ring.
Qed.

Lemma shl_align_spec (mx : positive) (ex ex' : Z) :
  ex' <= ex ->
  exists mz,
    shl_align mx ex ex' = (mz, ex') /\
    Z.pos mz = Z.pos mx * 2 ^ (ex - ex').
Proof.
  intros H. unfold shl_align.
  destruct (ex' - ex) as [|k|k] eqn:E; try lia.
  - exists mx. replace ex' with ex by lia. rewrite Z.sub_diag.
    split; [reflexivity | simpl; lia].
  - eexists. split; [reflexivity|].
    rewrite pos_iter_xO. replace (ex - ex') with (Z.pos k) by lia.
    reflexivity.
Qed.

(** A mantissa of 53 digits with no lost digit is its own rounding. *)
Lemma binary_round_aux_exact (m : positive) (e : Z) :
  Zdigits2 (Z.pos m) = 53 ->
  -1074 <= e <= 971 ->
  binary_round_aux Float.prec Float.emax false (Z.pos m) e loc_Exact
  = S754_finite false m e.
Proof.
  intros Hd He. unfold binary_round_aux, shr_fexp.
  rewrite fexp_binary64, Hd.
  replace (Z.max (53 + e - 53) (-1074) - e) with 0 by lia.
  cbn [shr shr_record_of_loc loc_of_shr_record round_nearest_even shr_m].
  rewrite fexp_binary64, Hd.
  replace (Z.max (53 + e - 53) (-1074) - e) with 0 by lia.
  cbn [shr shr_record_of_loc shr_m].
  replace (e <=? Float.emax - Float.prec) with true; [reflexivity|].
  symmetry. apply Z.leb_le. unfold Float.emax, Float.prec. lia.
Qed.

(** Integers below [2 ^ 53] convert to floats without rounding. *)
Lemma of_int_exact (n : Z) :
  1 <= n < 2 ^ 53 ->
  exists (m : positive) (e : Z),
    Float.of_int n = Ok (S754_finite false m e) /\
    -52 <= e <= 0 /\
    Z.pos m = n * 2 ^ (- e) /\
    Zdigits2 (Z.pos m) = 53.
Proof.
  intros Hn. destruct n as [|p|p]; try lia.
  pose proof (digits2_pos_bounds p) as Hb.
  set (d := Z.pos (digits2_pos p)) in *.
  assert (Hd : 1 <= d <= 53).
  { split; [unfold d; lia|].
    destruct (Z.le_gt_cases d 53) as [H | H]; [exact H | exfalso].
    assert (2 ^ 53 <= 2 ^ (d - 1)) by (apply Z.pow_le_mono_r; lia). lia. }
  unfold Float.of_int, binary_normalize, binary_round.
  rewrite fexp_binary64. fold d.
  replace (Z.max (d + 0 - 53) (-1074)) with (d - 53) by lia.
  destruct (shl_align_spec p 0 (d - 53)) as (mz & -> & Hmz); [lia|].
  replace (0 - (d - 53)) with (53 - d) in Hmz by lia.
  assert (Hdig : Zdigits2 (Z.pos mz) = 53).
  { apply Zdigits2_unique; [lia|]. rewrite Hmz. split.
    - replace (53 - 1) with ((d - 1) + (53 - d)) by lia.
      rewrite pow2_split by lia.
      apply Z.mul_le_mono_nonneg_r; [apply Z.pow_nonneg; lia | apply Hb].
    - replace 53 with (d + (53 - d)) at 2 by lia.
      rewrite pow2_split by lia.
      apply Z.mul_lt_mono_pos_r; [apply pow2_pos; lia | apply Hb]. }
  rewrite binary_round_aux_exact by (try exact Hdig; lia).
  exists mz, (d - 53). split; [reflexivity|]. split; [lia|].
  split; [|exact Hdig].
  rewrite Hmz. f_equal. f_equal. lia.
Qed.

Lemma div_core_one (my : positive) (ey : Z) :
  Zdigits2 (Z.pos my) = 53 ->
  -52 <= ey <= 0 ->
  SFdiv_core_binary Float.prec Float.emax 4503599627370496 (-52)
                    (Z.pos my) ey
  = (2 ^ 105 / Z.pos my, -105 - ey,
     new_location (Z.pos my) (2 ^ 105 mod Z.pos my)).
Proof.
  intros Hdig Hey. unfold SFdiv_core_binary. rewrite Hdig.
  change (Zdigits2 4503599627370496) with 53.
  assert (He' : Z.min (fexp Float.prec Float.emax (53 + -52 - (53 + ey)))
                      (-52 - ey) = -105 - ey)
    by (rewrite fexp_binary64; lia).
  cbv zeta. rewrite He'.
  replace (-52 - ey - (-105 - ey)) with 53 by lia.
  cbv iota beta.
  change (Z.shiftl 4503599627370496 53) with (2 ^ 105).
  unfold Z.div, Z.modulo.
  destruct (Z.div_eucl (2 ^ 105) (Z.pos my)) as [q r]. reflexivity.
Qed.

(** [1.0 / d], for an integer [d >= 1], is a float no greater than
    [1 + 2 ^ -52]. *)
Lemma truediv_one_upper (d : Z) :
  1 <= d < 2 ^ 53 ->
  exists (m : positive) (e : Z),
    Float.truediv_int Float.one d = Ok (S754_finite false m e) /\
    -105 <= e <= -51 /\
    2 ^ 52 <= Z.pos m < 2 ^ 53 /\
    Z.pos m * 2 ^ (e + 105) <= 2 ^ 105 + 2 ^ 53.
Proof.
  intros Hd.
  destruct (of_int_exact d Hd) as (my & ey & Hof & Hey & Hmy & Hdig).
  unfold Float.truediv_int. rewrite Hof.
  cbn [Py.bind Float.is_zero]. unfold Float.one.
  cbn [SFdiv xorb]. rewrite div_core_one by assumption.
  pose proof (Zdigits2_bounds (Z.pos my) ltac:(lia)) as Hb.
  rewrite Hdig in Hb.
  set (q := 2 ^ 105 / Z.pos my).
  assert (Hq : 2 ^ 52 <= q <= 2 ^ 53).
  { unfold q. split.
    - apply Z.div_le_lower_bound; lia.
    - apply Z.div_le_upper_bound; lia. }
  assert (Hqm : q * Z.pos my <= 2 ^ 105).
  { unfold q. rewrite Z.mul_comm. apply Z.mul_div_le. lia. }
  pose proof (Zdigits2_bounds q ltac:(lia)) as Hqb.
  set (Dq := Zdigits2 q) in *.
  assert (HDq : 53 <= Dq <= 54).
  { split.
    - destruct (Z.le_gt_cases 53 Dq) as [H | H]; [exact H | exfalso].
      assert (2 ^ Dq <= 2 ^ 52)
        by (destruct (Z.le_gt_cases 0 Dq);
            [apply Z.pow_le_mono_r; lia
            | rewrite Z.pow_neg_r by lia; lia]).
      lia.
    - destruct (Z.le_gt_cases Dq 54) as [H | H]; [exact H | exfalso].
      assert (2 ^ 54 <= 2 ^ (Dq - 1)) by (apply Z.pow_le_mono_r; lia).
      lia. }
  destruct (binary_round_aux_upper q (-105 - ey)
              (new_location (Z.pos my) (2 ^ 105 mod Z.pos my)))
    as (m & e & Hr & He & Hm & Hup); fold Dq; try lia.
  fold Dq in He, Hup.
  exists m, e. split; [rewrite Hr; reflexivity|].
  split; [lia|]. split; [exact Hm|].
  set (k := e - (-105 - ey)) in *.
  assert (Hk : 0 <= k) by (unfold k; lia).
  replace (e + 105) with (k + (- ey)) by (unfold k; lia).
  rewrite pow2_split by lia.
  assert (H2 : 2 ^ (Dq - 53) <= 2).
  { change 2 with (2 ^ 1) at 2. apply Z.pow_le_mono_r; lia. }
  assert (H3 : 2 ^ (- ey) <= 2 ^ 52) by (apply Z.pow_le_mono_r; lia).
  pose proof (pow2_pos (- ey) ltac:(lia)) as H4.
  assert (H5 : q * 2 ^ (- ey) <= 2 ^ 105).
  { apply Z.le_trans with (q * Z.pos my); [|exact Hqm].
    apply Z.mul_le_mono_nonneg_l; [lia|]. rewrite Hmy. nia. }
  assert (H6 : Z.pos m * 2 ^ k * 2 ^ (- ey) <= (q + 2) * 2 ^ (- ey)).
  { apply Z.mul_le_mono_nonneg_r; lia. }
  rewrite Z.mul_assoc. nia.
Qed.

(** [int((1.0 / dist) * total)] raises nothing and lies between 0 and
    [total], for a distance of at least 1. *)
Lemma inv_scaled_bounds (d t : Z) :
  1 <= d < 2 ^ 53 ->
  0 <= t < 2 ^ 50 ->
  exists v, AI.inv_scaled d t = Ok v /\ 0 <= v <= t.
Proof.
  intros Hd Ht.
  destruct (truediv_one_upper d Hd) as (mx & ex & Hx & Hex & Hmx & Hup).
  unfold AI.inv_scaled. rewrite Hx. cbn [Py.bind]. unfold Float.mul_int.
  destruct (Z.eq_dec t 0) as [-> | Hne].
  { exists 0. split; [reflexivity | lia]. }
  destruct (of_int_exact t ltac:(lia)) as (mt & et & Hof & Het & Hmt & Hdt).
  rewrite Hof. cbn [Py.bind SFmul xorb].
  pose proof (Zdigits2_bounds (Z.pos mt) ltac:(lia)) as Hbt.
  rewrite Hdt in Hbt.
  set (P := Z.pos (mx * mt)).
  assert (HP : P = Z.pos mx * Z.pos mt) by (unfold P; lia).
  assert (HPb : 2 ^ 104 <= P < 2 ^ 106) by (rewrite HP; nia).
  pose proof (Zdigits2_bounds P ltac:(lia)) as HDb.
  set (D := Zdigits2 P) in *.
  assert (HD : 105 <= D <= 106).
  { split.
    - destruct (Z.le_gt_cases 105 D) as [H | H]; [exact H | exfalso].
      assert (2 ^ D <= 2 ^ 104)
        by (destruct (Z.le_gt_cases 0 D);
            [apply Z.pow_le_mono_r; lia
            | rewrite Z.pow_neg_r by lia; lia]).
      lia.
    - destruct (Z.le_gt_cases D 106) as [H | H]; [exact H | exfalso].
      assert (2 ^ 106 <= 2 ^ (D - 1)) by (apply Z.pow_le_mono_r; lia).
      lia. }
  destruct (binary_round_aux_upper P (ex + et) loc_Exact)
    as (m & e & Hr & He & Hm & Hround); fold D; try lia.
  fold D in He, Hround. rewrite Hr. cbn [Float.to_int].
  eexists. split; [reflexivity|].
  (* the float is below [t + 1] *)
  assert (Hkey : Z.pos m * 2 ^ (e + 157) < 2 ^ 157 * (t + 1)).
  { set (k := e - (ex + et)) in *.
    assert (Hk : 0 <= k) by (unfold k; lia).
    (* one unit of rounding is at most [P / 2 ^ 52] *)
    assert (Hu : 2 ^ 52 * 2 ^ (D - 53) <= P).
    { rewrite <- pow2_split by lia.
      replace (52 + (D - 53)) with (D - 1) by lia. apply HDb. }
    assert (H1 : 2 ^ 52 * (Z.pos m * 2 ^ k) <= (2 ^ 52 + 1) * P) by lia.
    (* scale by [2 ^ (ex + 105)], then by [2 ^ (et + 52)] *)
    pose proof (pow2_pos (ex + 105) ltac:(lia)) as Ha.
    pose proof (pow2_pos (et + 52) ltac:(lia)) as Hb.
    pose proof (pow2_pos (- et) ltac:(lia)) as Hc.
    assert (Hs : 2 ^ (- et) * 2 ^ (et + 52) = 2 ^ 52).
    { rewrite <- pow2_split by lia. f_equal. lia. }
    assert (He157 : 2 ^ k * 2 ^ (ex + 105) * 2 ^ (et + 52) = 2 ^ (e + 157)).
    { rewrite <- !pow2_split by lia. f_equal. unfold k. lia. }
    assert (H2 : 2 ^ 52 * (Z.pos m * 2 ^ k) * 2 ^ (ex + 105)
                 <= (2 ^ 52 + 1) * (2 ^ 105 + 2 ^ 53) * Z.pos mt).
    { apply Z.le_trans with ((2 ^ 52 + 1) * P * 2 ^ (ex + 105)).
      - apply Z.mul_le_mono_nonneg_r; lia.
      - rewrite HP.
        replace ((2 ^ 52 + 1) * (Z.pos mx * Z.pos mt) * 2 ^ (ex + 105))
          with ((2 ^ 52 + 1) * (Z.pos mx * 2 ^ (ex + 105)) * Z.pos mt)
          by ring.
        apply Z.mul_le_mono_nonneg_r; [lia|].
        apply Z.mul_le_mono_nonneg_l; lia. }
    assert (H3 : 2 ^ 52 * (Z.pos m * 2 ^ (e + 157))
                 <= (2 ^ 52 + 1) * (2 ^ 105 + 2 ^ 53) * t * 2 ^ 52).
    { pose proof (Z.mul_le_mono_nonneg_r _ _ (2 ^ (et + 52))
                    ltac:(lia) H2) as H3.
      rewrite Hmt in H3.
      replace (2 ^ 52 * (Z.pos m * 2 ^ k) * 2 ^ (ex + 105) * 2 ^ (et + 52))
        with (2 ^ 52 * (Z.pos m * (2 ^ k * 2 ^ (ex + 105) * 2 ^ (et + 52))))
        in H3 by ring.
      replace ((2 ^ 52 + 1) * (2 ^ 105 + 2 ^ 53) * (t * 2 ^ (- et))
               * 2 ^ (et + 52))
        with ((2 ^ 52 + 1) * (2 ^ 105 + 2 ^ 53) * t
              * (2 ^ (- et) * 2 ^ (et + 52))) in H3 by ring.
      rewrite He157, Hs in H3. exact H3. }
    lia. }
  split.
  - destruct (Z.leb_spec 0 e).
    + pose proof (pow2_pos e ltac:(lia)). lia.
    + apply Z.div_pos; [lia | apply pow2_pos; lia].
  - destruct (Z.leb_spec 0 e).
    + replace (e + 157) with (e + 157) in Hkey by lia.
      rewrite pow2_split in Hkey by lia. lia.
    + pose proof (pow2_pos (- e) ltac:(lia)) as Hne'.
      pose proof (pow2_pos (e + 157) ltac:(lia)) as Hp.
      assert (Hsplit : 2 ^ 157 = 2 ^ (e + 157) * 2 ^ (- e)).
      { rewrite <- pow2_split by lia. f_equal. lia. }
      assert (Z.pos m < 2 ^ (- e) * (t + 1)).
      { rewrite Hsplit in Hkey.
        apply (Z.mul_lt_mono_pos_r (2 ^ (e + 157))); [exact Hp|].
        lia. }
      assert (Z.pos m / 2 ^ (- e) < t + 1)
        by (apply Z.div_lt_upper_bound; lia).
      lia.
Qed.

(** ** Scores of boards in play *)

(** The claim C3 as stated fails: with both players on the board and
    no winner, the flee heuristic returns the distance between the
    players, which is [MAX_SCORE] on the long corridor. *)
Lemma nonterminal_score_counterexample :
  grid_ok long_corridor /\
  positioned long_corridor 1 0 0 /\
  positioned long_corridor 2 10000 0 /\
  AI.score_func3 long_corridor VFalse 1 = Ok 10000 /\
  ~ (Z.abs 10000 < AI.MAX_SCORE).
Proof.
  split; [vm_compute; reflexivity|].
  split; [split; [vm_compute; reflexivity | unfold in_grid; simpl; lia]|].
  split; [split; [vm_compute; reflexivity | unfold in_grid; simpl; lia]|].
  split; [vm_compute; reflexivity|].
  unfold AI.MAX_SCORE. lia.
Qed.

Lemma unpack_pos_positioned (b : Board.t) (p x y : Z) :
  positioned b p x y -> AI.unpack_pos b p = Ok (x, y).
Proof.
  intros [Hp _]. unfold AI.unpack_pos, Board.player_pos, Py.dict_get.
  rewrite Hp. rewrite bool_decide_eq_true_2 by eauto. reflexivity.
Qed.

Lemma area_positive (b : Board.t) (x y : Z) :
  in_grid b x y ->
  1 <= Board.columns b /\ 1 <= Board.rows b /\
  Board.columns b + Board.rows b - 1 <= Board.columns b * Board.rows b.
Proof. intros [Hx Hy]. nia. Qed.

Lemma inv_dist_to_centre_bounds (b : Board.t) (p x y : Z) :
  positioned b p x y ->
  Board.columns b * Board.rows b < 2 ^ 50 ->
  exists v,
    AI.inv_dist_to_centre b p = Ok v /\
    0 <= v <= Board.columns b * Board.rows b + 5.
Proof.
  intros Hp Harea. pose proof Hp as [_ Hin].
  destruct (area_positive b x y Hin) as (Hc & Hr & Hsum).
  destruct Hin as [Hx Hy].
  unfold AI.inv_dist_to_centre. rewrite (unpack_pos_positioned _ _ _ _ Hp).
  cbn [Py.bind fst snd].
  set (dist := AI.manhattan_distance x y (Board.columns b / 2)
                                     (Board.rows b / 2)).
  destruct (Z.leb_spec dist 0) as [Hd | Hd].
  - eexists. split; [reflexivity | lia].
  - assert (Hdist : dist <= Board.columns b + Board.rows b).
    { unfold dist, AI.manhattan_distance.
      pose proof (Z.div_pos (Board.columns b) 2 ltac:(lia) ltac:(lia)).
      pose proof (Z.div_pos (Board.rows b) 2 ltac:(lia) ltac:(lia)).
      pose proof (Z.div_le_upper_bound (Board.columns b) 2
                    (Board.columns b) ltac:(lia) ltac:(lia)).
      pose proof (Z.div_le_upper_bound (Board.rows b) 2
                    (Board.rows b) ltac:(lia) ltac:(lia)).
      lia. }
    destruct (inv_scaled_bounds dist (Board.columns b * Board.rows b))
      as (v & Hv & Hb); [lia | lia |].
    exists v. split; [exact Hv | lia].
Qed.

(** C3, amended.  On a board of fewer than [MAX_SCORE - 5] cells, whose
    cell list matches its grid, with both players standing on cells of
    the grid and [winner] false, each of the four heuristics returns a
    value, and its absolute value is smaller than [MAX_SCORE]. *)
Theorem nonterminal_scores_bounded (b : Board.t) (player xa ya xo yo : Z) :
  grid_ok b ->
  positioned b (Board.active_player b) xa ya ->
  positioned b (Board.inactive_player b) xo yo ->
  Board.rows b * Board.columns b + 5 < AI.MAX_SCORE ->
  exists s1 s2 s3 s4 : Z,
    (AI.score_func1 b VFalse player = Ok s1 /\ Z.abs s1 < AI.MAX_SCORE) /\
    (AI.score_func2 b VFalse player = Ok s2 /\ Z.abs s2 < AI.MAX_SCORE) /\
    (AI.score_func3 b VFalse player = Ok s3 /\ Z.abs s3 < AI.MAX_SCORE) /\
    (AI.score_func4 b VFalse player = Ok s4 /\ Z.abs s4 < AI.MAX_SCORE).
Proof.
  intros Hg Ha Ho Harea. unfold AI.MAX_SCORE in *.
  pose proof Ha as [Hla Hina]. pose proof Ho as [Hlo Hino].
  destruct (area_positive b xa ya Hina) as (Hc & Hr & Hsum).
  assert (Hsmall : Board.columns b * Board.rows b < 2 ^ 50) by lia.
  destruct (inv_dist_to_centre_bounds b _ _ _ Ha Hsmall) as (a & Hea & Hba).
  destruct (inv_dist_to_centre_bounds b _ _ _ Ho Hsmall) as (o & Heo & Hbo).
  destruct (get_legal_moves_lt_area b _ _ _ Hg Hla Hina)
    as (am & Ham & Hlam).
  destruct (get_legal_moves_lt_area b _ _ _ Hg Hlo Hino)
    as (om & Hom & Hlom).
  set (dist := AI.manhattan_distance xa ya xo yo).
  assert (Hdist : 0 <= dist <= Board.columns b + Board.rows b - 2).
  { unfold dist, AI.manhattan_distance.
    destruct Hina as [? ?], Hino as [? ?]. lia. }
  assert (H4 : exists s4,
             (if dist <=? 0
              then Ok (Board.columns b * Board.rows b + 5)
              else AI.inv_scaled dist (Board.columns b * Board.rows b))
             = Ok s4 /\ 0 <= s4 <= Board.columns b * Board.rows b + 5).
  { destruct (Z.leb_spec dist 0).
    - eexists. split; [reflexivity | lia].
    - destruct (inv_scaled_bounds dist (Board.columns b * Board.rows b))
        as (v & Hv & Hb); [lia | lia |].
      exists v. split; [exact Hv | lia]. }
  destruct H4 as (s4 & Hs4 & Hb4).
  exists (a - o), (Z.of_nat (length am) - Z.of_nat (length om)), dist, s4.
  unfold AI.score_func1, AI.score_func2, AI.score_func3, AI.score_func4.
  cbn [AI.terminal_score truthy].
  rewrite Hea, Heo, Ham, Hom.
  rewrite (unpack_pos_positioned _ _ _ _ Ha),
          (unpack_pos_positioned _ _ _ _ Ho).
  cbn [Py.bind fst snd]. fold dist. rewrite Hs4.
  repeat split; lia.
Qed.

(** The corridor, and the values of its four heuristics. *)
Lemma nonterminal_scores_bounded_witness :
  exists s1 s2 s3 s4 : Z,
    (AI.score_func1 corridor VFalse 1 = Ok s1 /\ Z.abs s1 < AI.MAX_SCORE) /\
    (AI.score_func2 corridor VFalse 1 = Ok s2 /\ Z.abs s2 < AI.MAX_SCORE) /\
    (AI.score_func3 corridor VFalse 1 = Ok s3 /\ Z.abs s3 < AI.MAX_SCORE) /\
    (AI.score_func4 corridor VFalse 1 = Ok s4 /\ Z.abs s4 < AI.MAX_SCORE).
Proof.
  apply (nonterminal_scores_bounded corridor 1 0 0 3 0).
  - reflexivity.
  - split; [reflexivity | unfold in_grid; simpl; lia].
  - split; [reflexivity | unfold in_grid; simpl; lia].
  - reflexivity.
Defined.

Example corridor_scores :
  AI.score_func1 corridor VFalse 1 = Ok (-2) /\
  AI.score_func2 corridor VFalse 1 = Ok 0 /\
  AI.score_func3 corridor VFalse 1 = Ok 3 /\
  AI.score_func4 corridor VFalse 1 = Ok 1.
Proof. repeat split; vm_compute; reflexivity. Qed.

(** ** The searches return *)

(** No ray exhausts its budget, on any board. *)
Lemma ray_within_fuel (b : Board.t) (dx dy : Z) :
  (dx, dy) ∈ Board.dirs_deltas ->
  forall (fuel : nat) (x y : Z) (moves : list (Z * Z)),
    (1 <= fuel)%nat ->
    (in_grid b (x + dx) (y + dy) -> room b dx dy x y < Z.of_nat fuel) ->
    Board.ray fuel b dx dy x y moves <> OutOfFuel.
Proof.
  intros Hd. induction fuel as [|fuel IH]; intros x y moves Hf Hroom;
    [lia|].
  cbn [Board.ray].
  destruct (_ && _) eqn:Hc; [|discriminate].
  apply ray_condition in Hc.
  destruct (room_step b dx dy x y Hd Hc) as [Hpos Hstep].
  specialize (Hroom Hc).
  destruct (Board.box_blocked b (x + dx) (y + dy)) as [blocked| |] eqn:Hb;
    simpl.
  - destruct blocked; [discriminate|].
    apply IH; [lia | intros _; lia].
  - discriminate.
  - unfold Board.box_blocked in Hb.
    destruct (getitem _ _) eqn:Hg; simpl in Hb; try discriminate.
    unfold getitem in Hg. destruct (norm_index _ _); [|discriminate].
    destruct (_ !! _); discriminate.
Qed.

Lemma box_blocked_within_fuel (b : Board.t) (x y : Z) :
  Board.box_blocked b x y <> OutOfFuel.
Proof.
  unfold Board.box_blocked, getitem.
  destruct (norm_index _ _); [|discriminate].
  destruct (_ !! _); discriminate.
Qed.

Lemma get_legal_moves_within_fuel (b : Board.t) (player : option Z) :
  Board.get_legal_moves b player <> OutOfFuel.
Proof.
  assert (Hrow : forall y xs moves,
             Board.free_row b y xs moves <> OutOfFuel).
  { intros y. induction xs as [|x xs IH]; intros moves; simpl;
      [discriminate|].
    pose proof (box_blocked_within_fuel b x y).
    destruct (Board.box_blocked b x y); simpl; [apply IH | | ]; congruence. }
  assert (Hrows : forall ys moves, Board.free_rows b ys moves <> OutOfFuel).
  { induction ys as [|y ys IH]; intros moves; simpl; [discriminate|].
    pose proof (Hrow y (Board.range (Board.columns b)) moves).
    destruct (Board.free_row _ _ _ _); simpl; [apply IH | | ]; congruence. }
  assert (Hrays : forall loc dirs moves,
             (forall d, d ∈ dirs -> d ∈ Board.dirs_deltas) ->
             Board.rays b loc dirs moves <> OutOfFuel).
  { intros loc. induction dirs as [|[dx dy] dirs IH]; intros moves Hsub;
      cbn [Board.rays]; [discriminate|].
    assert (Hd : (dx, dy) ∈ Board.dirs_deltas)
      by (apply Hsub, elem_of_cons; left; reflexivity).
    pose proof (ray_within_fuel b dx dy Hd (Board.ray_fuel b) (fst loc)
                  (snd loc) moves
                  ltac:(unfold Board.ray_fuel; lia)
                  (ray_fuel_enough b dx dy _ _ Hd)).
    destruct (Board.ray _ _ _ _ _ _ _); simpl; [apply IH | | ];
      try congruence.
    intros d Hin. apply Hsub, elem_of_cons. right. exact Hin. }
  unfold Board.get_legal_moves.
  destruct (match player with
            | Some p => dict_get (Board.players_position b) p
            | None => dict_get (Board.players_position b)
                               (Board.active_player b)
            end) as [loc| |] eqn:Hloc; cbn [Py.bind].
  - destruct loc; [apply Hrays; auto | apply Hrows].
  - discriminate.
  - unfold dict_get in Hloc. destruct player;
      destruct (_ !! _) in Hloc; discriminate.
Qed.

Lemma is_game_over_within_fuel (b : Board.t) :
  Board.is_game_over b <> OutOfFuel.
Proof.
  unfold Board.is_game_over.
  pose proof (get_legal_moves_within_fuel b (Some (Board.active_player b))).
  pose proof (get_legal_moves_within_fuel b
                (Some (Board.inactive_player b))).
  destruct (Board.get_legal_moves b (Some (Board.active_player b)));
    simpl; try congruence.
  destruct (negb _); [discriminate|].
  destruct (Board.get_legal_moves b (Some (Board.inactive_player b)));
    simpl; try congruence.
  destruct (negb _); discriminate.
Qed.

Lemma land_lor_mask (s m : Z) : Z.land (Z.lor s m) m = m.
Proof.
  apply Z.bits_inj'. intros n _.
  rewrite Z.land_spec, Z.lor_spec.
  destruct (Z.testbit s n), (Z.testbit m n); reflexivity.
Qed.

Lemma filter_insert_drop {A : Type} (P : A -> bool) (v : A) :
  P v = false ->
  forall (l : list A) (j : nat) (c : A),
    l !! j = Some c -> P c = true ->
    S (length (List.filter P (<[j := v]> l))) = length (List.filter P l).
Proof.
  intros Hv. induction l as [|a l IH]; intros j c Hj Hc; [discriminate|].
  destruct j as [|j]; simpl in *.
  - injection Hj as ->. rewrite Hv, Hc. reflexivity.
  - destruct (P a); simpl; rewrite <- (IH j c Hj Hc); reflexivity.
Qed.

Lemma free_boxes_le (b : Board.t) :
  (free_boxes b <= length (Board.board b))%nat.
Proof. unfold free_boxes. apply List.filter_length_le. Qed.

(** A legal move takes one free box away. *)
Lemma make_move_copy_free_boxes (b : Board.t) (x y : Z) :
  Board.box_blocked b x y = Ok false ->
  exists b',
    Board.make_move_copy b x y = Ok b' /\
    S (free_boxes b') = free_boxes b.
Proof.
  intros H.
  destruct (make_move_unblocked b x y H)
    as (j & cell & _ & Hcell & Hfree & _ & Hcopy).
  exists (moved b j x y). split; [exact Hcopy|].
  unfold free_boxes, moved, Board.switch_player. cbn [Board.active_player].
  destruct (Board.active_player b =? Board.PLAYER1); cbn [Board.board];
    apply (filter_insert_drop _ _) with (c := cell);
    try exact Hcell;
    try (rewrite land_lor_mask, Z.eqb_refl; reflexivity);
    apply negb_true_iff, Z.eqb_neq; exact Hfree.
Qed.

Lemma heuristics_return :
  returns AI.score_func1 /\ returns AI.score_func2 /\
  returns AI.score_func3 /\ returns AI.score_func4 /\ returns crowding.
Proof.
  assert (Hpos : forall b p, AI.unpack_pos b p <> OutOfFuel).
  { intros b p. unfold AI.unpack_pos, Board.player_pos, dict_get, assert.
    destruct (bool_decide _); simpl; [|discriminate].
    destruct (_ !! _) as [[xy|]|]; discriminate. }
  assert (Hscaled : forall d t, AI.inv_scaled d t <> OutOfFuel).
  { intros d t. unfold AI.inv_scaled, Float.truediv_int, Float.mul_int,
                  Float.of_int, Float.to_int.
    destruct (binary_normalize _ _ d _ _); simpl; try discriminate;
      destruct (binary_normalize _ _ t _ _); simpl; try discriminate;
      destruct (SFmul _ _ _ _); discriminate. }
  assert (Hcentre : forall b p, AI.inv_dist_to_centre b p <> OutOfFuel).
  { intros b p. unfold AI.inv_dist_to_centre.
    pose proof (Hpos b p). destruct (AI.unpack_pos b p); simpl;
      try congruence.
    destruct (_ <=? 0); [discriminate | apply Hscaled]. }
  repeat split; intros b w p.
  - unfold AI.score_func1. destruct (AI.terminal_score w p); [discriminate|].
    pose proof (Hcentre b (Board.active_player b)).
    pose proof (Hcentre b (Board.inactive_player b)).
    destruct (AI.inv_dist_to_centre b (Board.active_player b)); simpl;
      try congruence.
    destruct (AI.inv_dist_to_centre b (Board.inactive_player b)); simpl;
      congruence.
  - unfold AI.score_func2. destruct (AI.terminal_score w p); [discriminate|].
    pose proof (get_legal_moves_within_fuel b
                  (Some (Board.active_player b))).
    pose proof (get_legal_moves_within_fuel b
                  (Some (Board.inactive_player b))).
    destruct (Board.get_legal_moves b (Some (Board.active_player b)));
      simpl; try congruence.
    destruct (Board.get_legal_moves b (Some (Board.inactive_player b)));
      simpl; congruence.
  - unfold AI.score_func3. destruct (AI.terminal_score w p); [discriminate|].
    pose proof (Hpos b (Board.active_player b)).
    pose proof (Hpos b (Board.inactive_player b)).
    destruct (AI.unpack_pos b (Board.active_player b)); simpl;
      try congruence.
    destruct (AI.unpack_pos b (Board.inactive_player b)); simpl;
      congruence.
  - unfold AI.score_func4. destruct (AI.terminal_score w p); [discriminate|].
    pose proof (Hpos b (Board.active_player b)).
    pose proof (Hpos b (Board.inactive_player b)).
    destruct (AI.unpack_pos b (Board.active_player b)); simpl;
      try congruence.
    destruct (AI.unpack_pos b (Board.inactive_player b)); simpl;
      try congruence.
    destruct (_ <=? 0); [discriminate | apply Hscaled].
  - unfold crowding. destruct (AI.terminal_score w p); discriminate.
Qed.

Lemma negamax_loop_within_fuel (rec : Board.t -> res AI.result)
      (b : Board.t) :
  (forall nb, S (free_boxes nb) = free_boxes b -> rec nb <> OutOfFuel) ->
  forall moves best_score best_move,
    Forall (unblocked b) moves ->
    AI.negamax_loop rec b moves best_score best_move <> OutOfFuel.
Proof.
  intros Hrec. induction moves as [|move rest IH];
    intros best_score best_move Hfree; simpl; [discriminate|].
  inversion Hfree as [|? ? Hmove Hrest]; subst.
  destruct (make_move_copy_free_boxes b _ _ Hmove) as (nb & -> & Hnb).
  simpl. pose proof (Hrec nb Hnb).
  destruct (rec nb) as [r| |]; simpl; try congruence.
  destruct (gt _ _); apply IH; exact Hrest.
Qed.

Lemma abnegamax_loop_within_fuel
      (rec : Board.t -> num -> num -> res AI.result) (b : Board.t)
      (beta : num) :
  (forall nb a' b',
      S (free_boxes nb) = free_boxes b -> rec nb a' b' <> OutOfFuel) ->
  forall moves alpha best_score best_move,
    Forall (unblocked b) moves ->
    AI.abnegamax_loop rec b moves alpha beta best_score best_move
    <> OutOfFuel.
Proof.
  intros Hrec. induction moves as [|move rest IH];
    intros alpha best_score best_move Hfree; simpl; [discriminate|].
  inversion Hfree as [|? ? Hmove Hrest]; subst.
  destruct (make_move_copy_free_boxes b _ _ Hmove) as (nb & -> & Hnb).
  simpl. pose proof (Hrec nb (neg beta) (neg alpha) Hnb).
  destruct (rec nb (neg beta) (neg alpha)) as [r| |]; simpl;
    try congruence.
  destruct (ge _ beta); [discriminate|]. apply IH. exact Hrest.
Qed.

Lemma negamax_fuel_enough (player : Z) (score_func : AI.heuristic) :
  returns score_func ->
  forall (fuel : nat) (b : Board.t) (depth : Z),
    0 <= depth < Z.of_nat fuel \/ (free_boxes b < fuel)%nat ->
    AI.negamax_fuel fuel b depth player score_func <> OutOfFuel.
Proof.
  intros Hf. induction fuel as [|fuel IH]; intros b depth Hfuel; [lia|].
  cbn [AI.negamax_fuel].
  pose proof (is_game_over_within_fuel b).
  destruct (Board.is_game_over b) as [w| |]; cbn [Py.bind]; try congruence.
  destruct (truthy w || (depth =? 0)) eqn:Hleaf.
  - pose proof (Hf b w player).
    destruct (score_func b w player); simpl; congruence.
  - apply orb_false_elim in Hleaf as [_ Hd]. apply Z.eqb_neq in Hd.
    pose proof (get_legal_moves_within_fuel b None).
    destruct (Board.get_legal_moves b None) as [moves| |] eqn:Hm;
      cbn [Py.bind]; try congruence.
    apply negamax_loop_within_fuel.
    + intros nb Hnb. apply IH. lia.
    + eapply legal_moves_unblocked. exact Hm.
Qed.

Lemma abnegamax_fuel_enough (player : Z) (score_func : AI.heuristic) :
  returns score_func ->
  forall (fuel : nat) (b : Board.t) (depth : Z) (alpha beta : num),
    0 <= depth < Z.of_nat fuel \/ (free_boxes b < fuel)%nat ->
    AI.abnegamax_fuel fuel b depth player alpha beta score_func
    <> OutOfFuel.
Proof.
  intros Hf. induction fuel as [|fuel IH];
    intros b depth alpha beta Hfuel; [lia|].
  cbn [AI.abnegamax_fuel].
  pose proof (is_game_over_within_fuel b).
  destruct (Board.is_game_over b) as [w| |]; cbn [Py.bind]; try congruence.
  destruct (truthy w || (depth =? 0)) eqn:Hleaf.
  - pose proof (Hf b w player).
    destruct (score_func b w player); simpl; congruence.
  - apply orb_false_elim in Hleaf as [_ Hd]. apply Z.eqb_neq in Hd.
    pose proof (get_legal_moves_within_fuel b None).
    destruct (Board.get_legal_moves b None) as [moves| |] eqn:Hm;
      cbn [Py.bind]; try congruence.
    apply abnegamax_loop_within_fuel.
    + intros nb a' b' Hnb. apply IH. lia.
    + eapply legal_moves_unblocked. exact Hm.
Qed.



(** * More of the code *)

(** ** Where the legal moves lie *)

Lemma free_row_in_grid (b : Board.t) (y : Z) :
  0 <= y < Board.rows b ->
  forall xs moves moves',
    (forall x, x ∈ xs -> 0 <= x < Board.columns b) ->
    Forall (fun xy => in_grid b (fst xy) (snd xy)) moves ->
    Board.free_row b y xs moves = Ok moves' ->
    Forall (fun xy => in_grid b (fst xy) (snd xy)) moves'.
Proof.
  intros Hy. induction xs as [|x xs IH]; simpl; intros moves moves' Hxs Hm H.
  - congruence.
  - inv_bind H. eapply IH; [| |exact H].
    + intros x' Hx'. apply Hxs, elem_of_cons. right. exact Hx'.
    + destruct a; [exact Hm|]. apply Forall_app. split; [exact Hm|].
      constructor; [|constructor]. split; [|exact Hy].
      apply Hxs, elem_of_cons. left. reflexivity.
Qed.

Lemma free_rows_in_grid (b : Board.t) :
  forall ys moves moves',
    (forall y, y ∈ ys -> 0 <= y < Board.rows b) ->
    Forall (fun xy => in_grid b (fst xy) (snd xy)) moves ->
    Board.free_rows b ys moves = Ok moves' ->
    Forall (fun xy => in_grid b (fst xy) (snd xy)) moves'.
Proof.
  induction ys as [|y ys IH]; simpl; intros moves moves' Hys Hm H.
  - congruence.
  - inv_bind H. eapply IH; [| |exact H].
    + intros y' Hy'. apply Hys, elem_of_cons. right. exact Hy'.
    + eapply (free_row_in_grid b y); [| |exact Hm|exact Ha].
      * apply Hys, elem_of_cons. left. reflexivity.
      * intros x. apply range_bounds.
Qed.

Lemma ray_in_grid (b : Board.t) (dx dy : Z) (fuel : nat) :
  forall x y moves moves',
    Forall (fun xy => in_grid b (fst xy) (snd xy)) moves ->
    Board.ray fuel b dx dy x y moves = Ok moves' ->
    Forall (fun xy => in_grid b (fst xy) (snd xy)) moves'.
Proof.
  induction fuel as [|fuel IH]; simpl; intros x y moves moves' Hm H.
  - discriminate.
  - destruct (_ && _) eqn:Hc; [|congruence].
    apply ray_condition in Hc.
    inv_bind H. destruct a; [congruence|].
    eapply IH; [|exact H].
    apply Forall_app. split; [exact Hm|]. constructor; [exact Hc|constructor].
Qed.

Lemma rays_in_grid (b : Board.t) (loc : Z * Z) :
  forall dirs moves moves',
    Forall (fun xy => in_grid b (fst xy) (snd xy)) moves ->
    Board.rays b loc dirs moves = Ok moves' ->
    Forall (fun xy => in_grid b (fst xy) (snd xy)) moves'.
Proof.
  induction dirs as [|[dx dy] dirs IH]; cbn [Board.rays];
    intros moves moves' Hm H.
  - congruence.
  - inv_bind H.
    eapply IH; [eapply ray_in_grid; [exact Hm|exact Ha]|exact H].
Qed.

Lemma legal_moves_in_grid (b : Board.t) (player : option Z)
      (moves : list (Z * Z)) :
  Board.get_legal_moves b player = Ok moves ->
  Forall (fun xy => in_grid b (fst xy) (snd xy)) moves.
Proof.
  unfold Board.get_legal_moves. intros H. inv_bind H.
  destruct a as [xy|].
  - eapply rays_in_grid; [|exact H]. constructor.
  - eapply free_rows_in_grid; [| |exact H].
    + intros y'. apply range_bounds.
    + constructor.
Qed.

(** X1. Every move that [get_legal_moves] returns, for any board and any
    player, is a cell of the grid: its column is in [0 .. columns - 1]
    and its row in [0 .. rows - 1]. *)
Theorem get_legal_moves_in_grid (b : Board.t) (player : option Z)
        (moves : list (Z * Z)) (x y : Z) :
  Board.get_legal_moves b player = Ok moves ->
  (x, y) ∈ moves ->
  0 <= x < Board.columns b /\ 0 <= y < Board.rows b.
Proof.
  intros H Hin. apply legal_moves_in_grid in H.
  rewrite Forall_forall in H. apply (H (x, y) Hin).
Qed.

Lemma get_legal_moves_in_grid_witness :
  0 <= 2 < Board.columns corridor /\ 0 <= 0 < Board.rows corridor.
Proof.
  apply (get_legal_moves_in_grid corridor None [(1, 0); (2, 0)]).
  - vm_compute. reflexivity.
  - apply list_elem_of_further, list_elem_of_here.
Defined.

(** ** The placement moves *)

Lemma free_row_filter (b : Board.t) (y : Z) :
  grid_ok b -> 0 <= y < Board.rows b ->
  forall xs moves,
    (forall x, x ∈ xs -> 0 <= x < Board.columns b) ->
    Board.free_row b y xs moves
    = Ok (moves ++ List.filter (free_at b) (map (fun x => (x, y)) xs)).
Proof.
  intros Hg Hy. induction xs as [|x xs IH]; intros moves Hxs; simpl.
  - rewrite app_nil_r. reflexivity.
  - assert (Hx : 0 <= x < Board.columns b)
      by (apply Hxs, elem_of_cons; left; reflexivity).
    destruct (box_blocked_in_grid b x y Hg (conj Hx Hy)) as [blocked Hb].
    unfold free_at at 1. cbn [fst snd]. rewrite Hb. cbn [Py.bind].
    rewrite IH by (intros x' Hx'; apply Hxs, elem_of_cons; right; exact Hx').
    destruct blocked; [reflexivity|].
    rewrite <- app_assoc. reflexivity.
Qed.

Lemma free_rows_filter (b : Board.t) :
  grid_ok b ->
  forall ys moves,
    (forall y, y ∈ ys -> 0 <= y < Board.rows b) ->
    Board.free_rows b ys moves
    = Ok (moves
          ++ List.filter (free_at b)
               (flat_map (fun y => map (fun x => (x, y))
                                       (Board.range (Board.columns b))) ys)).
Proof.
  intros Hg. induction ys as [|y ys IH]; intros moves Hys; simpl.
  - rewrite app_nil_r. reflexivity.
  - rewrite free_row_filter;
      [ | exact Hg | apply Hys, elem_of_cons; left; reflexivity
        | intros x; apply range_bounds].
    cbn [Py.bind].
    rewrite IH by (intros y' Hy'; apply Hys, elem_of_cons; right; exact Hy').
    rewrite List.filter_app, app_assoc. reflexivity.
Qed.

Lemma NoDup_filter_bool {A : Type} (f : A -> bool) (l : list A) :
  NoDup l -> NoDup (List.filter f l).
Proof.
  induction 1 as [|a l Ha Hl IH]; simpl; [constructor|].
  destruct (f a); [|exact IH]. constructor; [|exact IH].
  intros Hin. apply Ha.
  apply list_elem_of_In, List.filter_In in Hin as [Hin _].
  apply list_elem_of_In. exact Hin.
Qed.

Lemma NoDup_range (n : Z) : NoDup (Board.range n).
Proof.
  unfold Board.range. apply (NoDup_fmap_2_strong Z.of_nat).
  - intros i j _ _. lia.
  - apply NoDup_seq.
Qed.

Lemma NoDup_all_cells (rows columns : Z) : NoDup (all_cells rows columns).
Proof.
  unfold all_cells. pose proof (NoDup_range rows) as Hys.
  induction Hys as [|y ys Hy Hys IH]; cbn [flat_map]; [constructor|].
  apply NoDup_app. split; [|split; [|exact IH]].
  - apply (NoDup_fmap_2_strong (fun x => (x, y))); [|apply NoDup_range].
    intros x x' _ _ [= E]. exact E.
  - intros [x y'] Hin Hin'.
    apply list_elem_of_In, in_map_iff in Hin as (x0 & [= <- <-] & _).
    apply list_elem_of_In, in_flat_map in Hin' as (y0 & Hy0 & Hin').
    apply in_map_iff in Hin' as (x1 & [= _ <-] & _).
    apply Hy. apply list_elem_of_In. exact Hy0.
Qed.

Lemma placement_filter (b : Board.t) (p : Z) :
  grid_ok b ->
  Board.players_position b !! p = Some None ->
  Board.get_legal_moves b (Some p)
  = Ok (List.filter (free_at b)
                    (all_cells (Board.rows b) (Board.columns b))).
Proof.
  intros Hg Hp. unfold Board.get_legal_moves, dict_get. rewrite Hp.
  cbn [Py.bind]. unfold Board.get_free_boxes.
  rewrite free_rows_filter; [reflexivity | exact Hg |].
  intros y. apply range_bounds.
Qed.

(** X2. On a board whose cell list matches its grid, the moves of a
    player who has not moved yet are the cells of the grid that are not
    blocked, each once, row after row and from left to right in a
    row. *)
Theorem placement_moves (b : Board.t) (p : Z) :
  grid_ok b ->
  Board.players_position b !! p = Some None ->
  Board.get_legal_moves b (Some p)
  = Ok (List.filter (free_at b)
                    (all_cells (Board.rows b) (Board.columns b))) /\
  NoDup (List.filter (free_at b)
                     (all_cells (Board.rows b) (Board.columns b))).
Proof.
  intros Hg Hp. split; [apply placement_filter; assumption|].
  apply NoDup_filter_bool, NoDup_all_cells.
Qed.

Lemma placement_moves_witness :
  Board.get_legal_moves taken_0_1 (Some 2)
  = Ok (List.filter (free_at taken_0_1) (all_cells 3 3)) /\
  NoDup (List.filter (free_at taken_0_1) (all_cells 3 3)).
Proof.
  apply (placement_moves taken_0_1 2); reflexivity.
Defined.

Lemma init_cells (rows columns : Z) (j : nat) (cell : Z) :
  Board.board (Board.init rows columns) !! j = Some cell ->
  cell = Board.BOX_CLEAR.
Proof.
  unfold Board.init, Board.clear_board. cbn [Board.board].
  intros H. apply lookup_replicate in H. apply H.
Qed.

Lemma init_grid_ok (rows columns : Z) :
  0 <= rows -> 0 <= columns -> grid_ok (Board.init rows columns).
Proof.
  intros Hr Hc. unfold grid_ok, Board.init, Board.clear_board.
  cbn [Board.board Board.rows Board.columns].
  rewrite length_replicate. nia.
Qed.

Lemma filter_all {A : Type} (P : A -> bool) (l : list A) :
  (forall a, a ∈ l -> P a = true) -> List.filter P l = l.
Proof.
  induction l as [|a l IH]; intros H; simpl; [reflexivity|].
  rewrite (H a) by (apply elem_of_cons; left; reflexivity).
  rewrite IH; [reflexivity|].
  intros a' Ha'. apply H, elem_of_cons. right. exact Ha'.
Qed.

Lemma all_cells_in_grid (rows columns x y : Z) :
  (x, y) ∈ all_cells rows columns <-> 0 <= x < columns /\ 0 <= y < rows.
Proof.
  unfold all_cells. rewrite list_elem_of_In, in_flat_map. split.
  - intros (y' & Hy' & Hin). apply in_map_iff in Hin as (x' & [= <- <-] & Hx').
    rewrite <- list_elem_of_In in Hy', Hx'.
    apply range_bounds in Hy', Hx'. tauto.
  - intros [Hx Hy]. exists y. split.
    + unfold Board.range. apply in_map_iff. exists (Z.to_nat y).
      split; [lia|]. apply in_seq. lia.
    + apply in_map_iff. exists x. split; [reflexivity|].
      unfold Board.range. apply in_map_iff. exists (Z.to_nat x).
      split; [lia|]. apply in_seq. lia.
Qed.

Lemma all_cells_length (rows columns : Z) :
  0 <= rows -> 0 <= columns ->
  Z.of_nat (length (all_cells rows columns)) = rows * columns.
Proof.
  intros Hr Hc. unfold all_cells, Board.range.
  assert (H : forall ys : list Z,
             length (flat_map (fun y => map (fun x => (x, y))
                                 (map Z.of_nat (seq 0 (Z.to_nat columns))))
                              ys)
             = (length ys * Z.to_nat columns)%nat).
  { induction ys as [|y ys IH]; simpl; [reflexivity|].
    rewrite length_app, IH, !length_map, length_seq. reflexivity. }
  rewrite H, length_map, length_seq. nia.
Qed.

(** X3. On a new board both players may be placed on any cell: the
    legal moves are all the [rows * columns] cells of the grid, row
    after row. *)
Theorem new_board_moves (rows columns : Z) (player : option Z) :
  0 <= rows -> 0 <= columns ->
  player = None \/ player = Some Board.PLAYER1
  \/ player = Some Board.PLAYER2 ->
  Board.get_legal_moves (Board.init rows columns) player
  = Ok (all_cells rows columns) /\
  Z.of_nat (length (all_cells rows columns)) = rows * columns.
Proof.
  intros Hr Hc Hp. split; [|apply all_cells_length; assumption].
  assert (Hfree : List.filter (free_at (Board.init rows columns))
                              (all_cells rows columns)
                  = all_cells rows columns).
  { apply filter_all. intros [x y] Hin.
    apply all_cells_in_grid in Hin.
    destruct (box_blocked_in_grid (Board.init rows columns) x y
                (init_grid_ok rows columns Hr Hc)) as [blocked Hb].
    { exact Hin. }
    unfold free_at. cbn [fst snd]. rewrite Hb.
    destruct (box_blocked_Ok_index _ _ _ _ Hb) as (j & cell & _ & Hcell & ->).
    apply init_cells in Hcell. subst cell. reflexivity. }
  pose proof (init_grid_ok rows columns Hr Hc) as Hg.
  destruct Hp as [-> | [-> | ->]].
  - change (Board.get_legal_moves (Board.init rows columns) None)
      with (Board.get_legal_moves (Board.init rows columns)
                                  (Some Board.PLAYER1)).
    rewrite (placement_filter _ _ Hg) by reflexivity. f_equal. exact Hfree.
  - rewrite (placement_filter _ _ Hg) by reflexivity. f_equal. exact Hfree.
  - rewrite (placement_filter _ _ Hg) by reflexivity. f_equal. exact Hfree.
Qed.

Lemma new_board_moves_witness :
  Board.get_legal_moves (Board.init 3 3) (Some 2) = Ok (all_cells 3 3) /\
  Z.of_nat (length (all_cells 3 3)) = 3 * 3.
Proof.
  apply (new_board_moves 3 3 (Some 2)); [lia | lia |].
  right. right. reflexivity.
Defined.

(** ** The moves of a queen *)

Lemma ray_cells_succ (x y dx dy : Z) (n : nat) :
  ray_cells x y dx dy (S n)
  = (x + dx, y + dy) :: ray_cells (x + dx) (y + dy) dx dy n.
Proof.
  unfold ray_cells. cbn [seq map]. rewrite <- seq_shift, map_map.
  f_equal; [f_equal; lia|].
  apply map_ext. intros i. f_equal; lia.
Qed.

Lemma elem_of_ray_cells (x y dx dy : Z) (n : nat) (m : Z * Z) :
  m ∈ ray_cells x y dx dy n
  <-> exists k, 1 <= k <= Z.of_nat n /\ m = (x + k * dx, y + k * dy).
Proof.
  unfold ray_cells. rewrite list_elem_of_In, in_map_iff. split.
  - intros (i & <- & Hi). apply in_seq in Hi. exists (Z.of_nat i).
    split; [lia | reflexivity].
  - intros (k & Hk & ->). exists (Z.to_nat k). split.
    + f_equal; f_equal; lia.
    + apply in_seq. lia.
Qed.

(** What the [while] loop appends: the cells of the ray up to, and
    without, the first cell that is blocked or outside the grid. *)
Lemma ray_spec (b : Board.t) (dx dy : Z) (fuel : nat) :
  forall x y moves moves',
    Board.ray fuel b dx dy x y moves = Ok moves' ->
    exists n : nat,
      moves' = moves ++ ray_cells x y dx dy n /\
      (forall k, 1 <= k <= Z.of_nat n ->
                 in_grid b (x + k * dx) (y + k * dy) /\
                 Board.box_blocked b (x + k * dx) (y + k * dy) = Ok false) /\
      (~ in_grid b (x + (Z.of_nat n + 1) * dx) (y + (Z.of_nat n + 1) * dy)
       \/ Board.box_blocked b (x + (Z.of_nat n + 1) * dx)
                              (y + (Z.of_nat n + 1) * dy) = Ok true).
Proof.
  induction fuel as [|fuel IH]; cbn [Board.ray]; intros x y moves moves' H.
  - discriminate.
  - destruct (_ && _) eqn:Hc.
    + apply ray_condition in Hc. inv_bind H. destruct a.
      * injection H as <-. exists O. cbn [ray_cells seq map].
        rewrite app_nil_r. split; [reflexivity|]. split; [intros k; lia|].
        right. replace (x + (Z.of_nat 0 + 1) * dx) with (x + dx) by lia.
        replace (y + (Z.of_nat 0 + 1) * dy) with (y + dy) by lia. exact Ha.
      * apply IH in H as (n & -> & Hfree & Hstop). exists (S n).
        rewrite ray_cells_succ, <- app_assoc. split; [reflexivity|]. split.
        -- intros k Hk. destruct (Z.eq_dec k 1) as [-> | Hne].
           ++ replace (1 * dx) with dx by lia.
              replace (1 * dy) with dy by lia. tauto.
           ++ specialize (Hfree (k - 1) ltac:(lia)).
              replace (x + dx + (k - 1) * dx) with (x + k * dx) in Hfree
                by lia.
              replace (y + dy + (k - 1) * dy) with (y + k * dy) in Hfree
                by lia.
              exact Hfree.
        -- replace (x + (Z.of_nat (S n) + 1) * dx)
             with (x + dx + (Z.of_nat n + 1) * dx) by lia.
           replace (y + (Z.of_nat (S n) + 1) * dy)
             with (y + dy + (Z.of_nat n + 1) * dy) by lia.
           exact Hstop.
    + injection H as <-. exists O. cbn [ray_cells seq map].
      rewrite app_nil_r. split; [reflexivity|]. split; [intros k; lia|].
      left. replace (x + (Z.of_nat 0 + 1) * dx) with (x + dx) by lia.
      replace (y + (Z.of_nat 0 + 1) * dy) with (y + dy) by lia.
      intros Hin. apply ray_condition in Hin. congruence.
Qed.

Lemma ray_clear_path (b : Board.t) (dx dy : Z) (fuel : nat)
      (x y : Z) (moves moves' : list (Z * Z)) (m : Z * Z) :
  Board.ray fuel b dx dy x y moves = Ok moves' ->
  m ∈ moves' <-> m ∈ moves \/ exists k, clear_path b x y (dx, dy) k m.
Proof.
  intros H. apply ray_spec in H as (n & -> & Hfree & Hstop).
  rewrite elem_of_app, elem_of_ray_cells. unfold clear_path. cbn [fst snd].
  split.
  - intros [Hm | (k & Hk & ->)]; [left; exact Hm | right].
    exists k. split; [lia|]. split; [reflexivity|].
    intros i Hi. apply Hfree. lia.
  - intros [Hm | (k & Hk & -> & Hpath)]; [left; exact Hm | right].
    exists k. split; [|reflexivity]. split; [exact Hk|].
    destruct (Z.le_gt_cases k (Z.of_nat n)) as [Hle | Hgt]; [exact Hle|].
    exfalso. destruct (Hpath (Z.of_nat n + 1) ltac:(lia)) as [Hin Hb].
    destruct Hstop as [Hout | Hblocked]; [tauto | congruence].
Qed.

Lemma rays_clear_path (b : Board.t) (loc : Z * Z) :
  forall dirs moves moves' m,
    Board.rays b loc dirs moves = Ok moves' ->
    m ∈ moves' <->
    m ∈ moves \/
    exists d k, d ∈ dirs /\ clear_path b (fst loc) (snd loc) d k m.
Proof.
  induction dirs as [|[dx dy] dirs IH]; cbn [Board.rays];
    intros moves moves' m H.
  - injection H as <-. split; [tauto|].
    intros [Hm | (d & k & Hd & _)]; [exact Hm|].
    apply elem_of_nil in Hd. destruct Hd.
  - inv_bind H. rewrite (IH _ _ m H), (ray_clear_path _ _ _ _ _ _ _ _ m Ha).
    split.
    + intros [[Hm | (k & Hk)] | (d & k & Hd & Hk)].
      * left. exact Hm.
      * right. exists (dx, dy), k. split; [|exact Hk].
        apply elem_of_cons. left. reflexivity.
      * right. exists d, k. split; [|exact Hk].
        apply elem_of_cons. right. exact Hd.
    + intros [Hm | (d & k & Hd & Hk)]; [tauto|].
      apply elem_of_cons in Hd as [-> | Hd]; [left; right; eauto|].
      right. eauto.
Qed.

(** X4. A player standing on [(x, y)] moves like a queen that cannot
    jump: a cell is a legal move exactly when it lies [k >= 1] steps
    from [(x, y)] along one of the eight directions and every cell of
    the way, the cell itself included, is inside the grid and not
    blocked. *)
Theorem queen_moves (b : Board.t) (p x y : Z) (moves : list (Z * Z))
        (m : Z * Z) :
  Board.players_position b !! p = Some (Some (x, y)) ->
  Board.get_legal_moves b (Some p) = Ok moves ->
  m ∈ moves <->
  exists d k, d ∈ Board.dirs_deltas /\ clear_path b x y d k m.
Proof.
  intros Hp. unfold Board.get_legal_moves, dict_get. rewrite Hp.
  cbn [Py.bind]. intros H.
  rewrite (rays_clear_path b (x, y) _ _ _ m H). cbn [fst snd].
  split; [|tauto]. intros [Hm | Hd]; [|exact Hd].
  apply elem_of_nil in Hm. destruct Hm.
Qed.

(** From [(0, 0)] on the corridor, [(2, 0)] is two steps to the right
    and [(3, 0)], where player 2 stands, is no move. *)
Lemma queen_moves_witness :
  (2, 0) ∈ [(1, 0); (2, 0)] <->
  exists d k, d ∈ Board.dirs_deltas /\ clear_path corridor 0 0 d k (2, 0).
Proof.
  apply (queen_moves corridor 1 0 0 [(1, 0); (2, 0)] (2, 0)).
  - reflexivity.
  - vm_compute. reflexivity.
Defined.

(** ** Rays stop at the first blocked cell *)

Lemma direction_unique (d d' : Z * Z) (k k' : Z) :
  d ∈ Board.dirs_deltas -> d' ∈ Board.dirs_deltas ->
  1 <= k -> 1 <= k' ->
  k * fst d = k' * fst d' -> k * snd d = k' * snd d' ->
  d = d' /\ k = k'.
Proof.
  intros Hd Hd' Hk Hk'. destruct d as [dx dy], d' as [dx' dy'].
  cbn [fst snd].
  each_direction Hd; each_direction Hd'; intros H1 H2;
    first [ split; [reflexivity | lia] | exfalso; lia ].
Qed.

(** C7. No cell returned by [get_legal_moves], for any board and any
    player (positioned or not), is blocked: [box_blocked] answers
    [False] on each, in the placement branch and on the rays.  Each ray
    of a positioned player ends at the first cell that is blocked or
    off the grid: a cell reached through free cells of the grid only is
    returned, and from the first cell that is blocked, or off the grid,
    on, no cell of the direction is. *)
Theorem get_legal_moves_never_blocked (b : Board.t) (player : option Z)
        (moves : list (Z * Z)) :
  Board.get_legal_moves b player = Ok moves ->
  (forall x y, (x, y) ∈ moves -> Board.box_blocked b x y = Ok false) /\
  (forall px py d k,
      Board.players_position b
      !! match player with
         | Some p => p
         | None => Board.active_player b
         end = Some (Some (px, py)) ->
      d ∈ Board.dirs_deltas -> 1 <= k ->
      ((forall i, 1 <= i <= k ->
                  in_grid b (px + i * fst d) (py + i * snd d) /\
                  Board.box_blocked b (px + i * fst d) (py + i * snd d)
                  = Ok false) ->
       (px + k * fst d, py + k * snd d) ∈ moves) /\
      (Board.box_blocked b (px + k * fst d) (py + k * snd d) = Ok true \/
       ~ in_grid b (px + k * fst d) (py + k * snd d) ->
       forall k', k <= k' ->
                  (px + k' * fst d, py + k' * snd d) ∉ moves)).
Proof.
  intros H. split.
  { intros x y Hin. apply legal_moves_unblocked in H.
    rewrite Forall_forall in H. apply (H (x, y)). exact Hin. }
  intros px py d k Hpos Hd Hk.
  assert (Hrays : Board.rays b (px, py) Board.dirs_deltas [] = Ok moves).
  { unfold Board.get_legal_moves, dict_get in H.
    destruct player as [p|]; rewrite Hpos in H; exact H. }
  pose proof (fun m => rays_clear_path b (px, py) _ _ _ m Hrays) as Hq.
  cbn [fst snd] in Hq. split.
  - intros Hpath. apply Hq. right. exists d, k. split; [exact Hd|].
    split; [exact Hk|]. split; [reflexivity | exact Hpath].
  - intros Hstop k' Hk' Hin.
    apply Hq in Hin as [Hnil | (d' & j & Hd' & Hj & Heq & Hpath)].
    { apply elem_of_nil in Hnil. exact Hnil. }
    injection Heq as Ex Ey.
    destruct (direction_unique d d' k' j Hd Hd') as [<- <-];
      [lia | exact Hj | lia | lia |].
    destruct (Hpath k ltac:(lia)) as [Hgrid Hfree].
    destruct Hstop as [Hblocked | Hout]; [congruence | contradiction].
Qed.

(** C7 at work: player 1 at the left end of a 1 x 5 board whose middle
    box is blocked.  [(1, 0)] is free and returned; [(3, 0)], two steps
    behind it and free as well, lies after the blocked box and is
    not. *)
Lemma get_legal_moves_never_blocked_witness :
  Board.box_blocked
    (Board.mk 1 5 [17; 4; 24; 4; 4] 1 2
       (<[1 := Some (0, 0)]> (<[2 := None]> ∅))) 1 0 = Ok false /\
  (0 + 3 * 1, 0 + 3 * 0) ∉ [(1, 0)].
Proof.
  destruct (get_legal_moves_never_blocked
              (Board.mk 1 5 [17; 4; 24; 4; 4] 1 2
                 (<[1 := Some (0, 0)]> (<[2 := None]> ∅)))
              (Some 1) [(1, 0)]) as [Hfree Hrays].
  - vm_compute. reflexivity.
  - split.
    + apply Hfree. apply list_elem_of_here.
    + apply (Hrays 0 0 (1, 0) 2).
      * reflexivity.
      * repeat first [apply list_elem_of_here | apply list_elem_of_further].
      * lia.
      * left. vm_compute. reflexivity.
      * lia.
Defined.

(** ** No move twice *)

Lemma NoDup_ray_cells (x y : Z) (d : Z * Z) (n : nat) :
  d ∈ Board.dirs_deltas -> NoDup (ray_cells x y (fst d) (snd d) n).
Proof.
  intros Hd. unfold ray_cells.
  apply (NoDup_fmap_2_strong
           (fun i : nat => (x + Z.of_nat i * fst d, y + Z.of_nat i * snd d))).
  - intros i j Hi Hj [= H1 H2].
    apply list_elem_of_In, in_seq in Hi. apply list_elem_of_In, in_seq in Hj.
    destruct (direction_unique d d (Z.of_nat i) (Z.of_nat j) Hd Hd)
      as [_ E]; lia.
  - apply NoDup_seq.
Qed.

Lemma rays_NoDup (b : Board.t) (x y : Z) :
  forall dirs done moves moves',
    (forall d, d ∈ done ++ dirs -> d ∈ Board.dirs_deltas) ->
    NoDup (done ++ dirs) ->
    rays_apart x y done moves ->
    Board.rays b (x, y) dirs moves = Ok moves' ->
    rays_apart x y (done ++ dirs) moves'.
Proof.
  induction dirs as [|[dx dy] dirs IH]; cbn [Board.rays];
    intros done moves moves' Hsub Hnd Hinv H.
  - injection H as <-. rewrite app_nil_r. exact Hinv.
  - inv_bind H. cbn [fst snd] in Ha.
    apply ray_spec in Ha as (n & -> & _ & _).
    replace (done ++ (dx, dy) :: dirs) with ((done ++ [(dx, dy)]) ++ dirs)
      in * by (rewrite <- app_assoc; reflexivity).
    eapply IH; [exact Hsub | exact Hnd | | exact H].
    assert (Hd : (dx, dy) ∈ Board.dirs_deltas).
    { apply Hsub. rewrite !elem_of_app, list_elem_of_singleton. tauto. }
    assert (Hnew : (dx, dy) ∉ done).
    { apply NoDup_app in Hnd as [Hnd _].
      apply NoDup_app in Hnd as (_ & Hdisj & _).
      intros Hin. apply (Hdisj _ Hin). apply list_elem_of_singleton.
      reflexivity. }
    destruct Hinv as [Hnodup Hform]. split.
    + apply NoDup_app. split; [exact Hnodup|]. split.
      * intros m Hm Hray. apply elem_of_ray_cells in Hray as (k & Hk & ->).
        destruct (Hform _ Hm) as (d0 & k0 & Hd0 & Hk0 & [= E1 E2]).
        destruct (direction_unique (dx, dy) d0 k k0) as [E _];
          [ exact Hd
          | apply Hsub; rewrite !elem_of_app; tauto
          | lia | lia | cbn [fst]; lia | cbn [snd]; lia |].
        subst d0. contradiction.
      * apply (NoDup_ray_cells x y (dx, dy) n Hd).
    + intros m Hm. apply elem_of_app in Hm as [Hm | Hm].
      * destruct (Hform _ Hm) as (d0 & k0 & Hd0 & Hrest).
        exists d0, k0. split; [|exact Hrest].
        apply elem_of_app. left. exact Hd0.
      * apply elem_of_ray_cells in Hm as (k & Hk & ->).
        exists (dx, dy), k. split; [|split; [lia | reflexivity]].
        apply elem_of_app. right. apply list_elem_of_singleton. reflexivity.
Qed.

Lemma free_row_filter_inv (b : Board.t) (y : Z) :
  forall xs moves moves',
    Board.free_row b y xs moves = Ok moves' ->
    moves' = moves ++ List.filter (free_at b) (map (fun x => (x, y)) xs).
Proof.
  induction xs as [|x xs IH]; intros moves moves' H; simpl in *.
  - injection H as <-. rewrite app_nil_r. reflexivity.
  - inv_bind H. apply IH in H as ->. unfold free_at at 2. cbn [fst snd].
    rewrite Ha. destruct a; [reflexivity|].
    rewrite <- app_assoc. reflexivity.
Qed.

Lemma free_rows_filter_inv (b : Board.t) :
  forall ys moves moves',
    Board.free_rows b ys moves = Ok moves' ->
    moves' = moves
             ++ List.filter (free_at b)
                  (flat_map (fun y => map (fun x => (x, y))
                                          (Board.range (Board.columns b)))
                            ys).
Proof.
  induction ys as [|y ys IH]; intros moves moves' H; simpl in *.
  - injection H as <-. rewrite app_nil_r. reflexivity.
  - inv_bind H. apply IH in H as ->.
    apply free_row_filter_inv in Ha as ->.
    rewrite List.filter_app, app_assoc. reflexivity.
Qed.

(** X5. [get_legal_moves] returns no cell twice, for any board and any
    player. *)
Theorem get_legal_moves_NoDup (b : Board.t) (player : option Z)
        (moves : list (Z * Z)) :
  Board.get_legal_moves b player = Ok moves -> NoDup moves.
Proof.
  unfold Board.get_legal_moves. intros H. inv_bind H.
  destruct a as [[x y]|].
  - assert (Hdirs : NoDup Board.dirs_deltas).
    { unfold Board.dirs_deltas.
      repeat (apply NoDup_cons; split;
              [rewrite ?elem_of_cons, elem_of_nil; intuition congruence|]).
      apply NoDup_nil. constructor. }
    assert (Hstart : rays_apart x y [] []).
    { split; [constructor|]. intros m Hm. apply elem_of_nil in Hm.
      destruct Hm. }
    apply (rays_NoDup b x y Board.dirs_deltas [] [] moves
             (fun d Hd => Hd) Hdirs Hstart H).
  - unfold Board.get_free_boxes in H.
    apply free_rows_filter_inv in H as ->. cbn [app].
    apply NoDup_filter_bool. apply NoDup_all_cells.
Qed.

Lemma get_legal_moves_NoDup_witness :
  NoDup [(1, 0); (2, 0); (2, 1); (2, 2); (1, 2); (0, 2); (0, 1)].
Proof.
  apply (get_legal_moves_NoDup
           (Board.mk 3 3 [18; 4; 4; 4; 17; 4; 4; 4; 4] 1 2
              (<[1 := Some (1, 1)]> (<[2 := Some (0, 0)]> ∅)))
           (Some 1)).
  vm_compute. reflexivity.
Defined.

(** ** Faults of [box_blocked] and [make_move] *)

Lemma norm_index_Some (len i : Z) (j : nat) :
  Py.norm_index len i = Some j ->
  - len <= i < len /\ Z.of_nat j < len /\
  Z.of_nat j = (if i <? 0 then i + len else i).
Proof.
  unfold Py.norm_index. destruct (Z.ltb_spec i 0);
    destruct (Z.leb_spec 0 (i + len)); destruct (Z.leb_spec 0 i);
    destruct (Z.ltb_spec (i + len) len); destruct (Z.ltb_spec i len);
    simpl; intros [= <-]; lia.
Qed.

Lemma norm_index_None (len i : Z) :
  Py.norm_index len i = None <-> ~ (- len <= i < len).
Proof.
  unfold Py.norm_index. destruct (Z.ltb_spec i 0);
    destruct (Z.leb_spec 0 (i + len)); destruct (Z.leb_spec 0 i);
    destruct (Z.ltb_spec (i + len) len); destruct (Z.ltb_spec i len);
    simpl; split; intros; try discriminate; try lia; try reflexivity.
Qed.

(** X6. [box_blocked] raises [IndexError] exactly when the flat index
    [x + y * columns] is outside [- len .. len - 1], [len] being the
    length of the cell list; everywhere else it answers, from the end
    of the list when the index is negative. *)
Theorem box_blocked_domain (b : Board.t) (x y : Z) :
  let len := Z.of_nat (length (Board.board b)) in
  let i := Board.offset b x y in
  (~ (- len <= i < len) -> Board.box_blocked b x y = Raise IndexError) /\
  (- len <= i < len ->
   exists cell,
     Board.board b !! Z.to_nat (if i <? 0 then i + len else i) = Some cell /\
     Board.box_blocked b x y
     = Ok (Z.land cell Board.BOX_BLOCKED_MASK =? Board.BOX_BLOCKED_MASK)).
Proof.
  intros len i. unfold Board.box_blocked, Py.getitem. fold len i. split.
  - intros H. apply norm_index_None in H. rewrite H. reflexivity.
  - intros H. destruct (Py.norm_index len i) as [j|] eqn:Hj.
    + destruct (norm_index_Some _ _ _ Hj) as (_ & Hlt & Hjv).
      destruct (lookup_lt_is_Some_2 (Board.board b) j) as [cell Hcell];
        [unfold len in Hlt; lia|].
      exists cell. rewrite <- Hjv, Nat2Z.id, Hcell. split; reflexivity.
    + apply norm_index_None in Hj. contradiction.
Qed.

(** On the 3 x 3 board with [(0, 1)] taken: [(0, -2)] is the cell of
    index -6, the fourth from the start, and [(0, 3)] is outside. *)
Lemma box_blocked_domain_witness :
  Board.box_blocked taken_0_1 0 3 = Raise IndexError /\
  exists cell,
    Board.board taken_0_1 !! Z.to_nat (-6 + 9) = Some cell /\
    Board.box_blocked taken_0_1 0 (-2)
    = Ok (Z.land cell Board.BOX_BLOCKED_MASK =? Board.BOX_BLOCKED_MASK).
Proof.
  split.
  - apply (box_blocked_domain taken_0_1 0 3).
    vm_compute. intros [_ H]. discriminate H.
  - apply (box_blocked_domain taken_0_1 0 (-2)).
    vm_compute. split; [discriminate | reflexivity].
Defined.

(** X7. A move to a blocked box is refused: [make_move] and
    [make_move_copy] raise [AssertionError], and [make_move] leaves the
    board it was called on, and every other object, as they were. *)
Theorem make_move_blocked (σ : gmap nat Board.t) (self : Heap.ref)
        (b : Board.t) (x y : Z) :
  σ !! self = Some b ->
  Board.box_blocked b x y = Ok true ->
  Board.make_move b x y = Raise AssertionError /\
  Board.make_move_copy b x y = Raise AssertionError /\
  Heap.make_move σ self x y = Some (Raise AssertionError, σ).
Proof.
  intros Hself Hb.
  assert (H1 : Board.make_move b x y = Raise AssertionError)
    by (unfold Board.make_move; rewrite Hb; reflexivity).
  split; [exact H1|]. split.
  - unfold Board.make_move_copy. rewrite pickle_roundtrip_eq, Hb.
    reflexivity.
  - unfold Heap.make_move. rewrite Hself, H1. reflexivity.
Qed.

Lemma make_move_blocked_witness :
  Board.make_move taken_0_1 0 1 = Raise AssertionError /\
  Board.make_move_copy taken_0_1 0 1 = Raise AssertionError /\
  Heap.make_move {[ 5%nat := taken_0_1 ]} 5%nat 0 1
  = Some (Raise AssertionError, {[ 5%nat := taken_0_1 ]}).
Proof.
  apply (make_move_blocked {[ 5%nat := taken_0_1 ]} 5%nat taken_0_1 0 1).
  - reflexivity.
  - vm_compute. reflexivity.
Defined.

(** ** What a move changes *)

Lemma make_move_Ok_unblocked (b b' : Board.t) (x y : Z) :
  Board.make_move b x y = Ok b' -> Board.box_blocked b x y = Ok false.
Proof.
  unfold Board.make_move. intros H. inv_bind H.
  destruct a; [discriminate H | exact Ha].
Qed.

Lemma make_move_moved (b b' : Board.t) (x y : Z) :
  Board.make_move b x y = Ok b' ->
  exists j cell,
    Py.norm_index (Z.of_nat (length (Board.board b))) (Board.offset b x y)
    = Some j /\
    Board.board b !! j = Some cell /\
    Z.land cell Board.BOX_BLOCKED_MASK <> Board.BOX_BLOCKED_MASK /\
    b' = moved b j x y.
Proof.
  intros H. pose proof (make_move_Ok_unblocked _ _ _ _ H) as Hfree.
  destruct (make_move_unblocked b x y Hfree)
    as (j & cell & Hj & Hcell & Hc & Hmv & _).
  exists j, cell. repeat split; try assumption. congruence.
Qed.

Lemma moved_fields (b : Board.t) (j : nat) (x y : Z) :
  Board.rows (moved b j x y) = Board.rows b /\
  Board.columns (moved b j x y) = Board.columns b /\
  Board.board (moved b j x y)
  = <[j := Z.lor (Board.active_player b) Board.BOX_BLOCKED_MASK]>
      (Board.board b) /\
  Board.players_position (moved b j x y)
  = <[Board.active_player b := Some (x, y)]> (Board.players_position b) /\
  players_ok (moved b j x y) /\
  (players_ok b ->
   Board.active_player (moved b j x y) = Board.inactive_player b /\
   Board.inactive_player (moved b j x y) = Board.active_player b).
Proof.
  unfold moved, Board.switch_player, players_ok. cbn [Board.active_player].
  destruct (Z.eqb_spec (Board.active_player b) Board.PLAYER1) as [E | E];
    cbn [Board.rows Board.columns Board.board Board.players_position
         Board.active_player Board.inactive_player];
    (split; [reflexivity|]); (split; [reflexivity|]);
    (split; [reflexivity|]); (split; [reflexivity|]).
  - split; [right; split; reflexivity|].
    intros [[_ H2] | [H1 _]]; [rewrite E, H2; split; reflexivity|].
    rewrite E in H1. discriminate H1.
  - split; [left; split; reflexivity|].
    intros [[H1 _] | [H1 H2]]; [contradiction|].
    rewrite H1, H2. split; reflexivity.
Qed.

(** Reading a box after the cell of index [j] was overwritten. *)
Lemma box_blocked_insert (b b' : Board.t) (j : nat) (v : Z) (x y : Z) :
  Board.columns b' = Board.columns b ->
  Board.board b' = <[j := v]> (Board.board b) ->
  forall j' r,
    Py.norm_index (Z.of_nat (length (Board.board b))) (Board.offset b x y)
    = Some j' ->
    Board.box_blocked b x y = Ok r ->
    Board.box_blocked b' x y
    = Ok (if decide (j' = j)
          then Z.land v Board.BOX_BLOCKED_MASK =? Board.BOX_BLOCKED_MASK
          else r).
Proof.
  intros Hc Hb j' r Hj' Hr.
  unfold Board.box_blocked, Py.getitem, Board.offset in *.
  rewrite Hc, Hb, length_insert, Hj' in *.
  destruct (Board.board b !! j') as [cell|] eqn:Hcell; [|discriminate].
  destruct (decide (j' = j)) as [-> | Hne].
  - rewrite list_lookup_insert_eq by (eapply lookup_lt_Some; exact Hcell).
    reflexivity.
  - rewrite list_lookup_insert_ne by congruence. rewrite Hcell. exact Hr.
Qed.

Lemma norm_index_in_grid (b : Board.t) (x y : Z) :
  grid_ok b -> in_grid b x y ->
  Py.norm_index (Z.of_nat (length (Board.board b))) (Board.offset b x y)
  = Some (Z.to_nat (Board.offset b x y)) /\
  0 <= Board.offset b x y.
Proof.
  intros Hg [Hx Hy]. split.
  - apply norm_index_inside. rewrite Hg. unfold Board.offset. nia.
  - unfold Board.offset. nia.
Qed.

Lemma make_move_spec (b : Board.t) (x y : Z) :
  grid_ok b -> players_ok b -> in_grid b x y ->
  Board.box_blocked b x y = Ok false ->
  exists b',
    Board.make_move b x y = Ok b' /\
    Board.make_move_copy b x y = Ok b' /\
    Board.rows b' = Board.rows b /\
    Board.columns b' = Board.columns b /\
    grid_ok b' /\
    Board.box_blocked b' x y = Ok true /\
    (forall x' y', in_grid b x' y' -> (x', y') <> (x, y) ->
                   Board.box_blocked b' x' y' = Board.box_blocked b x' y') /\
    Board.players_position b' !! Board.active_player b = Some (Some (x, y)) /\
    Board.players_position b' !! Board.inactive_player b
    = Board.players_position b !! Board.inactive_player b /\
    Board.active_player b' = Board.inactive_player b /\
    Board.inactive_player b' = Board.active_player b.
Proof.
  intros Hg Hp Hin Hfree.
  destruct (make_move_unblocked b x y Hfree)
    as (j & cell & Hj & Hcell & _ & Hmv & Hcp).
  destruct (moved_fields b j x y) as (Hr & Hc & Hb & Hpos & _ & Hsw).
  destruct (Hsw Hp) as [Ha Hi].
  destruct (norm_index_in_grid b x y Hg Hin) as [Hjx Hox].
  assert (Hjv : j = Z.to_nat (Board.offset b x y)) by congruence.
  exists (moved b j x y).
  split; [exact Hmv|]. split; [exact Hcp|]. split; [exact Hr|].
  split; [exact Hc|]. split.
  { unfold grid_ok. rewrite Hb, length_insert, Hr, Hc. exact Hg. }
  split.
  { rewrite (box_blocked_insert b _ j _ x y Hc Hb j false Hj Hfree).
    rewrite decide_True by reflexivity.
    rewrite land_lor_mask, Z.eqb_refl. reflexivity. }
  split.
  { intros x' y' Hin' Hne.
    destruct (box_blocked_in_grid b x' y' Hg Hin') as [r Hr'].
    destruct (norm_index_in_grid b x' y' Hg Hin') as [Hj' Hox'].
    rewrite (box_blocked_insert b _ j _ x' y' Hc Hb _ r Hj' Hr').
    rewrite decide_False; [symmetry; exact Hr'|].
    intros E. apply Hne. destruct Hin as [Hx Hy], Hin' as [Hx' Hy'].
    assert (Eo : Board.offset b x' y' = Board.offset b x y) by lia.
    unfold Board.offset in Eo.
    assert (y' = y) by nia. subst y'. f_equal. lia. }
  split.
  { rewrite Hpos. apply lookup_insert_eq. }
  split.
  { rewrite Hpos. apply lookup_insert_ne.
    destruct Hp as [[-> ->] | [-> ->]]; discriminate. }
  split; assumption.
Qed.

(** X8. What a legal move does.  On a board whose cell list matches its
    grid, a move to a free cell [(x, y)] of the grid succeeds, the same
    in place and on a copy.  The cell list changes at the entry of
    [(x, y)] only, which becomes the number of the mover with the mask
    set: every other entry keeps its state.  Afterwards [(x, y)] is
    blocked, every other cell of the grid is blocked or free as before,
    the mover stands on [(x, y)], the other player where it stood, the
    dimensions are the same, and the two players have exchanged their
    roles. *)
Theorem make_move_effect (b : Board.t) (x y : Z) :
  grid_ok b -> players_ok b -> in_grid b x y ->
  Board.box_blocked b x y = Ok false ->
  exists b',
    Board.make_move b x y = Ok b' /\
    Board.make_move_copy b x y = Ok b' /\
    Board.rows b' = Board.rows b /\
    Board.columns b' = Board.columns b /\
    grid_ok b' /\
    Board.board b'
    = <[Z.to_nat (Board.offset b x y)
        := Z.lor (Board.active_player b) Board.BOX_BLOCKED_MASK]>
        (Board.board b) /\
    Board.box_blocked b' x y = Ok true /\
    (forall x' y', in_grid b x' y' -> (x', y') <> (x, y) ->
                   Board.box_blocked b' x' y' = Board.box_blocked b x' y') /\
    Board.players_position b' !! Board.active_player b = Some (Some (x, y)) /\
    Board.players_position b' !! Board.inactive_player b
    = Board.players_position b !! Board.inactive_player b /\
    Board.active_player b' = Board.inactive_player b /\
    Board.inactive_player b' = Board.active_player b.
Proof.
  intros Hg Hp Hin Hfree.
  destruct (make_move_spec b x y Hg Hp Hin Hfree)
    as (b' & Hmv & Hcp & Hr & Hc & Hg' & Hrest).
  exists b'. split; [exact Hmv|]. split; [exact Hcp|]. split; [exact Hr|].
  split; [exact Hc|]. split; [exact Hg'|]. split; [|exact Hrest].
  destruct (make_move_moved _ _ _ _ Hmv) as (j & cell & Hj & _ & _ & ->).
  destruct (norm_index_in_grid b x y Hg Hin) as [Hjx _].
  assert (Hjv : j = Z.to_nat (Board.offset b x y)) by congruence.
  rewrite <- Hjv. apply moved_fields.
Qed.

(** Player 1 moves from [(0, 0)] to [(2, 0)] on the corridor. *)
Lemma make_move_effect_witness :
  exists b',
    Board.make_move corridor 2 0 = Ok b' /\
    Board.make_move_copy corridor 2 0 = Ok b' /\
    Board.rows b' = 1 /\ Board.columns b' = 4 /\ grid_ok b' /\
    Board.board b' = [17; 4; 17; 18] /\
    Board.box_blocked b' 2 0 = Ok true /\
    (forall x' y', in_grid corridor x' y' -> (x', y') <> (2, 0) ->
                   Board.box_blocked b' x' y'
                   = Board.box_blocked corridor x' y') /\
    Board.players_position b' !! 1 = Some (Some (2, 0)) /\
    Board.players_position b' !! 2 = Some (Some (3, 0)) /\
    Board.active_player b' = 2 /\ Board.inactive_player b' = 1.
Proof.
  apply (make_move_effect corridor 2 0).
  - reflexivity.
  - left. split; reflexivity.
  - unfold in_grid. simpl. lia.
  - vm_compute. reflexivity.
Defined.

(** ** Blocked boxes stay blocked *)

Lemma box_blocked_after_insert (b b' : Board.t) (j : nat) (v x y : Z) :
  Board.columns b' = Board.columns b ->
  Board.board b' = <[j := v]> (Board.board b) ->
  Z.land v Board.BOX_BLOCKED_MASK = Board.BOX_BLOCKED_MASK ->
  Board.box_blocked b x y = Ok true ->
  Board.box_blocked b' x y = Ok true.
Proof.
  intros Hc Hb Hv Hr.
  destruct (box_blocked_Ok_index _ _ _ _ Hr) as (j' & cell & Hj' & _ & _).
  rewrite (box_blocked_insert b b' j v x y Hc Hb j' true Hj' Hr).
  destruct (decide (j' = j)); [|reflexivity].
  rewrite Hv, Z.eqb_refl. reflexivity.
Qed.

Lemma make_move_keeps_blocked (b b' : Board.t) (x y x' y' : Z) :
  Board.make_move b x y = Ok b' ->
  Board.box_blocked b x' y' = Ok true ->
  Board.box_blocked b' x' y' = Ok true.
Proof.
  intros H Hr. destruct (make_move_moved _ _ _ _ H) as (j & cell & _ & _ & _ & ->).
  destruct (moved_fields b j x y) as (_ & Hc & Hb & _).
  eapply box_blocked_after_insert; [exact Hc | exact Hb | | exact Hr].
  apply land_lor_mask.
Qed.

Lemma gen_random_fields (draws : list Z) :
  forall b b',
    Board.gen_random_blocked_boxes b draws = Ok b' ->
    Board.rows b' = Board.rows b /\
    Board.columns b' = Board.columns b /\
    length (Board.board b') = length (Board.board b) /\
    Board.active_player b' = Board.active_player b /\
    Board.inactive_player b' = Board.inactive_player b /\
    Board.players_position b' = Board.players_position b.
Proof.
  induction draws as [|pos draws IH]; intros b b' H; cbn in H.
  - injection H as <-. repeat split.
  - inv_bind H. apply IH in H. cbn in H.
    unfold Py.setitem in Ha.
    destruct (Py.norm_index _ pos) as [j|]; [|discriminate].
    injection Ha as <-. rewrite length_insert in H. exact H.
Qed.

Lemma gen_random_keeps_blocked (draws : list Z) :
  forall b b' x y,
    Board.gen_random_blocked_boxes b draws = Ok b' ->
    Board.box_blocked b x y = Ok true ->
    Board.box_blocked b' x y = Ok true.
Proof.
  induction draws as [|pos draws IH]; intros b b' x y H Hr; cbn in H.
  - injection H as <-. exact Hr.
  - inv_bind H. eapply IH; [exact H|].
    unfold Py.setitem in Ha.
    destruct (Py.norm_index _ pos) as [j|]; [|discriminate].
    injection Ha as <-.
    eapply (box_blocked_after_insert b _ j); [reflexivity | reflexivity | | exact Hr].
    reflexivity.
Qed.

(** X9. A blocked box never becomes free again: what [box_blocked]
    reports blocked stays blocked after [make_move], on the board
    [make_move_copy] returns, and after [gen_random_blocked_boxes]. *)
Theorem blocked_stays_blocked (b b' : Board.t) (x y : Z) :
  (exists mx my, Board.make_move b mx my = Ok b') \/
  (exists mx my, Board.make_move_copy b mx my = Ok b') \/
  (exists draws, Board.gen_random_blocked_boxes b draws = Ok b') ->
  Board.box_blocked b x y = Ok true ->
  Board.box_blocked b' x y = Ok true.
Proof.
  intros [(mx & my & H) | [(mx & my & H) | (draws & H)]] Hr.
  - eapply make_move_keeps_blocked; [exact H | exact Hr].
  - assert (Hmv : Board.make_move b mx my = Ok b').
    { unfold Board.make_move_copy in H. rewrite pickle_roundtrip_eq in H.
      exact H. }
    eapply make_move_keeps_blocked; [exact Hmv | exact Hr].
  - eapply gen_random_keeps_blocked; [exact H | exact Hr].
Qed.

(** [(0, 1)], taken on the 3 x 3 board, is still blocked after the move
    of player 2 to the centre. *)
Lemma blocked_stays_blocked_witness :
  Board.box_blocked
    (Board.mk 3 3 [4; 4; 4; 17; 18; 4; 4; 4; 4] 1 2
       (<[2 := Some (1, 1)]> (<[1 := Some (0, 1)]> (<[2 := None]> ∅))))
    0 1 = Ok true.
Proof.
  apply (blocked_stays_blocked taken_0_1).
  - left. exists 1, 1. vm_compute. reflexivity.
  - vm_compute. reflexivity.
Defined.

(** ** Every game ends *)

Lemma make_move_free_boxes (b b' : Board.t) (x y : Z) :
  Board.make_move b x y = Ok b' -> S (free_boxes b') = free_boxes b.
Proof.
  intros H. pose proof (make_move_Ok_unblocked _ _ _ _ H) as Hfree.
  destruct (make_move_copy_free_boxes b x y Hfree) as (b'' & Hcp & Hn).
  unfold Board.make_move_copy in Hcp. rewrite pickle_roundtrip_eq in Hcp.
  unfold Board.make_move in H. congruence.
Qed.

(** X10. Every successful move uses up one free box, so a sequence of
    calls of [make_move] that all succeed is no longer than the number
    of free boxes of the board it starts from, itself at most the
    length of the cell list. *)
Theorem play_length (moves : list (Z * Z)) :
  forall b b',
    play b moves = Ok b' ->
    (length moves + free_boxes b' = free_boxes b)%nat /\
    (length moves <= length (Board.board b))%nat.
Proof.
  induction moves as [|move rest IH]; intros b b' H; cbn [play] in H.
  - injection H as <-. split; [reflexivity | cbn; lia].
  - inv_bind H. destruct (IH _ _ H) as [Hn _].
    pose proof (make_move_free_boxes _ _ _ _ Ha) as Hs.
    pose proof (free_boxes_le b). cbn [length]. lia.
Qed.

Lemma play_length_witness :
  (length [(0, 0); (1, 0)] + free_boxes both_immobilized
   = free_boxes (Board.init 1 2))%nat /\
  (length [(0, 0); (1, 0)] <= length (Board.board (Board.init 1 2)))%nat.
Proof.
  apply (play_length [(0, 0); (1, 0)] (Board.init 1 2) both_immobilized).
  vm_compute. reflexivity.
Defined.

(** ** The invariant of the boards of a game *)

Lemma position_ok_after (b b' : Board.t) (p : Z) :
  Board.rows b' = Board.rows b ->
  Board.columns b' = Board.columns b ->
  Board.players_position b' !! p = Board.players_position b !! p ->
  (forall x y, Board.box_blocked b x y = Ok true ->
               Board.box_blocked b' x y = Ok true) ->
  position_ok b p -> position_ok b' p.
Proof.
  intros Hr Hc Hp Hkeep. unfold position_ok, in_grid. rewrite Hp, Hr, Hc.
  destruct (Board.players_position b !! p) as [[[x y]|]|]; try tauto.
  intros [Hin Hb]. split; [exact Hin | apply Hkeep, Hb].
Qed.

Lemma well_formed_init (rows columns : Z) :
  0 <= rows -> 0 <= columns -> well_formed (Board.init rows columns).
Proof.
  intros Hr Hc. split; [apply init_grid_ok; assumption|].
  split; [left; split; reflexivity|]. split.
  { apply Forall_forall. intros cell Hin.
    apply list_elem_of_lookup in Hin as [j Hj].
    apply init_cells in Hj. left. exact Hj. }
  split.
  { intros p. unfold Board.init, Board.clear_board.
    cbn [Board.players_position].
    rewrite !lookup_insert_is_Some, lookup_empty.
    unfold is_Some. split.
    - intros [<- | [_ [<- | [_ [v Hv]]]]]; [tauto | tauto | discriminate].
    - intros [-> | ->]; [left; reflexivity|].
      right. split; [discriminate|]. left. reflexivity. }
  split; reflexivity.
Qed.

Lemma well_formed_make_move (b b' : Board.t) (x y : Z) :
  well_formed b -> in_grid b x y ->
  Board.make_move b x y = Ok b' ->
  well_formed b'.
Proof.
  intros (Hg & Hp & Hcells & Hkeys & Hp1 & Hp2) Hin H.
  pose proof (make_move_Ok_unblocked _ _ _ _ H) as Hfree.
  destruct (make_move_spec b x y Hg Hp Hin Hfree)
    as (b'' & Hmv & _ & Hr & Hc & Hg' & Hb & _ & Hact & Hinact & Ha & Hi).
  assert (b'' = b') by congruence. subst b''.
  destruct (make_move_moved _ _ _ _ H) as (j & cell & _ & _ & _ & E).
  destruct (moved_fields b j x y) as (_ & _ & Hboard & Hpos & Hpok & _).
  rewrite <- E in Hboard, Hpos, Hpok.
  assert (Hmover : forall p, p = Board.active_player b -> position_ok b' p).
  { intros p ->. unfold position_ok. rewrite Hact. split; [|exact Hb].
    unfold in_grid. rewrite Hr, Hc. exact Hin. }
  assert (Hother : forall p, p = Board.inactive_player b ->
                             position_ok b p -> position_ok b' p).
  { intros p ->. apply position_ok_after; try assumption.
    intros x' y'. apply (make_move_keeps_blocked _ _ _ _ _ _ H). }
  split; [exact Hg'|]. split; [exact Hpok|]. split.
  { rewrite Hboard. apply Forall_insert; [exact Hcells|].
    destruct Hp as [[-> _] | [-> _]]; [right; left | right; right; left];
      reflexivity. }
  split.
  { intros p. rewrite Hpos, lookup_insert_is_Some, Hkeys.
    destruct Hp as [[-> _] | [-> _]]; unfold Board.PLAYER1, Board.PLAYER2;
      destruct (Z.eq_dec 1 p), (Z.eq_dec 2 p); intuition lia. }
  destruct Hp as [[Ea Ei] | [Ea Ei]].
  - split; [apply Hmover; congruence | apply Hother; [congruence | exact Hp2]].
  - split; [apply Hother; [congruence | exact Hp1] | apply Hmover; congruence].
Qed.

Lemma well_formed_gen_random (draws : list Z) :
  forall b b',
    well_formed b ->
    Board.gen_random_blocked_boxes b draws = Ok b' ->
    well_formed b'.
Proof.
  induction draws as [|pos draws IH]; intros b b' Hwf H; cbn in H.
  - injection H as <-. exact Hwf.
  - inv_bind H. eapply IH; [|exact H].
    unfold Py.setitem in Ha.
    destruct (Py.norm_index _ pos) as [j|]; [|discriminate].
    injection Ha as <-.
    destruct Hwf as (Hg & Hp & Hcells & Hkeys & Hp1 & Hp2).
    assert (Hkeep : forall x y,
               Board.box_blocked b x y = Ok true ->
               Board.box_blocked
                 (Board.mk (Board.rows b) (Board.columns b)
                    (<[j := Z.lor Board.BOX_BLOCK Board.BOX_BLOCKED_MASK]>
                       (Board.board b))
                    (Board.active_player b) (Board.inactive_player b)
                    (Board.players_position b)) x y = Ok true).
    { intros x y.
      apply (box_blocked_after_insert b _ j
               (Z.lor Board.BOX_BLOCK Board.BOX_BLOCKED_MASK));
        reflexivity. }
    split.
    { unfold grid_ok. cbn. rewrite length_insert. exact Hg. }
    split; [exact Hp|]. split.
    { cbn. apply Forall_insert; [exact Hcells|]. right. right. right.
      reflexivity. }
    split; [exact Hkeys|].
    split; (eapply position_ok_after; [ | | | exact Hkeep | eassumption];
            reflexivity).
Qed.

(** X11. Every board obtained from the constructor (with non-negative
    dimensions) by random blocking and by legal moves is well formed:
    its cell list has [rows * columns] entries, each of them clear,
    a player's or a block; player 1 and player 2 are one active and the
    other inactive; the dictionary holds exactly the two players; and a
    player who has moved stands on a cell of the grid that is
    blocked. *)
Theorem reachable_well_formed (b : Board.t) :
  reachable b -> well_formed b.
Proof.
  induction 1 as [rows columns Hr Hc
                 | b b' draws _ IH _ Hgen
                 | b b' moves x y _ IH Hmoves Hin Hmove].
  - apply well_formed_init; assumption.
  - eapply well_formed_gen_random; [exact IH | exact Hgen].
  - eapply well_formed_make_move; [exact IH | | exact Hmove].
    apply legal_moves_in_grid in Hmoves.
    rewrite Forall_forall in Hmoves. apply (Hmoves (x, y) Hin).
Qed.

(** The corridor is reached by two legal moves on a new 1 x 4 board. *)
Lemma reachable_well_formed_witness : well_formed corridor.
Proof.
  apply (reachable_well_formed corridor).
  apply (reach_move
           (Board.mk 1 4 [17; 4; 4; 4] 2 1
              (<[1 := Some (0, 0)]> (<[2 := None]> ∅)))
           corridor [(1, 0); (2, 0); (3, 0)] 3 0).
  - apply (reach_move (Board.init 1 4) _
             [(0, 0); (1, 0); (2, 0); (3, 0)] 0 0).
    + apply reach_new; lia.
    + vm_compute. reflexivity.
    + apply list_elem_of_here.
    + vm_compute. reflexivity.
  - vm_compute. reflexivity.
  - repeat first [apply list_elem_of_here | apply list_elem_of_further].
  - vm_compute. reflexivity.
Defined.

(** ** Random blocking *)

Lemma filter_insert_le {A : Type} (P : A -> bool) (v : A) :
  P v = false ->
  forall (l : list A) (j : nat),
    (length (List.filter P (<[j := v]> l)) <= length (List.filter P l)
     <= S (length (List.filter P (<[j := v]> l))))%nat.
Proof.
  intros Hv. induction l as [|a l IH]; intros j; [simpl; lia|].
  destruct j as [|j]; simpl.
  - rewrite Hv. destruct (P a); simpl; lia.
  - specialize (IH j). destruct (P a); simpl; lia.
Qed.

(** X12. [gen_random_blocked_boxes], for draws between 0 and
    [columns * rows - 1] on a board whose cell list matches its grid,
    raises nothing; every drawn box ends as a block, every other box is
    untouched, and so are the dimensions, the players and their
    positions.  Draws may repeat: between none and one box per draw
    stops being free. *)
Theorem gen_random_blocked_boxes_effect (draws : list Z) :
  forall b,
    grid_ok b ->
    Forall (fun pos => 0 <= pos <= Board.columns b * Board.rows b - 1)
           draws ->
    exists b',
      Board.gen_random_blocked_boxes b draws = Ok b' /\
      (forall pos, pos ∈ draws ->
                   Board.board b' !! Z.to_nat pos
                   = Some (Z.lor Board.BOX_BLOCK Board.BOX_BLOCKED_MASK)) /\
      (forall j : nat, Z.of_nat j ∉ draws ->
                       Board.board b' !! j = Board.board b !! j) /\
      Board.rows b' = Board.rows b /\
      Board.columns b' = Board.columns b /\
      Board.active_player b' = Board.active_player b /\
      Board.inactive_player b' = Board.inactive_player b /\
      Board.players_position b' = Board.players_position b /\
      (free_boxes b' <= free_boxes b <= free_boxes b' + length draws)%nat.
Proof.
  induction draws as [|pos draws IH]; intros b Hg Hdraws.
  - exists b. split; [reflexivity|]. split.
    { intros pos Hin. apply elem_of_nil in Hin. destruct Hin. }
    repeat split; cbn [length]; lia.
  - inversion Hdraws as [|? ? Hpos Hrest]; subst.
    cbn [Board.gen_random_blocked_boxes]. unfold Py.setitem.
    rewrite norm_index_inside by (rewrite Hg; lia). cbn [Py.bind].
    set (b1 := Board.mk (Board.rows b) (Board.columns b)
                 (<[Z.to_nat pos := Z.lor Board.BOX_BLOCK
                                          Board.BOX_BLOCKED_MASK]>
                    (Board.board b))
                 (Board.active_player b) (Board.inactive_player b)
                 (Board.players_position b)).
    destruct (IH b1) as (b' & Hgen & Hblocked & Hother & Hr & Hc & Ha & Hi
                         & Hp & Hfree).
    { unfold grid_ok, b1. cbn. rewrite length_insert. exact Hg. }
    { exact Hrest. }
    exists b'. split; [exact Hgen|]. split.
    { intros q Hq. apply elem_of_cons in Hq as [-> | Hq];
        [|apply Hblocked; exact Hq].
      destruct (decide (pos ∈ draws)) as [Hin | Hnin];
        [apply Hblocked; exact Hin|].
      rewrite Hother by (rewrite Z2Nat.id by lia; exact Hnin).
      unfold b1. cbn [Board.board].
      apply list_lookup_insert_eq. unfold grid_ok in Hg. lia. }
    split.
    { intros j Hj. rewrite Hother.
      - unfold b1. cbn [Board.board]. apply list_lookup_insert_ne.
        intros E. apply Hj. apply elem_of_cons. left. lia.
      - intros Hin. apply Hj. apply elem_of_cons. right. exact Hin. }
    repeat (split; [assumption|]).
    pose proof (filter_insert_le
                  (fun cell =>
                     negb (Z.land cell Board.BOX_BLOCKED_MASK
                           =? Board.BOX_BLOCKED_MASK))
                  (Z.lor Board.BOX_BLOCK Board.BOX_BLOCKED_MASK)
                  eq_refl (Board.board b) (Z.to_nat pos)) as Hstep.
    unfold free_boxes in *. unfold b1 in Hfree. cbn [Board.board] in Hfree.
    cbn [length]. lia.
Qed.

(** Three draws, two of them equal, on a new 2 x 2 board. *)
Lemma gen_random_blocked_boxes_effect_witness :
  exists b',
    Board.gen_random_blocked_boxes (Board.init 2 2) [3; 0; 3] = Ok b' /\
    Board.board b' = [24; 4; 4; 24] /\
    (free_boxes b' <= 4 <= free_boxes b' + 3)%nat.
Proof.
  destruct (gen_random_blocked_boxes_effect [3; 0; 3] (Board.init 2 2))
    as (b' & Hgen & _ & _ & _ & _ & _ & _ & _ & Hfree).
  - reflexivity.
  - repeat constructor; simpl; lia.
  - exists b'. split; [exact Hgen|]. split; [|exact Hfree].
    assert (E : Board.gen_random_blocked_boxes (Board.init 2 2) [3; 0; 3]
                = Ok (Board.mk 2 2 [24; 4; 4; 24] 1 2
                        (<[1 := None]> (<[2 := None]> ∅))))
      by (vm_compute; reflexivity).
    rewrite E in Hgen. injection Hgen as <-. reflexivity.
Defined.

(** ** Alpha-beta pruning is sound *)

Ltac case_ltb a b :=
  let c := fresh "c" in
  let E := fresh "E" in
  remember (Z.ltb a b) as c eqn:E in *; symmetry in E;
  destruct c; [apply Z.ltb_lt in E | apply Z.ltb_ge in E].

Ltac case_leb a b :=
  let c := fresh "c" in
  let E := fresh "E" in
  remember (Z.leb a b) as c eqn:E in *; symmetry in E;
  destruct c; [apply Z.leb_le in E | apply Z.leb_gt in E].

Ltac cmp_cases :=
  repeat (match goal with
          | |- context [Z.ltb ?a ?b] => case_ltb a b
          | H : context [Z.ltb ?a ?b] |- _ => case_ltb a b
          | |- context [Z.leb ?a ?b] => case_leb a b
          | H : context [Z.leb ?a ?b] |- _ => case_leb a b
          end; simpl in *; try discriminate; try lia).

Ltac num_cases :=
  unfold better, Py.max, Py.le in *;
  repeat match goal with
         | x : num |- _ => destruct x; simpl in *; try discriminate
         end;
  cmp_cases;
  simpl in *; try discriminate; try lia;
  repeat match goal with
         | H : true = true -> _ |- _ => specialize (H eq_refl)
         | H : false = true -> _ |- _ => clear H
         | H : Fin _ = Fin _ |- _ => injection H as H
         end;
  try discriminate; repeat split; try reflexivity;
  try congruence; try lia; try (f_equal; lia).

Lemma window_flip (alpha beta : num) :
  gt beta alpha = true -> gt (neg alpha) (neg beta) = true.
Proof. intros H. num_cases. Qed.

(** The bounds of a child, read from the parent: [c] and [t] are the
    negated scores of the pruned and of the full search of the child. *)
Lemma window_bounds_parent (alpha beta vc nuc : num) :
  window_bounds (neg beta) (neg alpha) vc nuc ->
  (ge (neg vc) beta = true -> ge (neg nuc) (neg vc) = true) /\
  (gt (neg vc) alpha = true -> gt beta (neg vc) = true ->
   neg vc = neg nuc) /\
  (le (neg vc) alpha = true -> le (neg nuc) (neg vc) = true).
Proof.
  unfold window_bounds. intros (H1 & H2 & H3).
  split; [|split].
  - intros Hc. assert (Hv : le vc (neg beta) = true) by num_cases.
    specialize (H1 Hv). clear - H1. unfold le in *. num_cases.
  - intros Hc1 Hc2.
    assert (Hv1 : gt vc (neg beta) = true) by num_cases.
    assert (Hv2 : gt (neg alpha) vc = true) by num_cases.
    rewrite (H2 Hv1 Hv2). reflexivity.
  - intros Hc. assert (Hv : ge vc (neg alpha) = true)
      by (unfold le in *; num_cases).
    specialize (H3 Hv). clear - H3. unfold le in *. num_cases.
Qed.

Lemma num_le_trans (a b c : num) :
  le a b = true -> le b c = true -> le a c = true.
Proof. unfold le. intros. num_cases. Qed.

Lemma better_ge (c best : num) :
  le c (better c best) = true /\ le best (better c best) = true.
Proof. unfold better, le. split; num_cases. Qed.

Lemma negamax_loop_ge (rec : Board.t -> res AI.result) (b : Board.t) :
  forall moves best_score best_move r,
    AI.negamax_loop rec b moves best_score best_move = Ok r ->
    le best_score (fst r) = true.
Proof.
  induction moves as [|move rest IH]; intros M bm r H; simpl in H.
  - injection H as <-. simpl. unfold le. num_cases.
  - inv_bind H. inv_bind H.
    destruct (gt (neg (fst a0)) M) eqn:Hgt.
    + apply IH in H. eapply num_le_trans; [|exact H].
      revert Hgt. generalize (neg (fst a0)). intros c Hgt.
      clear - Hgt. unfold le. num_cases.
    + apply IH in H. exact H.
Qed.

(** A cutoff returns a lower bound. *)
Lemma cut_bounds (alpha0 beta B c : num) :
  gt beta (max alpha0 B) = true ->
  ge (max (max alpha0 B) c) beta = true ->
  better c B = c /\ ge c beta = true /\ gt c alpha0 = true.
Proof. unfold better. intros H1 H2. num_cases. Qed.

(** Without cutoff the bests of the two loops stay related. *)
Lemma no_cut_step (alpha0 beta B M c t : num) :
  gt beta (max alpha0 B) = true ->
  loop_inv alpha0 B M ->
  (ge c beta = true -> ge t c = true) ->
  (gt c (max alpha0 B) = true -> gt beta c = true -> c = t) ->
  (le c (max alpha0 B) = true -> le t c = true) ->
  ge (max (max alpha0 B) c) beta = false ->
  loop_inv alpha0 (better c B) (better t M) /\
  max (max alpha0 B) c = max alpha0 (better c B) /\
  gt beta (max alpha0 (better c B)) = true.
Proof.
  unfold loop_inv.
  intros Hw [(I1 & I2 & I3) | (I1 & ->)] H1 H2 H3 Hn;
    unfold better, Py.max, Py.le in *;
    repeat match goal with
           | x : num |- _ => destruct x; simpl in *; try discriminate
           end;
    cmp_cases; simpl in *; try discriminate; try lia;
    repeat match goal with
           | H : true = true -> _ |- _ => specialize (H eq_refl)
           | H : false = true -> _ |- _ => clear H
           | H : Fin _ = Fin _ |- _ => injection H as H
           end;
    try discriminate; try lia;
    (split; [|split; [first [reflexivity | f_equal; lia] | reflexivity]]);
    first [ left; repeat split; first [reflexivity | lia]
          | right; split; first [reflexivity | f_equal; lia | lia] ].
Qed.

Lemma window_bounds_refl (alpha beta v : num) : window_bounds alpha beta v v.
Proof.
  unfold window_bounds. repeat split; intros; try reflexivity;
    unfold le; clear; num_cases.
Qed.

Lemma abnegamax_loop_bounds
      (recN : Board.t -> res AI.result)
      (recAB : Board.t -> num -> num -> res AI.result)
      (b : Board.t) (alpha0 beta : num) :
  (forall nb a' b' rN,
      gt b' a' = true -> recN nb = Ok rN ->
      exists rA, recAB nb a' b' = Ok rA /\
                 window_bounds a' b' (fst rA) (fst rN)) ->
  forall moves B bmA M bmN rN,
    gt beta (max alpha0 B) = true ->
    loop_inv alpha0 B M ->
    AI.negamax_loop recN b moves M bmN = Ok rN ->
    exists rA,
      AI.abnegamax_loop recAB b moves (max alpha0 B) beta B bmA = Ok rA /\
      window_bounds alpha0 beta (fst rA) (fst rN).
Proof.
  intros Hrec. induction moves as [|move rest IH];
    intros B bmA M bmN rN Hw Hinv H; cbn [AI.negamax_loop] in H;
    cbn [AI.abnegamax_loop].
  - injection H as <-. eexists. split; [reflexivity|]. cbn [fst].
    clear - Hw Hinv. unfold window_bounds, loop_inv in *.
    destruct Hinv as [(I1 & I2 & I3) | (I1 & ->)].
    + repeat split; intros; num_cases.
    + repeat split; intros; num_cases.
  - inv_bind H. rename a into nb. rewrite Ha. cbn [Py.bind].
    inv_bind H. rename a into rc.
    destruct (Hrec nb (neg beta) (neg (max alpha0 B)) rc
                (window_flip _ _ Hw) Ha0) as (rAc & HrAc & Hbc).
    rewrite HrAc. cbn [Py.bind].
    apply window_bounds_parent in Hbc as (P1 & P2 & P3).
    set (c := neg (fst rAc)) in *. set (t := neg (fst rc)) in *.
    assert (Hnext : AI.negamax_loop recN b rest (better t M)
                      (if gt t M then Some move else bmN) = Ok rN).
    { unfold better. destruct (gt t M); exact H. }
    destruct (ge (max (max alpha0 B) c) beta) eqn:Hcut.
    + eexists. split; [reflexivity|].
      destruct (cut_bounds alpha0 beta B c Hw Hcut) as (Hb & Hge & Hgt).
      assert (Hfst : fst (if gt c B then (c, Some move) else (B, bmA))
                     = better c B)
        by (unfold better; destruct (gt c B); reflexivity).
      rewrite Hfst, Hb.
      pose proof (negamax_loop_ge _ _ _ _ _ _ Hnext) as Hnu.
      pose proof (proj1 (better_ge t M)) as Ht.
      pose proof (num_le_trans _ _ _ Ht Hnu) as Htnu.
      specialize (P1 Hge).
      assert (Hcnu : le c (fst rN) = true).
      { eapply num_le_trans; [|exact Htnu]. exact P1. }
      clear - Hge Hgt Hcnu Hw. revert Hcnu. generalize (fst rN).
      intros nu Hcnu. unfold window_bounds.
      repeat split; intros; num_cases.
    + destruct (no_cut_step alpha0 beta B M c t Hw Hinv P1 P2 P3 Hcut)
        as (Hinv' & Hal & Hw').
      assert (Hbest : (if gt c B then (c, Some move) else (B, bmA))
                      = (better c B, if gt c B then Some move else bmA))
        by (unfold better; destruct (gt c B); reflexivity).
      rewrite Hbest. cbn [fst snd]. rewrite Hal.
      apply (IH _ _ _ _ _ Hw' Hinv' Hnext).
Qed.

Lemma abnegamax_fuel_bounds (player : Z) (score_func : AI.heuristic) :
  forall fuel b depth alpha beta rN,
    gt beta alpha = true ->
    AI.negamax_fuel fuel b depth player score_func = Ok rN ->
    exists rA,
      AI.abnegamax_fuel fuel b depth player alpha beta score_func = Ok rA /\
      window_bounds alpha beta (fst rA) (fst rN).
Proof.
  induction fuel as [|fuel IH]; intros b depth alpha beta rN Hw H;
    [discriminate|].
  cbn [AI.negamax_fuel] in H. cbn [AI.abnegamax_fuel].
  inv_bind H. rewrite Ha. cbn [Py.bind].
  destruct (truthy a || (depth =? 0)).
  - exists rN. split; [exact H | apply window_bounds_refl].
  - inv_bind H. rewrite Ha0. cbn [Py.bind].
    assert (Hal : max alpha NegInf = alpha) by (clear; num_cases).
    destruct (abnegamax_loop_bounds
                (fun nb => AI.negamax_fuel fuel nb (depth - 1) player
                                           score_func)
                (fun nb a' b' => AI.abnegamax_fuel fuel nb (depth - 1) player
                                                   a' b' score_func)
                b alpha beta
                (fun nb a' b' rN' Hw' Hn => IH _ _ _ _ _ Hw' Hn)
                a0 NegInf None NegInf None rN)
      as (rA & HrA & Hb).
    + rewrite Hal. exact Hw.
    + left. clear. unfold le. repeat split; num_cases.
    + exact H.
    + rewrite Hal in HrA. exists rA. split; [exact HrA | exact Hb].
Qed.

(** X13. Alpha-beta search within a window: whenever [negamax] returns
    and [alpha < beta], [abnegamax] returns too, and its score bounds
    the score of [negamax]: at or below [alpha] it is an upper bound,
    at or above [beta] a lower bound, and strictly between the two it
    is the score of [negamax]. *)
Theorem abnegamax_window (b : Board.t) (depth player : Z) (alpha beta : num)
        (score_func : AI.heuristic) (rN : AI.result) :
  gt beta alpha = true ->
  AI.negamax b depth player score_func = Ok rN ->
  exists rA,
    AI.abnegamax b depth player alpha beta score_func = Ok rA /\
    (le (fst rA) alpha = true -> le (fst rN) (fst rA) = true) /\
    (gt (fst rA) alpha = true -> gt beta (fst rA) = true ->
     fst rA = fst rN) /\
    (ge (fst rA) beta = true -> ge (fst rN) (fst rA) = true).
Proof.
  intros Hw H. unfold AI.negamax in H. unfold AI.abnegamax.
  apply (abnegamax_fuel_bounds player score_func _ _ _ _ _ _ Hw H).
Qed.

Lemma negamax_loop_top (rec : Board.t -> res AI.result) (b : Board.t) :
  forall moves best_move r,
    AI.negamax_loop rec b moves PosInf best_move = Ok r ->
    r = (PosInf, best_move).
Proof.
  induction moves as [|move rest IH]; intros bm r H; simpl in H.
  - congruence.
  - inv_bind H. inv_bind H.
    replace (gt (neg (fst a0)) PosInf) with false in H
      by (destruct (neg (fst a0)); reflexivity).
    apply IH. exact H.
Qed.

Lemma root_step (B c t : num) :
  gt PosInf B = true ->
  (ge c PosInf = true -> ge t c = true) ->
  (gt c (max NegInf B) = true -> gt PosInf c = true -> c = t) ->
  (le c (max NegInf B) = true -> le t c = true) ->
  gt t B = gt c B /\
  (gt c B = true -> t = c) /\
  (ge (max (max NegInf B) c) PosInf = true -> c = PosInf /\ gt c B = true) /\
  (ge (max (max NegInf B) c) PosInf = false ->
   max (max NegInf B) c = max NegInf (better c B) /\
   gt PosInf (better c B) = true).
Proof. intros HB P1 P2 P3. num_cases. Qed.

Lemma abnegamax_loop_root
      (recN : Board.t -> res AI.result)
      (recAB : Board.t -> num -> num -> res AI.result) (b : Board.t) :
  (forall nb a' b' rN,
      gt b' a' = true -> recN nb = Ok rN ->
      exists rA, recAB nb a' b' = Ok rA /\
                 window_bounds a' b' (fst rA) (fst rN)) ->
  forall moves B bm rN,
    gt PosInf B = true ->
    AI.negamax_loop recN b moves B bm = Ok rN ->
    AI.abnegamax_loop recAB b moves (max NegInf B) PosInf B bm = Ok rN.
Proof.
  intros Hrec. induction moves as [|move rest IH]; intros B bm rN HB H;
    cbn [AI.negamax_loop] in H; cbn [AI.abnegamax_loop].
  - exact H.
  - inv_bind H. rename a into nb. rewrite Ha. cbn [Py.bind].
    inv_bind H. rename a into rc.
    assert (Hw : gt PosInf (max NegInf B) = true) by (clear - HB; num_cases).
    destruct (Hrec nb (neg PosInf) (neg (max NegInf B)) rc
                (window_flip _ _ Hw) Ha0) as (rAc & HrAc & Hbc).
    rewrite HrAc. cbn [Py.bind].
    apply window_bounds_parent in Hbc as (P1 & P2 & P3).
    set (c := neg (fst rAc)) in *. set (t := neg (fst rc)) in *.
    destruct (root_step B c t HB P1 P2 P3) as (Hsame & Heq & Hcut & Hgo).
    rewrite Hsame in H.
    destruct (ge (max (max NegInf B) c) PosInf) eqn:Hge.
    + destruct (Hcut eq_refl) as [Hc Hgt]. rewrite Hgt in *.
      cbv iota in H |- *. rewrite (Heq eq_refl) in H. rewrite Hc in H |- *.
      apply negamax_loop_top in H. rewrite H. reflexivity.
    + destruct (Hgo eq_refl) as [Hal Hnext].
      destruct (gt c B) eqn:Hgt; cbn [fst snd].
      * rewrite (Heq eq_refl) in H.
        unfold better in Hal, Hnext. rewrite Hgt in Hal, Hnext.
        rewrite Hal. apply IH; assumption.
      * unfold better in Hal, Hnext. rewrite Hgt in Hal, Hnext.
        rewrite Hal. apply IH; assumption.
Qed.

(** X14. Pruning loses nothing at the root: whenever [negamax] returns,
    [abnegamax] called with the widest window returns the same score
    and the same move, cutoffs or not. *)
Theorem abnegamax_is_negamax (b : Board.t) (depth player : Z)
        (score_func : AI.heuristic) (r : AI.result) :
  AI.negamax b depth player score_func = Ok r ->
  AI.abnegamax b depth player NegInf PosInf score_func = Ok r.
Proof.
  unfold AI.negamax, AI.abnegamax.
  destruct (AI.search_fuel b depth) as [|fuel]; [discriminate|].
  cbn [AI.negamax_fuel AI.abnegamax_fuel]. intros H.
  inv_bind H. rewrite Ha. cbn [Py.bind].
  destruct (truthy a || (depth =? 0)); [exact H|].
  inv_bind H. rewrite Ha0. cbn [Py.bind].
  apply (abnegamax_loop_root
           (fun nb => AI.negamax_fuel fuel nb (depth - 1) player score_func)
           (fun nb a' b' => AI.abnegamax_fuel fuel nb (depth - 1) player
                                              a' b' score_func)
           b
           (fun nb a' b' rN Hw Hn =>
              abnegamax_fuel_bounds player score_func _ _ _ _ _ _ Hw Hn)
           a0 NegInf None r eq_refl H).
Qed.

(** On the 3 x 3 board with [(0, 1)] taken, searched at depth 2 for
    player 2, cutoffs occur and the result is that of [negamax]. *)
Lemma abnegamax_is_negamax_witness :
  AI.abnegamax_cut taken_0_1 2 2 NegInf PosInf AI.score_func2
  = Ok ((Fin 3, Some (1, 1)), true) /\
  AI.abnegamax taken_0_1 2 2 NegInf PosInf AI.score_func2
  = Ok (Fin 3, Some (1, 1)).
Proof.
  split; [vm_compute; reflexivity|].
  apply (abnegamax_is_negamax taken_0_1 2 2 AI.score_func2).
  vm_compute. reflexivity.
Defined.

Lemma abnegamax_window_witness :
  exists rA,
    AI.abnegamax taken_0_1 2 2 (Fin 5) (Fin 9) AI.score_func2 = Ok rA /\
    (le (fst rA) (Fin 5) = true -> le (Fin 3) (fst rA) = true) /\
    (gt (fst rA) (Fin 5) = true -> gt (Fin 9) (fst rA) = true ->
     fst rA = Fin 3) /\
    (ge (fst rA) (Fin 9) = true -> ge (Fin 3) (fst rA) = true).
Proof.
  apply (abnegamax_window taken_0_1 2 2 (Fin 5) (Fin 9) AI.score_func2
           (Fin 3, Some (1, 1))).
  - reflexivity.
  - vm_compute. reflexivity.
Defined.

(** ** The searches return a legal move *)

Lemma make_move_copy_players_ok (b nb : Board.t) (x y : Z) :
  Board.make_move_copy b x y = Ok nb -> players_ok nb.
Proof.
  unfold Board.make_move_copy. rewrite pickle_roundtrip_eq. intros H.
  apply make_move_moved in H as (j & cell & _ & _ & _ & ->).
  apply moved_fields.
Qed.

Lemma in_play_moves (b : Board.t) (w : value) :
  players_ok b -> Board.is_game_over b = Ok w -> truthy w = false ->
  exists move rest, Board.get_legal_moves b None = Ok (move :: rest).
Proof.
  intros Hp H Hw. unfold Board.is_game_over in H. inv_bind H.
  change (Board.get_legal_moves b None)
    with (Board.get_legal_moves b (Some (Board.active_player b))).
  destruct a as [|move rest]; cbn in H.
  - injection H as <-.
    destruct Hp as [[_ Hi]|[_ Hi]]; rewrite Hi in Hw; discriminate.
  - eauto.
Qed.

Lemma abnegamax_loop_picks
      (rec : Board.t -> num -> num -> res AI.result) (b : Board.t)
      (P : Z * Z -> Prop) :
  (forall move nb a' b' r,
      Board.make_move_copy b (fst move) (snd move) = Ok nb ->
      rec nb a' b' = Ok r -> exists n, fst r = Fin n) ->
  forall moves alpha beta B bm r,
    Forall P moves ->
    B = NegInf \/ picks P (B, bm) ->
    AI.abnegamax_loop rec b moves alpha beta B bm = Ok r ->
    (moves = [] /\ r = (B, bm)) \/ picks P r.
Proof.
  intros Hrec. induction moves as [|move rest IH];
    intros alpha beta B bm r HP HB H; cbn [AI.abnegamax_loop] in H.
  - left. split; congruence.
  - right. inv_bind H. inv_bind H.
    destruct (Hrec move a _ _ a0 Ha Ha0) as [n Hn]. rewrite Hn in H.
    cbn [neg] in H.
    apply Forall_cons in HP as [Hm HP].
    assert (Hbest : picks P (if gt (Fin (- n)) B then (Fin (- n), Some move)
                             else (B, bm))).
    { destruct (gt (Fin (- n)) B) eqn:Hgt.
      - split; cbn; eauto.
      - destruct HB as [->|HB]; [discriminate|exact HB]. }
    destruct (ge (max alpha (Fin (- n))) beta).
    + injection H as <-. exact Hbest.
    + apply IH in H; [|exact HP|].
      * destruct H as [[_ ->]|H]; [|exact H].
        destruct (gt (Fin (- n)) B); exact Hbest.
      * right. destruct (gt (Fin (- n)) B); exact Hbest.
Qed.

Lemma negamax_loop_picks
      (rec : Board.t -> res AI.result) (b : Board.t) (P : Z * Z -> Prop) :
  (forall move nb r,
      Board.make_move_copy b (fst move) (snd move) = Ok nb ->
      rec nb = Ok r -> exists n, fst r = Fin n) ->
  forall moves B bm r,
    Forall P moves ->
    B = NegInf \/ picks P (B, bm) ->
    AI.negamax_loop rec b moves B bm = Ok r ->
    (moves = [] /\ r = (B, bm)) \/ picks P r.
Proof.
  intros Hrec. induction moves as [|move rest IH];
    intros B bm r HP HB H; cbn [AI.negamax_loop] in H.
  - left. split; congruence.
  - right. inv_bind H. inv_bind H.
    destruct (Hrec move a a0 Ha Ha0) as [n Hn]. rewrite Hn in H.
    cbn [neg] in H.
    apply Forall_cons in HP as [Hm HP].
    destruct (gt (Fin (- n)) B) eqn:Hgt.
    + apply IH in H; [|exact HP|right; split; cbn; eauto].
      destruct H as [[_ ->]|H]; [split; cbn; eauto|exact H].
    + destruct HB as [->|HB]; [discriminate|].
      apply IH in H; [|exact HP|right; exact HB].
      destruct H as [[_ ->]|H]; [exact HB|exact H].
Qed.

Lemma abnegamax_fuel_fin (player : Z) (score_func : AI.heuristic) :
  forall fuel b depth alpha beta r,
    players_ok b ->
    AI.abnegamax_fuel fuel b depth player alpha beta score_func = Ok r ->
    exists n, fst r = Fin n.
Proof.
  induction fuel as [|fuel IH]; intros b depth alpha beta r Hp H;
    [discriminate|].
  cbn [AI.abnegamax_fuel] in H. inv_bind H.
  destruct (truthy a || (depth =? 0)) eqn:Hleaf.
  - inv_bind H. injection H as <-. cbn. eauto.
  - apply orb_false_iff in Hleaf as [Hw _].
    destruct (in_play_moves b a Hp Ha Hw) as (move & rest & Hmoves).
    rewrite Hmoves in H. cbn [Py.bind] in H.
    apply (abnegamax_loop_picks _ b (fun _ => True)) in H.
    + destruct H as [[? _]|[Hn _]]; [discriminate|exact Hn].
    + intros mv nb a' b' r' Hnb Hr'.
      eapply IH; [|exact Hr'].
      eapply make_move_copy_players_ok. exact Hnb.
    + apply Forall_forall. intros; exact I.
    + left. reflexivity.
Qed.

Lemma negamax_fuel_fin (player : Z) (score_func : AI.heuristic) :
  forall fuel b depth r,
    players_ok b ->
    AI.negamax_fuel fuel b depth player score_func = Ok r ->
    exists n, fst r = Fin n.
Proof.
  induction fuel as [|fuel IH]; intros b depth r Hp H; [discriminate|].
  cbn [AI.negamax_fuel] in H. inv_bind H.
  destruct (truthy a || (depth =? 0)) eqn:Hleaf.
  - inv_bind H. injection H as <-. cbn. eauto.
  - apply orb_false_iff in Hleaf as [Hw _].
    destruct (in_play_moves b a Hp Ha Hw) as (move & rest & Hmoves).
    rewrite Hmoves in H. cbn [Py.bind] in H.
    apply (negamax_loop_picks _ b (fun _ => True)) in H.
    + destruct H as [[? _]|[Hn _]]; [discriminate|exact Hn].
    + intros mv nb r' Hnb Hr'.
      eapply IH; [|exact Hr'].
      eapply make_move_copy_players_ok. exact Hnb.
    + apply Forall_forall. intros; exact I.
    + left. reflexivity.
Qed.

Lemma in_play_nonempty (b : Board.t) :
  Board.is_game_over b = Ok VFalse ->
  exists move rest, Board.get_legal_moves b None = Ok (move :: rest).
Proof.
  intros H. unfold Board.is_game_over in H. inv_bind H.
  change (Board.get_legal_moves b None)
    with (Board.get_legal_moves b (Some (Board.active_player b))).
  destruct a as [|move rest]; cbn in H; [discriminate|eauto].
Qed.

Lemma abnegamax_picks (b : Board.t) (depth player : Z) (alpha beta : num)
      (score_func : AI.heuristic) (moves : list (Z * Z)) (r : AI.result) :
  Board.is_game_over b = Ok VFalse -> depth <> 0 ->
  Board.get_legal_moves b None = Ok moves ->
  AI.abnegamax b depth player alpha beta score_func = Ok r ->
  picks (fun m => m ∈ moves) r.
Proof.
  intros Hover Hd Hmoves. unfold AI.abnegamax.
  destruct (AI.search_fuel b depth) as [|fuel]; [discriminate|].
  cbn [AI.abnegamax_fuel]. rewrite Hover. cbn [Py.bind truthy orb].
  apply Z.eqb_neq in Hd. rewrite Hd. rewrite Hmoves. cbn [Py.bind].
  intros H.
  destruct (in_play_nonempty b Hover) as (move & rest & Hne).
  apply (abnegamax_loop_picks _ b (fun m => m ∈ moves)) in H.
  - destruct H as [[-> _]|H]; [congruence|exact H].
  - intros mv nb a' b' r' Hnb Hr'.
    eapply abnegamax_fuel_fin; [|exact Hr'].
    eapply make_move_copy_players_ok. exact Hnb.
  - apply Forall_forall. intros m Hm. exact Hm.
  - left. reflexivity.
Qed.

Lemma negamax_picks (b : Board.t) (depth player : Z)
      (score_func : AI.heuristic) (moves : list (Z * Z)) (r : AI.result) :
  Board.is_game_over b = Ok VFalse -> depth <> 0 ->
  Board.get_legal_moves b None = Ok moves ->
  AI.negamax b depth player score_func = Ok r ->
  picks (fun m => m ∈ moves) r.
Proof.
  intros Hover Hd Hmoves. unfold AI.negamax.
  destruct (AI.search_fuel b depth) as [|fuel]; [discriminate|].
  cbn [AI.negamax_fuel]. rewrite Hover. cbn [Py.bind truthy orb].
  apply Z.eqb_neq in Hd. rewrite Hd. rewrite Hmoves. cbn [Py.bind].
  intros H.
  destruct (in_play_nonempty b Hover) as (move & rest & Hne).
  apply (negamax_loop_picks _ b (fun m => m ∈ moves)) in H.
  - destruct H as [[-> _]|H]; [congruence|exact H].
  - intros mv nb r' Hnb Hr'.
    eapply negamax_fuel_fin; [|exact Hr'].
    eapply make_move_copy_players_ok. exact Hnb.
  - apply Forall_forall. intros m Hm. exact Hm.
  - left. reflexivity.
Qed.

Lemma range_down_positive (start d : Z) : d ∈ range_down start -> 1 <= d.
Proof.
  unfold range_down. intros H. apply list_elem_of_fmap in H as (k & -> & Hk).
  apply elem_of_seq in Hk. lia.
Qed.

Lemma power_loop_picks (run : Z -> res AI.result) (P : Z * Z -> Prop) :
  forall depths best r,
    (forall d r', d ∈ depths -> run d = Ok r' -> picks P r') ->
    picks P best ->
    AI.power_loop run depths best = Ok r ->
    picks P r.
Proof.
  induction depths as [|d rest IH]; intros best r Hrun Hbest H;
    cbn [AI.power_loop] in H.
  - injection H as <-. exact Hbest.
  - inv_bind H.
    assert (Ha' : picks P a) by (eapply Hrun; [left|exact Ha]).
    destruct (gt (fst a) (Fin (- AI.MAX_SCORE))).
    + injection H as <-. exact Ha'.
    + eapply IH; [|exact Ha'|exact H].
      intros d' r' Hd'. apply Hrun. right. exact Hd'.
Qed.

Lemma power_abnegamax_picks (b : Board.t) (depth player : Z)
      (alpha beta : num) (score_func : AI.heuristic)
      (moves : list (Z * Z)) (r : AI.result) :
  Board.is_game_over b = Ok VFalse -> depth <> 0 ->
  Board.get_legal_moves b None = Ok moves ->
  AI.power_abnegamax b depth player alpha beta score_func = Ok r ->
  picks (fun m => m ∈ moves) r.
Proof.
  intros Hover Hd Hmoves H. unfold AI.power_abnegamax in H. inv_bind H.
  assert (Ha' : picks (fun m => m ∈ moves) a)
    by (eapply abnegamax_picks; eassumption).
  destruct (le (fst a) (Fin (- AI.MAX_SCORE))).
  - eapply power_loop_picks; [|exact Ha'|exact H].
    intros d r' Hin Hr'. apply range_down_positive in Hin.
    eapply (abnegamax_picks b d); [exact Hover|lia|exact Hmoves|exact Hr'].
  - injection H as <-. exact Ha'.
Qed.

(** X15. While the game is in play, a search of depth other than 0
    returns an integer score and a legal move of the active player:
    whatever the window, the heuristic and the player asked for, the
    result of [negamax], [abnegamax] and [power_abnegamax] is never a
    score without a move, nor an infinite score. *)
Theorem search_picks_legal_move (b : Board.t) (depth player : Z)
        (alpha beta : num) (score_func : AI.heuristic)
        (moves : list (Z * Z)) (r : AI.result) :
  Board.is_game_over b = Ok VFalse -> depth <> 0 ->
  Board.get_legal_moves b None = Ok moves ->
  AI.negamax b depth player score_func = Ok r \/
  AI.abnegamax b depth player alpha beta score_func = Ok r \/
  AI.power_abnegamax b depth player alpha beta score_func = Ok r ->
  exists n x y, r = (Fin n, Some (x, y)) /\ (x, y) ∈ moves.
Proof.
  intros Hover Hd Hmoves H.
  assert (Hp : picks (fun m => m ∈ moves) r).
  { destruct H as [H|[H|H]].
    - eapply negamax_picks; eassumption.
    - eapply abnegamax_picks; eassumption.
    - eapply power_abnegamax_picks; eassumption. }
  destruct r as [s mv]. destruct Hp as [[n Hn] ([x y] & Hm & Hin)].
  cbn in Hn, Hm. subst. eauto.
Qed.

Lemma search_picks_legal_move_witness :
  exists n x y,
    (Fin 3, Some (1, 1)) = (Fin n, Some (x, y)) /\
    (x, y) ∈ [(0, 0); (1, 0); (2, 0); (1, 1); (2, 1); (0, 2); (1, 2); (2, 2)].
Proof.
  apply (search_picks_legal_move taken_0_1 2 2 NegInf PosInf AI.score_func2
           _ (Fin 3, Some (1, 1))).
  - vm_compute. reflexivity.
  - discriminate.
  - vm_compute. reflexivity.
  - right. left. vm_compute. reflexivity.
Defined.

(** ** The searches raise nothing on the boards of a game *)

Lemma well_formed_players (b : Board.t) :
  well_formed b ->
  (Board.active_player b = 1 \/ Board.active_player b = 2) /\
  (Board.inactive_player b = 1 \/ Board.inactive_player b = 2).
Proof.
  intros (_ & [[-> ->]|[-> ->]] & _); split; auto.
Qed.

Lemma well_formed_moves (b : Board.t) (p : Z) :
  well_formed b -> p = 1 \/ p = 2 ->
  exists moves, Board.get_legal_moves b (Some p) = Ok moves.
Proof.
  intros Hwf Hp. apply get_legal_moves_returns; [apply Hwf|].
  destruct Hwf as (_ & _ & _ & Hkeys & _). apply Hkeys. exact Hp.
Qed.

Lemma well_formed_is_game_over (b : Board.t) :
  well_formed b -> exists w, Board.is_game_over b = Ok w.
Proof.
  intros Hwf. destruct (well_formed_players b Hwf) as [Ha Hi].
  destruct (well_formed_moves b _ Hwf Ha) as [am Ham].
  destruct (well_formed_moves b _ Hwf Hi) as [im Him].
  unfold Board.is_game_over. rewrite Ham. cbn [Py.bind].
  destruct (negb (Board.nonempty am)); [eauto|].
  rewrite Him. cbn [Py.bind].
  destruct (negb (Board.nonempty im)); eauto.
Qed.

Lemma well_formed_child (b : Board.t) (player : option Z)
      (moves : list (Z * Z)) (m : Z * Z) :
  well_formed b ->
  Board.get_legal_moves b player = Ok moves -> m ∈ moves ->
  exists nb, Board.make_move b (fst m) (snd m) = Ok nb /\
             Board.make_move_copy b (fst m) (snd m) = Ok nb /\
             well_formed nb.
Proof.
  intros Hwf Hmoves Hm.
  pose proof (legal_moves_unblocked _ _ _ Hmoves) as Hfree.
  pose proof (legal_moves_in_grid _ _ _ Hmoves) as Hgrid.
  rewrite Forall_forall in Hfree, Hgrid.
  destruct (make_move_unblocked b (fst m) (snd m) (Hfree m Hm))
    as (j & cell & _ & _ & _ & Hmv & Hcp).
  exists (moved b j (fst m) (snd m)). split; [exact Hmv|]. split; [exact Hcp|].
  eapply well_formed_make_move; [exact Hwf|exact (Hgrid m Hm)|exact Hmv].
Qed.

Lemma score_func2_safe : safe AI.score_func2.
Proof.
  intros b w p Hwf. unfold AI.score_func2.
  destruct (AI.terminal_score w p); [eauto|].
  destruct (well_formed_players b Hwf) as [Ha Hi].
  destruct (well_formed_moves b _ Hwf Ha) as [am ->].
  destruct (well_formed_moves b _ Hwf Hi) as [im ->].
  cbn [Py.bind]. eauto.
Qed.

Lemma abnegamax_loop_no_raise
      (rec : Board.t -> num -> num -> res AI.result) (b : Board.t) :
  (forall nb a' b' e, well_formed nb -> rec nb a' b' <> Raise e) ->
  forall moves alpha beta B bm e,
    Forall (fun m => exists nb,
                Board.make_move_copy b (fst m) (snd m) = Ok nb /\
                well_formed nb) moves ->
    AI.abnegamax_loop rec b moves alpha beta B bm <> Raise e.
Proof.
  intros Hrec. induction moves as [|move rest IH];
    intros alpha beta B bm e Hall; cbn [AI.abnegamax_loop].
  - discriminate.
  - apply Forall_cons in Hall as [(nb & -> & Hwf) Hall]. cbn [Py.bind].
    pose proof (Hrec nb (neg beta) (neg alpha)) as Hnb.
    destruct (rec nb (neg beta) (neg alpha)) as [r|e'|]; cbn [Py.bind].
    + destruct (ge _ beta); [discriminate|]. apply IH. exact Hall.
    + exfalso. exact (Hnb e' Hwf eq_refl).
    + discriminate.
Qed.

Lemma negamax_loop_no_raise
      (rec : Board.t -> res AI.result) (b : Board.t) :
  (forall nb e, well_formed nb -> rec nb <> Raise e) ->
  forall moves B bm e,
    Forall (fun m => exists nb,
                Board.make_move_copy b (fst m) (snd m) = Ok nb /\
                well_formed nb) moves ->
    AI.negamax_loop rec b moves B bm <> Raise e.
Proof.
  intros Hrec. induction moves as [|move rest IH];
    intros B bm e Hall; cbn [AI.negamax_loop].
  - discriminate.
  - apply Forall_cons in Hall as [(nb & -> & Hwf) Hall]. cbn [Py.bind].
    pose proof (Hrec nb) as Hnb.
    destruct (rec nb) as [r|e'|]; cbn [Py.bind].
    + destruct (gt _ B); apply IH; exact Hall.
    + exfalso. exact (Hnb e' Hwf eq_refl).
    + discriminate.
Qed.

Lemma well_formed_children (b : Board.t) (moves : list (Z * Z)) :
  well_formed b -> Board.get_legal_moves b None = Ok moves ->
  Forall (fun m => exists nb,
              Board.make_move_copy b (fst m) (snd m) = Ok nb /\
              well_formed nb) moves.
Proof.
  intros Hwf Hmoves. apply Forall_forall. intros m Hm.
  destruct (well_formed_child b None moves m Hwf Hmoves Hm)
    as (nb & _ & Hcp & Hnb).
  eauto.
Qed.

Lemma abnegamax_fuel_no_raise (player : Z) (score_func : AI.heuristic) :
  safe score_func ->
  forall fuel b depth alpha beta e,
    well_formed b ->
    AI.abnegamax_fuel fuel b depth player alpha beta score_func <> Raise e.
Proof.
  intros Hsafe. induction fuel as [|fuel IH];
    intros b depth alpha beta e Hwf; [discriminate|].
  cbn [AI.abnegamax_fuel].
  destruct (well_formed_is_game_over b Hwf) as [w ->]. cbn [Py.bind].
  destruct (truthy w || (depth =? 0)).
  - destruct (Hsafe b w player Hwf) as [s ->]. discriminate.
  - destruct (well_formed_players b Hwf) as [Ha _].
    destruct (well_formed_moves b _ Hwf Ha) as [moves Hmoves].
    change (Board.get_legal_moves b (Some (Board.active_player b)))
      with (Board.get_legal_moves b None) in Hmoves.
    rewrite Hmoves. cbn [Py.bind].
    apply abnegamax_loop_no_raise.
    + intros nb a' b' e' Hnb. apply IH. exact Hnb.
    + apply well_formed_children; assumption.
Qed.

Lemma negamax_fuel_no_raise (player : Z) (score_func : AI.heuristic) :
  safe score_func ->
  forall fuel b depth e,
    well_formed b ->
    AI.negamax_fuel fuel b depth player score_func <> Raise e.
Proof.
  intros Hsafe. induction fuel as [|fuel IH];
    intros b depth e Hwf; [discriminate|].
  cbn [AI.negamax_fuel].
  destruct (well_formed_is_game_over b Hwf) as [w ->]. cbn [Py.bind].
  destruct (truthy w || (depth =? 0)).
  - destruct (Hsafe b w player Hwf) as [s ->]. discriminate.
  - destruct (well_formed_players b Hwf) as [Ha _].
    destruct (well_formed_moves b _ Hwf Ha) as [moves Hmoves].
    change (Board.get_legal_moves b (Some (Board.active_player b)))
      with (Board.get_legal_moves b None) in Hmoves.
    rewrite Hmoves. cbn [Py.bind].
    apply negamax_loop_no_raise.
    + intros nb e' Hnb. apply IH. exact Hnb.
    + apply well_formed_children; assumption.
Qed.

Lemma power_loop_no_raise (run : Z -> res AI.result) :
  (forall d e, run d <> Raise e) ->
  forall depths best e, AI.power_loop run depths best <> Raise e.
Proof.
  intros Hrun. induction depths as [|d rest IH]; intros best e;
    cbn [AI.power_loop]; [discriminate|].
  pose proof (Hrun d) as Hd.
  destruct (run d) as [r|e'|]; cbn [Py.bind].
  - destruct (gt _ _); [discriminate|apply IH].
  - exfalso. exact (Hd e' eq_refl).
  - discriminate.
Qed.

Lemma power_abnegamax_no_raise (b : Board.t) (depth player : Z)
      (alpha beta : num) (score_func : AI.heuristic) (e : exn) :
  safe score_func -> well_formed b ->
  AI.power_abnegamax b depth player alpha beta score_func <> Raise e.
Proof.
  intros Hsafe Hwf. unfold AI.power_abnegamax.
  pose proof (abnegamax_fuel_no_raise player score_func Hsafe
                (AI.search_fuel b depth) b depth alpha beta) as H0.
  fold (AI.abnegamax b depth player alpha beta score_func) in H0.
  destruct (AI.abnegamax b depth player alpha beta score_func)
    as [r|e'|]; cbn [Py.bind].
  - destruct (le _ _); [|discriminate].
    apply power_loop_no_raise. intros d e0.
    apply abnegamax_fuel_no_raise; assumption.
  - exfalso. exact (H0 e' Hwf eq_refl).
  - discriminate.
Qed.


(** X16. On a well-formed board the searches raise none of the
    exceptions of the operations they are made of ([IndexError],
    [KeyError], [AssertionError], [TypeError], [ValueError],
    [OverflowError], [ZeroDivisionError]), with a heuristic that returns
    a score on every well-formed board: whatever the depth, the player,
    the window and the number [fuel] of nested calls the search may
    make, [negamax] and [abnegamax] either return a result or stop for
    having nested [fuel] calls, and [power_abnegamax] raises none of
    them either.  [negamax] and [abnegamax] return a result when [fuel]
    exceeds a depth that is not negative, or the number of free boxes.
    Nothing is said of a search that needs more nested calls than the
    interpreter allows. *)
Theorem searches_raise_nothing (fuel : nat) (b : Board.t) (depth player : Z)
        (alpha beta : num) (score_func : AI.heuristic) :
  safe score_func -> well_formed b ->
  (forall e, AI.negamax_fuel fuel b depth player score_func <> Raise e) /\
  (forall e, AI.abnegamax_fuel fuel b depth player alpha beta score_func
             <> Raise e) /\
  (forall e, AI.power_abnegamax b depth player alpha beta score_func
             <> Raise e) /\
  (returns score_func ->
   0 <= depth < Z.of_nat fuel \/ (free_boxes b < fuel)%nat ->
   (exists r, AI.negamax_fuel fuel b depth player score_func = Ok r) /\
   (exists r, AI.abnegamax_fuel fuel b depth player alpha beta score_func
              = Ok r)).
Proof.
  intros Hsafe Hwf.
  pose proof (fun e => negamax_fuel_no_raise player score_func Hsafe
                         fuel b depth e Hwf) as HN.
  pose proof (fun e => abnegamax_fuel_no_raise player score_func Hsafe
                         fuel b depth alpha beta e Hwf) as HA.
  split; [exact HN|]. split; [exact HA|]. split.
  { intros e. apply power_abnegamax_no_raise; assumption. }
  intros Hret Hfuel.
  pose proof (negamax_fuel_enough player score_func Hret fuel b depth Hfuel)
    as HfN.
  pose proof (abnegamax_fuel_enough player score_func Hret fuel b depth
                alpha beta Hfuel) as HfA.
  split.
  - destruct (AI.negamax_fuel fuel b depth player score_func) as [r|e|];
      [eauto|exfalso; exact (HN e eq_refl)|contradiction].
  - destruct (AI.abnegamax_fuel fuel b depth player alpha beta score_func)
      as [r|e|]; [eauto|exfalso; exact (HA e eq_refl)|contradiction].
Qed.

(** A search of depth 2 on the new 3 x 3 board, three nested calls
    allowed. *)
Lemma searches_raise_nothing_witness :
  (exists r, AI.negamax_fuel 3 (Board.init 3 3) 2 1 AI.score_func2 = Ok r) /\
  (exists r, AI.abnegamax_fuel 3 (Board.init 3 3) 2 1 NegInf PosInf
                               AI.score_func2 = Ok r).
Proof.
  destruct (searches_raise_nothing 3 (Board.init 3 3) 2 1 NegInf PosInf
              AI.score_func2 score_func2_safe
              (well_formed_init 3 3 ltac:(lia) ltac:(lia)))
    as (_ & _ & _ & H).
  apply H.
  - apply heuristics_return.
  - left. lia.
Defined.

(** ** The heuristics and the two seats *)

Lemma unpack_pos_unplaced (b : Board.t) (p : Z) :
  Board.players_position b !! p = Some None ->
  AI.unpack_pos b p = Raise TypeError.
Proof.
  intros H. unfold AI.unpack_pos, Board.player_pos, dict_get. rewrite H.
  rewrite bool_decide_eq_true_2 by eauto. reflexivity.
Qed.

(** X17. Before the active player is placed, only [score_func2] can
    score a position in play: on a well-formed board whose active
    player has no position yet, [score_func2] returns a score, and
    [score_func1], [score_func3] and [score_func4] raise [TypeError]. *)
Theorem heuristics_before_placement (b : Board.t) (winner : value)
        (player : Z) :
  well_formed b -> truthy winner = false ->
  Board.players_position b !! Board.active_player b = Some None ->
  (exists s, AI.score_func2 b winner player = Ok s) /\
  AI.score_func1 b winner player = Raise TypeError /\
  AI.score_func3 b winner player = Raise TypeError /\
  AI.score_func4 b winner player = Raise TypeError.
Proof.
  intros Hwf Hw Hpos. split; [apply score_func2_safe; exact Hwf|].
  unfold AI.score_func1, AI.score_func3, AI.score_func4, AI.terminal_score,
    AI.inv_dist_to_centre.
  rewrite Hw, (unpack_pos_unplaced b _ Hpos). repeat split.
Qed.

Lemma heuristics_before_placement_witness :
  (exists s, AI.score_func2 (Board.init 3 3) VFalse 1 = Ok s) /\
  AI.score_func1 (Board.init 3 3) VFalse 1 = Raise TypeError /\
  AI.score_func3 (Board.init 3 3) VFalse 1 = Raise TypeError /\
  AI.score_func4 (Board.init 3 3) VFalse 1 = Raise TypeError.
Proof.
  apply (heuristics_before_placement (Board.init 3 3) VFalse 1).
  - apply well_formed_init; lia.
  - reflexivity.
  - reflexivity.
Defined.

Lemma free_row_swap (b : Board.t) (y : Z) :
  forall xs moves,
    Board.free_row (swap_roles b) y xs moves = Board.free_row b y xs moves.
Proof.
  induction xs as [|x xs IH]; intros moves; cbn [Board.free_row];
    [reflexivity|].
  change (Board.box_blocked (swap_roles b) x y)
    with (Board.box_blocked b x y).
  destruct (Board.box_blocked b x y) as [blocked| |]; cbn [Py.bind];
    [apply IH|reflexivity|reflexivity].
Qed.

Lemma free_rows_swap (b : Board.t) :
  forall ys moves,
    Board.free_rows (swap_roles b) ys moves = Board.free_rows b ys moves.
Proof.
  induction ys as [|y ys IH]; intros moves; cbn [Board.free_rows];
    [reflexivity|].
  rewrite free_row_swap.
  change (Board.columns (swap_roles b)) with (Board.columns b).
  destruct (Board.free_row b y _ moves) as [moves'| |]; cbn [Py.bind];
    [apply IH|reflexivity|reflexivity].
Qed.

Lemma ray_swap (b : Board.t) (dx dy : Z) :
  forall fuel x y moves,
    Board.ray fuel (swap_roles b) dx dy x y moves
    = Board.ray fuel b dx dy x y moves.
Proof.
  induction fuel as [|fuel IH]; intros x y moves; cbn [Board.ray];
    [reflexivity|].
  change (Board.columns (swap_roles b)) with (Board.columns b).
  change (Board.rows (swap_roles b)) with (Board.rows b).
  destruct (_ && _); [|reflexivity].
  change (Board.box_blocked (swap_roles b) (x + dx) (y + dy))
    with (Board.box_blocked b (x + dx) (y + dy)).
  destruct (Board.box_blocked b (x + dx) (y + dy)) as [[|]| |];
    cbn [Py.bind]; [reflexivity|apply IH|reflexivity|reflexivity].
Qed.

Lemma rays_swap (b : Board.t) (loc : Z * Z) :
  forall dirs moves,
    Board.rays (swap_roles b) loc dirs moves = Board.rays b loc dirs moves.
Proof.
  induction dirs as [|[dx dy] dirs IH]; intros moves; cbn [Board.rays];
    [reflexivity|].
  change (Board.ray_fuel (swap_roles b)) with (Board.ray_fuel b).
  rewrite ray_swap.
  destruct (Board.ray _ b dx dy _ _ moves) as [moves'| |]; cbn [Py.bind];
    [apply IH|reflexivity|reflexivity].
Qed.

Lemma get_legal_moves_swap (b : Board.t) (p : Z) :
  Board.get_legal_moves (swap_roles b) (Some p)
  = Board.get_legal_moves b (Some p).
Proof.
  unfold Board.get_legal_moves.
  change (Board.players_position (swap_roles b))
    with (Board.players_position b).
  destruct (dict_get (Board.players_position b) p) as [[xy|]| |];
    cbn [Py.bind]; try reflexivity.
  - apply rays_swap.
  - unfold Board.get_free_boxes.
    change (Board.rows (swap_roles b)) with (Board.rows b).
    apply free_rows_swap.
Qed.

Lemma manhattan_distance_sym (x1 y1 x2 y2 : Z) :
  AI.manhattan_distance x1 y1 x2 y2 = AI.manhattan_distance x2 y2 x1 y1.
Proof. unfold AI.manhattan_distance. lia. Qed.

(** X18. In a position in play the heuristics score the active seat,
    whatever player is asked for: with the roles of the two players
    exchanged, [score_func1] and [score_func2] return the opposite
    score, and [score_func3] and [score_func4] the same score. *)
Theorem heuristics_swap_roles (b : Board.t) (winner : value)
        (player player' s1 s2 s3 s4 : Z) :
  truthy winner = false ->
  (AI.score_func1 b winner player = Ok s1 ->
   AI.score_func1 (swap_roles b) winner player' = Ok (- s1)) /\
  (AI.score_func2 b winner player = Ok s2 ->
   AI.score_func2 (swap_roles b) winner player' = Ok (- s2)) /\
  (AI.score_func3 b winner player = Ok s3 ->
   AI.score_func3 (swap_roles b) winner player' = Ok s3) /\
  (AI.score_func4 b winner player = Ok s4 ->
   AI.score_func4 (swap_roles b) winner player' = Ok s4).
Proof.
  intros Hw.
  unfold AI.score_func1, AI.score_func2, AI.score_func3, AI.score_func4,
    AI.terminal_score.
  rewrite Hw.
  change (Board.active_player (swap_roles b)) with (Board.inactive_player b).
  change (Board.inactive_player (swap_roles b)) with (Board.active_player b).
  change (Board.columns (swap_roles b)) with (Board.columns b).
  change (Board.rows (swap_roles b)) with (Board.rows b).
  rewrite !get_legal_moves_swap.
  change (AI.inv_dist_to_centre (swap_roles b))
    with (AI.inv_dist_to_centre b).
  change (AI.unpack_pos (swap_roles b)) with (AI.unpack_pos b).
  repeat split; intros H.
  - inv_bind H. inv_bind H. injection H as <-. rewrite Ha, Ha0.
    cbn [Py.bind]. f_equal. lia.
  - inv_bind H. inv_bind H. injection H as <-. rewrite Ha, Ha0.
    cbn [Py.bind]. f_equal. lia.
  - inv_bind H. inv_bind H. injection H as <-. rewrite Ha, Ha0.
    cbn [Py.bind]. f_equal. apply manhattan_distance_sym.
  - inv_bind H. inv_bind H. rewrite Ha, Ha0. cbn [Py.bind].
    rewrite (manhattan_distance_sym (fst a0) (snd a0)). exact H.
Qed.

(** On the 1 x 4 corridor with the players at its ends. *)
Lemma heuristics_swap_roles_witness :
  AI.score_func1 corridor VFalse 1 = Ok (-2) /\
  AI.score_func1 (swap_roles corridor) VFalse 2 = Ok 2 /\
  AI.score_func2 (swap_roles corridor) VFalse 2 = Ok 0 /\
  AI.score_func3 (swap_roles corridor) VFalse 2 = Ok 3 /\
  AI.score_func4 (swap_roles corridor) VFalse 2 = Ok 1.
Proof.
  destruct (heuristics_swap_roles corridor VFalse 1 2 (-2) 0 3 1 eq_refl)
    as (H1 & H2 & H3 & H4).
  split; [vm_compute; reflexivity|].
  split; [apply H1; vm_compute; reflexivity|].
  split; [apply H2; vm_compute; reflexivity|].
  split; [apply H3|apply H4]; vm_compute; reflexivity.
Defined.

(** ** The renderer *)

Lemma box_of_pixel (rel box : Z) (bw mw : Z) :
  0 < bw -> 0 <= mw ->
  box * bw + box * mw <= rel < box * bw + box * mw + bw + 1 ->
  rel <= box * bw + box * mw + bw - 1 \/ 0 < mw ->
  rel / (bw + mw) = box.
Proof.
  intros Hbw Hmw Hrel Hor. symmetry.
  apply (Z.div_unique_pos rel (bw + mw) box (rel - box * (bw + mw))); lia.
Qed.

(** X19. A click on a drawn box finds the box: every pixel of the
    rectangle [draw_box] fills for box [(box_x, box_y)] is mapped back
    to [(box_x, box_y)] by [get_box_coord] and is outside the margin
    for [mouse_in_margin], with a positive box width and a margin that
    is not negative. *)
Theorem click_on_box (r : Renderer.t) (box_x box_y : Z) (c : Renderer.colour)
        (mouse_x mouse_y : Z) :
  0 < Renderer.box_width r -> 0 <= Renderer.margin_width r ->
  covers (Renderer.draw_box r box_x box_y c) mouse_x mouse_y ->
  Renderer.get_box_coord r mouse_x mouse_y = Ok (box_x, box_y) /\
  Renderer.mouse_in_margin r mouse_x mouse_y box_x box_y = false.
Proof.
  intros Hbw Hmw [Hx Hy]. cbn in Hx, Hy. split.
  - unfold Renderer.get_box_coord, Renderer.floordiv.
    replace (Renderer.box_width r + Renderer.margin_width r =? 0) with false
      by (symmetry; apply Z.eqb_neq; lia).
    cbn [Py.bind].
    rewrite (box_of_pixel _ box_x), (box_of_pixel _ box_y);
      try reflexivity; try assumption; lia.
  - unfold Renderer.mouse_in_margin.
    replace (_ <? mouse_x - Renderer.board_x r) with false
      by (symmetry; apply Z.ltb_ge; lia).
    replace (_ <? mouse_y - Renderer.board_y r) with false
      by (symmetry; apply Z.ltb_ge; lia).
    reflexivity.
Qed.

Lemma click_on_box_witness :
  Renderer.get_box_coord
    (Renderer.init 10 10 5 5 ∅ 50 5) 169 65 = Ok (2, 1) /\
  Renderer.mouse_in_margin
    (Renderer.init 10 10 5 5 ∅ 50 5) 169 65 2 1 = false.
Proof.
  apply (click_on_box (Renderer.init 10 10 5 5 ∅ 50 5) 2 1 Renderer.BLUE).
  - reflexivity.
  - discriminate.
  - vm_compute. repeat split; discriminate.
Defined.

(** X20. What counts as a click on a box.  For the box that
    [get_box_coord] finds, [mouse_in_margin] answers [False] exactly on
    the pixels of the rectangle [draw_box] fills, made one pixel wider
    and one pixel higher: the first row and the first column of the
    margin, below and right of a box, belong to the box. *)
Theorem click_accepted (r : Renderer.t) (mouse_x mouse_y box_x box_y : Z)
        (c : Renderer.colour) :
  0 < Renderer.box_width r -> 0 <= Renderer.margin_width r ->
  Renderer.get_box_coord r mouse_x mouse_y = Ok (box_x, box_y) ->
  Renderer.mouse_in_margin r mouse_x mouse_y box_x box_y = false <->
  covers (grown (Renderer.draw_box r box_x box_y c)) mouse_x mouse_y.
Proof.
  intros Hbw Hmw H. unfold Renderer.get_box_coord, Renderer.floordiv in H.
  replace (Renderer.box_width r + Renderer.margin_width r =? 0) with false
    in H by (symmetry; apply Z.eqb_neq; lia).
  cbn [Py.bind] in H. injection H as Hx Hy.
  pose proof (Z.div_mod (mouse_x - Renderer.board_x r)
                (Renderer.box_width r + Renderer.margin_width r)
                ltac:(lia)) as Ex.
  pose proof (Z.mod_pos_bound (mouse_x - Renderer.board_x r)
                (Renderer.box_width r + Renderer.margin_width r)
                ltac:(lia)) as Bx.
  pose proof (Z.div_mod (mouse_y - Renderer.board_y r)
                (Renderer.box_width r + Renderer.margin_width r)
                ltac:(lia)) as Ey.
  pose proof (Z.mod_pos_bound (mouse_y - Renderer.board_y r)
                (Renderer.box_width r + Renderer.margin_width r)
                ltac:(lia)) as By.
  rewrite Hx in Ex. rewrite Hy in Ey.
  unfold Renderer.mouse_in_margin, covers, grown, Renderer.draw_box.
  cbn [Renderer.rect_x Renderer.rect_y Renderer.rect_w Renderer.rect_h].
  set (bw := Renderer.box_width r) in *.
  set (mw := Renderer.margin_width r) in *.
  set (relx := mouse_x - Renderer.board_x r) in *.
  set (rely := mouse_y - Renderer.board_y r) in *.
  replace (relx <? (box_x + 1) * bw + (box_x + 1) * mw) with true
    by (symmetry; apply Z.ltb_lt; lia).
  replace (rely <? (box_y + 1) * bw + (box_y + 1) * mw) with true
    by (symmetry; apply Z.ltb_lt; lia).
  rewrite !andb_true_r.
  destruct (Z.ltb_spec ((box_x + 1) * bw + box_x * mw) relx);
    destruct (Z.ltb_spec ((box_y + 1) * bw + box_y * mw) rely);
    split; try discriminate; try reflexivity; subst relx rely; lia.
Qed.

Lemma click_accepted_witness :
  Renderer.mouse_in_margin (Renderer.init 10 10 5 5 ∅ 50 5) 170 65 2 1
  = false <->
  covers (grown (Renderer.draw_box (Renderer.init 10 10 5 5 ∅ 50 5) 2 1
                                   Renderer.BLUE)) 170 65.
Proof.
  apply (click_accepted (Renderer.init 10 10 5 5 ∅ 50 5) 170 65 2 1
           Renderer.BLUE).
  - reflexivity.
  - discriminate.
  - vm_compute. reflexivity.
Defined.

Lemma box_coord_in_board (board_x board_y rows columns : Z)
        (box_mapping : gmap Z Renderer.colour) (box_width margin_width : Z)
        (mouse_x mouse_y : Z) :
  0 < box_width -> 0 < margin_width ->
  Renderer.mouse_in_board
    (Renderer.init board_x board_y rows columns box_mapping box_width
                   margin_width) mouse_x mouse_y = true ->
  exists box_x box_y,
    Renderer.get_box_coord
      (Renderer.init board_x board_y rows columns box_mapping box_width
                     margin_width) mouse_x mouse_y = Ok (box_x, box_y) /\
    0 <= box_x < columns /\ 0 <= box_y < rows.
Proof.
  intros Hbw Hmw H. unfold Renderer.mouse_in_board in H.
  cbn [Renderer.init Renderer.board_x Renderer.board_y Renderer.board_width
       Renderer.board_height] in H.
  destruct (_ && _) eqn:E in H; [clear H|discriminate].
  apply andb_true_iff in E as [Ex Ey].
  apply andb_true_iff in Ex as [Ex1 Ex2].
  apply andb_true_iff in Ey as [Ey1 Ey2].
  apply Z.leb_le in Ex1, Ex2, Ey1, Ey2.
  unfold Renderer.get_box_coord, Renderer.floordiv.
  cbn [Renderer.init Renderer.board_x Renderer.board_y Renderer.box_width
       Renderer.margin_width].
  replace (box_width + margin_width =? 0) with false
    by (symmetry; apply Z.eqb_neq; lia).
  cbn [Py.bind]. eexists _, _. split; [reflexivity|].
  split; (split; [apply Z.div_pos; lia|apply Z.div_lt_upper_bound; nia]).
Qed.

(** X21. With a positive margin, a click inside the board is a click on
    a cell of the grid: whenever [mouse_in_board] answers [True] on a
    renderer built by the constructor, [get_box_coord] returns a column
    in [0, columns) and a row in [0, rows). *)
Theorem click_in_board (board_x board_y rows columns : Z)
        (box_mapping : gmap Z Renderer.colour) (box_width margin_width : Z)
        (mouse_x mouse_y : Z) :
  0 < box_width -> 0 < margin_width ->
  Renderer.mouse_in_board
    (Renderer.init board_x board_y rows columns box_mapping box_width
                   margin_width) mouse_x mouse_y = true ->
  exists box_x box_y,
    Renderer.get_box_coord
      (Renderer.init board_x board_y rows columns box_mapping box_width
                     margin_width) mouse_x mouse_y = Ok (box_x, box_y) /\
    0 <= box_x < columns /\ 0 <= box_y < rows.
Proof.
  intros Hbw Hmw H. apply box_coord_in_board; assumption.
Qed.

Lemma click_in_board_witness :
  exists box_x box_y,
    Renderer.get_box_coord (Renderer.init 10 10 5 5 ∅ 50 5) 280 280
    = Ok (box_x, box_y) /\
    0 <= box_x < 5 /\ 0 <= box_y < 5.
Proof.
  apply (click_in_board 10 10 5 5 ∅ 50 5 280 280);
    vm_compute; reflexivity.
Defined.

(** X22. Without a margin the right and bottom edges of the board are
    one box too far: with [margin_width = 0] the pixel at
    [board_x + board_width] is inside the board for [mouse_in_board],
    outside the margin for [mouse_in_margin], and [get_box_coord] maps
    it to column [columns], which no cell of the grid has. *)
Theorem click_on_edge (board_x board_y rows columns : Z)
        (box_mapping : gmap Z Renderer.colour) (box_width : Z) :
  0 < box_width -> 0 <= rows -> 0 <= columns ->
  let r := Renderer.init board_x board_y rows columns box_mapping
                         box_width 0 in
  let mouse_x := board_x + Renderer.board_width r in
  Renderer.mouse_in_board r mouse_x board_y = true /\
  Renderer.get_box_coord r mouse_x board_y = Ok (columns, 0) /\
  Renderer.mouse_in_margin r mouse_x board_y columns 0 = false.
Proof.
  intros Hbw Hr Hc r mouse_x. subst r mouse_x.
  unfold Renderer.mouse_in_board, Renderer.get_box_coord,
    Renderer.mouse_in_margin, Renderer.floordiv.
  cbn [Renderer.init Renderer.board_x Renderer.board_y Renderer.board_width
       Renderer.board_height Renderer.box_width Renderer.margin_width].
  replace (box_width + 0 =? 0) with false by (symmetry; apply Z.eqb_neq; lia).
  cbn [Py.bind].
  replace (board_x + (columns * box_width + (columns - 1) * 0) - board_x)
    with (columns * box_width) by lia.
  replace (board_y - board_y) with 0 by lia.
  rewrite Z.add_0_r, Z.div_mul by lia. rewrite Z.div_0_l by lia.
  repeat split.
  - replace (board_x <=? _) with true by (symmetry; apply Z.leb_le; nia).
    rewrite Z.leb_refl, Z.leb_refl. cbn.
    replace (board_y <=? _) with true by (symmetry; apply Z.leb_le; nia).
    reflexivity.
  - replace (_ <? columns * box_width) with false
      by (symmetry; apply Z.ltb_ge; lia).
    cbn. replace (_ <? 0) with false by (symmetry; apply Z.ltb_ge; lia).
    reflexivity.
Qed.

Lemma click_on_edge_witness :
  Renderer.mouse_in_board (Renderer.init 10 10 5 5 ∅ 50 0) 260 10 = true /\
  Renderer.get_box_coord (Renderer.init 10 10 5 5 ∅ 50 0) 260 10
  = Ok (5, 0) /\
  Renderer.mouse_in_margin (Renderer.init 10 10 5 5 ∅ 50 0) 260 10 5 0
  = false.
Proof.
  apply (click_on_edge 10 10 5 5 ∅ 50); [reflexivity|discriminate..].
Defined.

Lemma draw_row_spec (r : Renderer.t) (game_board : list Z) (y curr_y : Z) :
  curr_y = y * Renderer.box_width r + y * Renderer.margin_width r
           + Renderer.board_y r ->
  forall (n k : nat) (drawn drawn' : list Renderer.rect),
    Renderer.draw_row r game_board y (map Z.of_nat (seq k n))
      (Z.of_nat k * Renderer.box_width r + Z.of_nat k * Renderer.margin_width r
       + Renderer.board_x r) curr_y drawn = Ok drawn' ->
    exists row,
      drawn' = drawn ++ row /\
      Forall2 (box_drawn r game_board)
              (map (fun x => (x, y)) (map Z.of_nat (seq k n))) row.
Proof.
  intros Hy. induction n as [|n IH]; intros k drawn drawn' H;
    cbn [seq map Renderer.draw_row] in H |- *.
  - injection H as <-. exists []. rewrite app_nil_r. split; constructor.
  - inv_bind H. inv_bind H.
    replace (Z.of_nat k * Renderer.box_width r
             + Z.of_nat k * Renderer.margin_width r + Renderer.board_x r
             + (Renderer.box_width r + Renderer.margin_width r))
      with (Z.of_nat (S k) * Renderer.box_width r
            + Z.of_nat (S k) * Renderer.margin_width r + Renderer.board_x r)
      in H by lia.
    apply IH in H as (row & -> & Hrow).
    eexists (_ :: row). split; [rewrite <- app_assoc; reflexivity|].
    constructor; [|exact Hrow].
    exists a, a0. split; [exact Ha|]. split.
    + unfold dict_get in Ha0.
      destruct (Renderer.box_mapping r !! a); congruence.
    + unfold Renderer.draw_box. cbn [fst snd]. rewrite Hy. reflexivity.
Qed.

Lemma draw_rows_spec (r : Renderer.t) (game_board : list Z) :
  forall (n k : nat) (drawn drawn' : list Renderer.rect),
    Renderer.draw_rows r game_board (map Z.of_nat (seq k n))
      (Z.of_nat k * Renderer.box_width r + Z.of_nat k * Renderer.margin_width r
       + Renderer.board_y r) drawn = Ok drawn' ->
    exists rects,
      drawn' = drawn ++ rects /\
      Forall2 (box_drawn r game_board)
              (flat_map (fun y => map (fun x => (x, y))
                                      (Board.range (Renderer.columns r)))
                        (map Z.of_nat (seq k n))) rects.
Proof.
  induction n as [|n IH]; intros k drawn drawn' H;
    cbn [seq map flat_map Renderer.draw_rows] in H |- *.
  - injection H as <-. exists []. rewrite app_nil_r. split; constructor.
  - inv_bind H.
    replace (Renderer.board_x r)
      with (Z.of_nat 0 * Renderer.box_width r
            + Z.of_nat 0 * Renderer.margin_width r + Renderer.board_x r)
      in Ha by lia.
    apply (draw_row_spec r game_board (Z.of_nat k) _ eq_refl) in Ha
      as (row & -> & Hrow).
    replace (Z.of_nat k * Renderer.box_width r
             + Z.of_nat k * Renderer.margin_width r + Renderer.board_y r
             + (Renderer.box_width r + Renderer.margin_width r))
      with (Z.of_nat (S k) * Renderer.box_width r
            + Z.of_nat (S k) * Renderer.margin_width r + Renderer.board_y r)
      in H by lia.
    apply IH in H as (rects & -> & Hrects).
    exists (row ++ rects). split; [rewrite app_assoc; reflexivity|].
    apply Forall2_app; assumption.
Qed.

Lemma draw_row_returns (r : Renderer.t) (game_board : list Z) (y : Z) :
  Forall (fun box => is_Some (Renderer.box_mapping r !! box)) game_board ->
  forall xs curr_x curr_y drawn,
    Forall (fun x => 0 <= x + y * Renderer.columns r
                     < Z.of_nat (length game_board)) xs ->
    exists drawn',
      Renderer.draw_row r game_board y xs curr_x curr_y drawn = Ok drawn'.
Proof.
  intros Hkeys. induction xs as [|x xs IH]; intros curr_x curr_y drawn Hxs;
    cbn [Renderer.draw_row]; [eauto|].
  apply Forall_cons in Hxs as [Hx Hxs].
  destruct (getitem_inside game_board (x + y * Renderer.columns r) Hx)
    as (box & Hget).
  rewrite Hget. cbn [Py.bind].
  apply getitem_Ok_index in Hget as (j & _ & Hbox).
  rewrite Forall_forall in Hkeys.
  destruct (Hkeys box (list_elem_of_lookup_2 _ _ _ Hbox)) as [c Hc].
  unfold dict_get. rewrite Hc. cbn [Py.bind]. apply IH. exact Hxs.
Qed.

Lemma draw_rows_returns (r : Renderer.t) (game_board : list Z) :
  Forall (fun box => is_Some (Renderer.box_mapping r !! box)) game_board ->
  Z.of_nat (length game_board) = Renderer.rows r * Renderer.columns r ->
  forall ys curr_y drawn,
    Forall (fun y => 0 <= y < Renderer.rows r) ys ->
    exists drawn',
      Renderer.draw_rows r game_board ys curr_y drawn = Ok drawn'.
Proof.
  intros Hkeys Hlen. induction ys as [|y ys IH]; intros curr_y drawn Hys;
    cbn [Renderer.draw_rows]; [eauto|].
  apply Forall_cons in Hys as [Hy Hys].
  destruct (draw_row_returns r game_board y Hkeys
              (Board.range (Renderer.columns r)) (Renderer.board_x r)
              curr_y drawn) as [drawn' ->].
  { apply Forall_forall. intros x Hx. apply range_bounds in Hx. nia. }
  cbn [Py.bind]. apply IH. exact Hys.
Qed.

Lemma draw_board_spec (r : Renderer.t) (game_board : list Z) :
  Z.of_nat (length game_board) = Renderer.rows r * Renderer.columns r ->
  Forall (fun box => is_Some (Renderer.box_mapping r !! box)) game_board ->
  exists drawn,
    Renderer.draw_board r game_board = Ok drawn /\
    Forall2 (box_drawn r game_board)
            (all_cells (Renderer.rows r) (Renderer.columns r)) drawn.
Proof.
  intros Hlen Hkeys. unfold Renderer.draw_board.
  rewrite Hlen, Z.eqb_refl. cbn [assert Py.bind].
  destruct (draw_rows_returns r game_board Hkeys Hlen
              (Board.range (Renderer.rows r)) (Renderer.board_y r) [])
    as [drawn Hdrawn].
  { apply Forall_forall. intros y Hy. apply range_bounds in Hy. exact Hy. }
  exists drawn. split; [exact Hdrawn|].
  unfold Board.range in Hdrawn at 1.
  replace (Renderer.board_y r)
    with (Z.of_nat 0 * Renderer.box_width r
          + Z.of_nat 0 * Renderer.margin_width r + Renderer.board_y r)
    in Hdrawn by lia.
  apply draw_rows_spec in Hdrawn as (rects & -> & Hrects). exact Hrects.
Qed.

(** X23. [draw_board] draws the board box by box.  Given a list with
    one entry for every cell, each entry a key of the mapping, it
    raises nothing and fills one rectangle for every cell, row after
    row: for the cell [(x, y)] the rectangle [draw_box] fills there, in
    the colour mapped to the entry at [x + y * columns]. *)
Theorem draw_board_boxes (r : Renderer.t) (game_board : list Z) :
  Z.of_nat (length game_board) = Renderer.rows r * Renderer.columns r ->
  Forall (fun box => is_Some (Renderer.box_mapping r !! box)) game_board ->
  exists drawn,
    Renderer.draw_board r game_board = Ok drawn /\
    Forall2 (box_drawn r game_board)
            (all_cells (Renderer.rows r) (Renderer.columns r)) drawn.
Proof. apply draw_board_spec. Qed.

Lemma draw_board_boxes_witness :
  exists drawn,
    Renderer.draw_board
      (Renderer.init 10 10 1 2 (<[1 := Renderer.BLUE]> (<[2 := Renderer.RED]> ∅))
                     50 5) [1; 2] = Ok drawn /\
    Forall2 (box_drawn
               (Renderer.init 10 10 1 2
                  (<[1 := Renderer.BLUE]> (<[2 := Renderer.RED]> ∅)) 50 5)
               [1; 2])
            (all_cells 1 2) drawn.
Proof.
  apply (draw_board_boxes
           (Renderer.init 10 10 1 2
              (<[1 := Renderer.BLUE]> (<[2 := Renderer.RED]> ∅)) 50 5)
           [1; 2]).
  - reflexivity.
  - repeat constructor; eexists; vm_compute; reflexivity.
Defined.

(** ** The game controller *)

Lemma board_list_states (game : Board.t) :
  Forall cell_ok (Board.board game) ->
  Forall (fun box => box = Board.PLAYER1 \/ box = Board.PLAYER2 \/
                     box = Board.BOX_CLEAR \/ box = Board.BOX_BLOCK)
         (Main.board_list game).
Proof.
  intros H. unfold Main.board_list. apply Forall_fmap.
  eapply Forall_impl; [exact H|].
  intros cell [-> | [-> | [-> | ->]]]; vm_compute; auto.
Qed.

Lemma board_list_keys (game : Board.t) :
  Forall cell_ok (Board.board game) ->
  Forall (fun box => is_Some (Main.box_mapping !! box))
         (Main.board_list game).
Proof.
  intros H. eapply Forall_impl; [exact (board_list_states game H)|].
  intros box [-> | [-> | [-> | ->]]]; eexists; vm_compute; reflexivity.
Qed.

Lemma well_formed_positions (game : Board.t) :
  well_formed game ->
  (exists pos, dict_get (Board.players_position game) Board.PLAYER1
               = Ok pos) /\
  (exists pos, dict_get (Board.players_position game) Board.PLAYER2
               = Ok pos).
Proof.
  intros (_ & _ & _ & Hkeys & _). unfold dict_get. split.
  - destruct (proj2 (Hkeys Board.PLAYER1) (or_introl eq_refl)) as [pos ->].
    eauto.
  - destruct (proj2 (Hkeys Board.PLAYER2) (or_intror eq_refl)) as [pos ->].
    eauto.
Qed.

Lemma refresh_Ok (game : Board.t) (over : bool) :
  well_formed game ->
  exists ops winner,
    Board.is_game_over game = Ok winner /\
    Main.refresh (Main.visual_board (Board.rows game) (Board.columns game))
                 game over
    = Ok (ops, if truthy winner then true else over).
Proof.
  intros Hwf.
  destruct (well_formed_positions game Hwf) as [[p1 Hp1] [p2 Hp2]].
  destruct (well_formed_is_game_over game Hwf) as [winner Hw].
  destruct (draw_board_spec
              (Main.visual_board (Board.rows game) (Board.columns game))
              (Main.board_list game)) as (boxes & Hboxes & _).
  { unfold Main.board_list. rewrite length_map. apply Hwf. }
  { apply board_list_keys. apply Hwf. }
  unfold Main.refresh. rewrite Hp1, Hp2, Hboxes, Hw. cbn [Py.bind].
  destruct (Board.active_player game =? Board.PLAYER2); cbn [Py.bind];
    eauto.
Qed.

(** X24. The refresh of the screen raises nothing on a well-formed
    board.  The list handed to [draw_board] holds only the states
    [PLAYER1], [PLAYER2], [BOX_CLEAR] and [BOX_BLOCK], never the mask,
    and the refresh sets [game_over] exactly when [is_game_over] names
    a winner, leaving it as it is otherwise. *)
Theorem refresh_returns (game : Board.t) (game_over : bool) :
  well_formed game ->
  Forall (fun box => box = Board.PLAYER1 \/ box = Board.PLAYER2 \/
                     box = Board.BOX_CLEAR \/ box = Board.BOX_BLOCK)
         (Main.board_list game) /\
  exists ops winner,
    Board.is_game_over game = Ok winner /\
    Main.refresh (Main.visual_board (Board.rows game) (Board.columns game))
                 game game_over
    = Ok (ops, if truthy winner then true else game_over).
Proof.
  intros Hwf. split; [apply board_list_states; apply Hwf|].
  apply refresh_Ok. exact Hwf.
Qed.

Lemma refresh_returns_witness :
  Forall (fun box => box = Board.PLAYER1 \/ box = Board.PLAYER2 \/
                     box = Board.BOX_CLEAR \/ box = Board.BOX_BLOCK)
         (Main.board_list (Board.init 5 5)) /\
  exists ops winner,
    Board.is_game_over (Board.init 5 5) = Ok winner /\
    Main.refresh (Main.visual_board 5 5) (Board.init 5 5) false
    = Ok (ops, if truthy winner then true else false).
Proof.
  apply (refresh_returns (Board.init 5 5) false).
  apply well_formed_init; lia.
Defined.









Lemma click_Ok (human_playing : bool) (st : Main.state)
      (mouse_x mouse_y : Z) :
  well_formed (Main.game st) ->
  exists st',
    Main.click human_playing
               (Main.visual_board (Board.rows (Main.game st))
                                  (Board.columns (Main.game st)))
               st mouse_x mouse_y = Ok st' /\
    (st' = st \/
     exists moves x y game',
       Board.get_legal_moves (Main.game st) None = Ok moves /\
       (x, y) ∈ moves /\
       Board.make_move (Main.game st) x y = Ok game' /\
       well_formed game' /\
       st' = Main.mk game'
                     (Main.record_play st
                      ++ [(Board.active_player (Main.game st), None,
                           Some (x, y))])
                     true (Main.game_over st)).
Proof.
  intros Hwf. unfold Main.click, Main.visual_board.
  destruct (_ && _ && _); [|eauto].
  destruct (Renderer.mouse_in_board _ mouse_x mouse_y) eqn:Hin; [|eauto].
  apply box_coord_in_board in Hin as (box_x & box_y & -> & Hx & Hy);
    [|reflexivity..].
  cbn [Py.bind fst snd].
  destruct (Renderer.mouse_in_margin _ _ _ _ _); cbn [negb]; [eauto|].
  destruct (box_blocked_in_grid (Main.game st) box_x box_y (proj1 Hwf)
              (conj Hx Hy)) as [blocked ->].
  cbn [Py.bind]. destruct blocked; cbn [negb]; [eauto|].
  destruct (well_formed_players _ Hwf) as [Ha _].
  destruct (well_formed_moves _ _ Hwf Ha) as [moves Hmoves].
  change (Board.get_legal_moves (Main.game st)
            (Some (Board.active_player (Main.game st))))
    with (Board.get_legal_moves (Main.game st) None) in Hmoves.
  rewrite Hmoves. cbn [Py.bind].
  destruct (bool_decide ((box_x, box_y) ∈ moves)) eqn:Hmem; [|eauto].
  apply bool_decide_eq_true_1 in Hmem.
  destruct (well_formed_child _ None moves (box_x, box_y) Hwf Hmoves Hmem)
    as (nb & Hmake & _ & Hnb).
  cbn [fst snd] in Hmake. rewrite Hmake. cbn [Py.bind].
  eexists. split; [reflexivity|]. right.
  exists moves, box_x, box_y, nb.
  split; [reflexivity|]. split; [exact Hmem|]. split; [exact Hmake|].
  split; [exact Hnb|reflexivity].
Qed.

(** X26. A click of the human player never raises and never makes an
    illegal move.  On a well-formed board, with the renderer built for
    the board, the handler of [MOUSEBUTTONDOWN] returns for every
    position of the mouse, and either changes nothing or makes a legal
    move of the active player, records it with the score [None], and
    asks for a refresh. *)
Theorem click_moves_legally (human_playing : bool) (st : Main.state)
        (mouse_x mouse_y : Z) :
  well_formed (Main.game st) ->
  exists st',
    Main.click human_playing
               (Main.visual_board (Board.rows (Main.game st))
                                  (Board.columns (Main.game st)))
               st mouse_x mouse_y = Ok st' /\
    (st' = st \/
     exists moves x y game',
       Board.get_legal_moves (Main.game st) None = Ok moves /\
       (x, y) ∈ moves /\
       Board.make_move (Main.game st) x y = Ok game' /\
       well_formed game' /\
       st' = Main.mk game'
                     (Main.record_play st
                      ++ [(Board.active_player (Main.game st), None,
                           Some (x, y))])
                     true (Main.game_over st)).
Proof. apply click_Ok. Qed.

Lemma click_moves_legally_witness :
  exists st',
    Main.click true (Main.visual_board 5 5) (Main.start 5 5) 170 65
    = Ok st' /\
    (st' = Main.start 5 5 \/
     exists moves x y game',
       Board.get_legal_moves (Board.init 5 5) None = Ok moves /\
       (x, y) ∈ moves /\
       Board.make_move (Board.init 5 5) x y = Ok game' /\
       well_formed game' /\
       st' = Main.mk game' ([] ++ [(1, None, Some (x, y))]) true false).
Proof.
  apply (click_moves_legally true (Main.start 5 5) 170 65).
  apply well_formed_init; lia.
Defined.

(** ** The replay *)

Lemma recorded_ok (rows columns : Z) (entries : list Main.entry)
      (b : Board.t) :
  0 <= rows -> 0 <= columns ->
  recorded (Board.init rows columns) entries b ->
  well_formed b /\ Board.rows b = rows /\ Board.columns b = columns.
Proof.
  intros Hr Hc H. induction H as [|entries b b' moves score x y _ IH Hover
                                   Hmoves Hin Hmake].
  - split; [apply well_formed_init; assumption|]. split; reflexivity.
  - destruct IH as (Hwf & Hrows & Hcols).
    destruct (well_formed_child _ None moves (x, y) Hwf Hmoves Hin)
      as (nb & Hmake' & _ & Hnb).
    cbn [fst snd] in Hmake'. rewrite Hmake in Hmake'.
    injection Hmake' as <-. split; [exact Hnb|].
    apply make_move_moved in Hmake as (j & cell & _ & _ & _ & ->).
    destruct (moved_fields b j x y) as (Hr' & Hc' & _).
    split; congruence.
Qed.

Lemma recorded_nil (start b : Board.t) : recorded start [] b -> b = start.
Proof.
  intros H. remember [] as l eqn:E. destruct H; [reflexivity|].
  destruct entries; discriminate.
Qed.

Lemma recorded_snoc (start : Board.t) (entries : list Main.entry)
      (e : Main.entry) (b' : Board.t) :
  recorded start (entries ++ [e]) b' ->
  exists b moves score x y,
    recorded start entries b /\
    e = (Board.active_player b, score, Some (x, y)) /\
    Board.is_game_over b = Ok VFalse /\
    Board.get_legal_moves b None = Ok moves /\
    (x, y) ∈ moves /\
    Board.make_move b x y = Ok b'.
Proof.
  intros H. remember (entries ++ [e]) as l eqn:E.
  destruct H as [|entries0 b0 b0' moves score x y Hrec Hover Hmoves Hin
                  Hmake].
  - destruct entries; discriminate.
  - apply app_inj_tail in E as [-> <-].
    exists b0, moves, score, x, y. repeat split; assumption.
Qed.

Lemma recorded_det (start : Board.t) (entries : list Main.entry)
      (b : Board.t) :
  recorded start entries b -> forall b', recorded start entries b' -> b = b'.
Proof.
  induction 1 as [|entries b b1 moves score x y Hrec IH Hover Hmoves Hin
                   Hmake]; intros b' H'.
  - symmetry. apply recorded_nil. exact H'.
  - apply recorded_snoc in H'
      as (b0 & moves0 & score0 & x0 & y0 & Hrec0 & He & _ & _ & _ & Hmake0).
    apply IH in Hrec0 as <-. injection He; intros; subst; congruence.
Qed.

Lemma recorded_take (start : Board.t) (entries : list Main.entry)
      (b : Board.t) :
  recorded start entries b ->
  forall k, exists b_k, recorded start (take k entries) b_k.
Proof.
  induction 1 as [|entries b b1 moves score x y Hrec IH Hover Hmoves Hin
                   Hmake]; intros k.
  - rewrite take_nil. exists start. constructor.
  - destruct (le_lt_dec k (length entries)) as [Hle | Hgt].
    + rewrite take_app_le by exact Hle. apply IH.
    + rewrite take_ge by (rewrite length_app; cbn [length]; lia).
      exists b1. eapply recorded_move; eassumption.
Qed.

Lemma recorded_next (start : Board.t) (entries : list Main.entry)
      (b : Board.t) (k : nat) (e : Main.entry) :
  recorded start entries b -> entries !! k = Some e ->
  exists b_k b_k1 x y,
    recorded start (take k entries) b_k /\
    snd e = Some (x, y) /\
    Board.is_game_over b_k = Ok VFalse /\
    Board.make_move b_k x y = Ok b_k1 /\
    recorded start (take (S k) entries) b_k1.
Proof.
  intros H He. destruct (recorded_take _ _ _ H (S k)) as [b1 H1].
  pose proof H1 as H1'. rewrite (take_S_r _ _ _ He) in H1.
  apply recorded_snoc in H1
    as (b0 & moves & score & x & y & H0 & -> & Hover & _ & _ & Hmake).
  exists b0, b1, x, y. repeat split; assumption.
Qed.

Lemma getitem_lookup {A : Type} (l : list A) (k : nat) (a : A) :
  l !! k = Some a -> getitem l (Z.of_nat k) = Ok a.
Proof.
  intros H. pose proof (lookup_lt_Some _ _ _ H) as Hk.
  unfold getitem. rewrite norm_index_inside by lia.
  rewrite Nat2Z.id, H. reflexivity.
Qed.

Lemma getitem_end {A : Type} (l : list A) :
  getitem l (Z.of_nat (length l)) = Raise IndexError.
Proof.
  unfold getitem, norm_index.
  destruct (Z.ltb_spec (Z.of_nat (length l)) 0); [lia|].
  rewrite Z.ltb_irrefl, andb_false_r. reflexivity.
Qed.

Lemma replayed_in_play (start : Board.t) (entries : list Main.entry)
      (b : Board.t) (k : nat) (e : Main.entry) (st : Replay.state) :
  recorded start entries b -> entries !! k = Some e ->
  replayed start entries k st ->
  Replay.game_over st = false.
Proof.
  intros Hrec He (Hgame & _ & Hflag).
  destruct (recorded_next _ _ _ _ _ Hrec He)
    as (b_k & _ & _ & _ & Hk & _ & Hover & _).
  rewrite <- (recorded_det _ _ _ Hk _ Hgame) in Hflag.
  destruct (Replay.render_update st); [exact Hflag|].
  destruct Hflag as (winner & Hw & ->). rewrite Hover in Hw.
  injection Hw as <-. reflexivity.
Qed.

Lemma forward_replayed (start : Board.t) (entries : list Main.entry)
      (b : Board.t) (k : nat) (e : Main.entry) (st : Replay.state) :
  recorded start entries b -> entries !! k = Some e ->
  replayed start entries k st ->
  exists st', Replay.forward entries st = Ok st' /\
              replayed start entries (S k) st'.
Proof.
  intros Hrec He Hst.
  pose proof (replayed_in_play _ _ _ _ _ _ Hrec He Hst) as Hover.
  destruct Hst as (Hgame & Hindex & _).
  destruct (recorded_next _ _ _ _ _ Hrec He)
    as (b_k & b_k1 & x & y & Hk & Hmove & _ & Hmake & Hk1).
  rewrite (recorded_det _ _ _ Hk _ Hgame) in Hmake.
  unfold Replay.forward, Replay.replay_entry. rewrite Hover, Hindex.
  cbn [negb]. rewrite (getitem_lookup _ _ _ He). cbn [Py.bind].
  rewrite Hmove, Hmake. cbn [Py.bind].
  eexists. split; [reflexivity|]. split; [exact Hk1|].
  cbn [Replay.index Replay.render_update Replay.game_over].
  split; [lia | reflexivity].
Qed.

Lemma shown_replayed (rows columns : Z) (entries : list Main.entry)
      (k : nat) (st : Replay.state) :
  0 <= rows -> 0 <= columns ->
  replayed (Board.init rows columns) entries k st ->
  exists st',
    Replay.shown (Main.visual_board rows columns) st = Ok st' /\
    replayed (Board.init rows columns) entries k st' /\
    Replay.render_update st' = false.
Proof.
  intros Hr Hc Hst. unfold Replay.shown.
  destruct (Replay.render_update st) eqn:Hru; [|eauto].
  destruct Hst as (Hgame & Hindex & Hflag). rewrite Hru in Hflag.
  destruct (recorded_ok rows columns _ _ Hr Hc Hgame)
    as (Hwf & Hrows & Hcols).
  destruct (refresh_Ok (Replay.game st) (Replay.game_over st) Hwf)
    as (ops & winner & Hw & Hshown).
  rewrite Hrows, Hcols in Hshown. rewrite Hshown. cbn [Py.bind snd].
  eexists. split; [reflexivity|]. split; [|reflexivity].
  split; [exact Hgame|]. split; [exact Hindex|].
  cbn [Replay.render_update Replay.game Replay.game_over].
  exists winner. split; [exact Hw|]. rewrite Hflag.
  destruct (truthy winner); reflexivity.
Qed.

Lemma handle_all_replayed (start : Board.t) (entries : list Main.entry)
      (b : Board.t) :
  recorded start entries b ->
  forall (j k : nat) (st : Replay.state),
    replayed start entries k st ->
    (k + j <= length entries)%nat ->
    exists st',
      Replay.handle_all entries (replicate j Replay.K_m) st = Ok st' /\
      replayed start entries (k + j) st'.
Proof.
  intros Hrec. induction j as [|j IH]; intros k st Hst Hlen;
    cbn [replicate Replay.handle_all Replay.handle].
  - rewrite Nat.add_0_r. eauto.
  - assert (Hk : (k < length entries)%nat) by lia.
    destruct (lookup_lt_is_Some_2 entries k Hk) as [e He].
    destruct (forward_replayed _ _ _ _ _ _ Hrec He Hst) as (st1 & -> & Hst1).
    cbn [Py.bind]. rewrite Nat.add_succ_r. apply (IH (S k)); [exact Hst1|lia].
Qed.

Lemma run_replayed (rows columns : Z) (entries : list Main.entry)
      (b : Board.t) :
  0 <= rows -> 0 <= columns ->
  recorded (Board.init rows columns) entries b ->
  forall (counts : list nat) (k : nat) (st : Replay.state),
    replayed (Board.init rows columns) entries k st ->
    (k + list_sum counts <= length entries)%nat ->
    exists st',
      Replay.run (Main.visual_board rows columns) entries (presses counts) st
      = Ok st' /\
      replayed (Board.init rows columns) entries (k + list_sum counts) st'.
Proof.
  intros Hr Hc Hrec. induction counts as [|j counts IH]; intros k st Hst Hlen;
    cbn [presses map Replay.run].
  - change (list_sum []) with 0%nat. rewrite Nat.add_0_r. eauto.
  - change (list_sum (j :: counts)) with (j + list_sum counts)%nat in *.
    fold (presses counts). unfold Replay.turn.
    destruct (shown_replayed rows columns entries k st Hr Hc Hst)
      as (st1 & -> & Hst1 & _).
    cbn [Py.bind].
    assert (Hj : (k + j <= length entries)%nat) by lia.
    destruct (handle_all_replayed _ _ _ Hrec j k st1 Hst1 Hj)
      as (st2 & -> & Hst2).
    cbn [Py.bind]. rewrite Nat.add_assoc. apply IH; [exact Hst2|lia].
Qed.

(** X27. The replay reproduces the game, however the presses of [m]
    fall into the turns of the loop.  Entries recorded from a board of
    [rows] by [columns], each a legal move made while the game was in
    play, bring [replay.py] back to the board the game had reached:
    as many presses of [m] as there are entries, in batches of any
    sizes, raise nothing and leave the board of the game, with [index]
    after the last entry.  One more [m] in a later turn, after the
    refresh, leaves the board and [index] as they are when the game
    recorded was over, [game_over] being set, and raises [IndexError]
    when it was not; one more [m] before any refresh raises
    [IndexError] in both cases. *)
Theorem replay_round_trip (rows columns : Z) (entries : list Main.entry)
        (b : Board.t) (winner : value) (counts : list nat) :
  0 <= rows -> 0 <= columns ->
  recorded (Board.init rows columns) entries b ->
  Board.is_game_over b = Ok winner ->
  list_sum counts = length entries ->
  exists st,
    Replay.run (Main.visual_board rows columns) entries (presses counts)
               (Replay.start rows columns) = Ok st /\
    Replay.game st = b /\
    Replay.index st = Z.of_nat (length entries) /\
    Replay.turn (Main.visual_board rows columns) entries [Replay.K_m] st
    = (if truthy winner
       then Ok (Replay.mk b (Z.of_nat (length entries)) false true)
       else Raise IndexError) /\
    (Replay.render_update st = true ->
     Replay.forward entries st = Raise IndexError).
Proof.
  intros Hr Hc Hrec Hw Hsum.
  assert (Hstart : replayed (Board.init rows columns) entries 0
                            (Replay.start rows columns)).
  { split; [constructor|]. split; reflexivity. }
  assert (Hlen : (0 + list_sum counts <= length entries)%nat) by lia.
  destruct (run_replayed rows columns entries b Hr Hc Hrec counts 0 _ Hstart
              Hlen) as (st & Hrun & Hst).
  cbn [Nat.add] in Hst. rewrite Hsum in Hst.
  assert (Hend : forall st', replayed (Board.init rows columns) entries
                                      (length entries) st' ->
                             Replay.game st' = b).
  { intros st' (Hgame & _). rewrite take_ge in Hgame by lia.
    symmetry. exact (recorded_det _ _ _ Hrec _ Hgame). }
  exists st. split; [exact Hrun|]. split; [exact (Hend st Hst)|].
  split; [apply Hst|]. split.
  - unfold Replay.turn.
    destruct (shown_replayed rows columns entries _ st Hr Hc Hst)
      as (st1 & -> & Hst1 & Hru1).
    cbn [Py.bind Replay.handle_all Replay.handle].
    pose proof (Hend st1 Hst1) as Hgame1.
    destruct Hst1 as (_ & Hindex1 & Hflag1). rewrite Hru1 in Hflag1.
    destruct Hflag1 as (winner1 & Hw1 & Hover1).
    rewrite Hgame1, Hw in Hw1. injection Hw1 as <-.
    unfold Replay.forward. rewrite Hover1.
    destruct (truthy winner) eqn:Htruthy; cbn [negb Py.bind].
    + destruct st1 as [g i ru over].
      cbn [Replay.game Replay.index Replay.render_update Replay.game_over]
        in *.
      congruence.
    + unfold Replay.replay_entry. rewrite Hindex1, getitem_end.
      reflexivity.
  - intros Hru. destruct Hst as (_ & Hindex & Hflag). rewrite Hru in Hflag.
    unfold Replay.forward, Replay.replay_entry.
    rewrite Hflag, Hindex, getitem_end. reflexivity.
Qed.

Lemma make_move_blocks (b b' : Board.t) (x y : Z) :
  Board.make_move b x y = Ok b' -> Board.box_blocked b' x y = Ok true.
Proof.
  intros H. pose proof (make_move_Ok_unblocked _ _ _ _ H) as Hfree.
  apply make_move_moved in H as (j & cell & Hj & _ & _ & ->).
  destruct (moved_fields b j x y) as (_ & Hc & Hb & _).
  rewrite (box_blocked_insert b _ j _ x y Hc Hb j false Hj Hfree).
  rewrite decide_True by reflexivity. rewrite land_lor_mask.
  reflexivity.
Qed.

(** X28. The key [n] of the replay raises after any move replayed:
    once [m] has made the move of an entry, [n] steps [index] back to
    that entry and makes its move again, to the box the move has just
    blocked, and [make_move] raises [AssertionError]. *)
Theorem replay_backward_raises (record_play : list Main.entry)
        (st st' : Replay.state) :
  Replay.game_over st = false ->
  Replay.forward record_play st = Ok st' ->
  Replay.backward record_play st' = Raise AssertionError.
Proof.
  intros Hover H. unfold Replay.forward in H. rewrite Hover in H.
  cbn [negb] in H. inv_bind H. injection H as <-.
  unfold Replay.backward. cbn [Replay.index Replay.game].
  replace (Replay.index st + 1 - 1) with (Replay.index st) by lia.
  unfold Replay.replay_entry in Ha |- *. inv_bind Ha. rewrite Ha0.
  cbn [Py.bind]. destruct (snd a0) as [[x y]|]; [|discriminate].
  apply make_move_blocks in Ha. unfold Board.make_move. rewrite Ha.
  reflexivity.
Qed.

Lemma replay_backward_raises_witness :
  Replay.backward [(1, None, Some (1, 1))]
                  (Replay.mk (moved (Board.init 3 3) 4 1 1) 1 true false)
  = Raise AssertionError.
Proof.
  apply (replay_backward_raises [(1, None, Some (1, 1))]
           (Replay.start 3 3)).
  - reflexivity.
  - vm_compute. reflexivity.
Defined.

(** A game of one move on the 1 x 1 board, which ends it: one press of
    [m] replays it; a second press in the same batch raises, although
    the game is over; after a refresh it is ignored. *)
Lemma replay_round_trip_witness :
  exists st,
    Replay.run (Main.visual_board 1 1) [(1, None, Some (0, 0))]
               (presses [1%nat]) (Replay.start 1 1) = Ok st /\
    Replay.game st = moved (Board.init 1 1) 0 0 0 /\
    Replay.index st = 1 /\
    Replay.turn (Main.visual_board 1 1) [(1, None, Some (0, 0))]
                [Replay.K_m] st
    = Ok (Replay.mk (moved (Board.init 1 1) 0 0 0) 1 false true) /\
    (Replay.render_update st = true ->
     Replay.forward [(1, None, Some (0, 0))] st = Raise IndexError).
Proof.
  apply (replay_round_trip 1 1 [(1, None, Some (0, 0))]
           (moved (Board.init 1 1) 0 0 0) (VInt 1) [1%nat]).
  - lia.
  - lia.
  - apply (recorded_move (Board.init 1 1) [] (Board.init 1 1)
             (moved (Board.init 1 1) 0 0 0) [(0, 0)] None 0 0).
    + constructor.
    + vm_compute. reflexivity.
    + vm_compute. reflexivity.
    + left.
    + vm_compute. reflexivity.
  - vm_compute. reflexivity.
  - reflexivity.
Defined.

(** ** Distances *)

(** X29. [manhattan_distance] is a metric on the cells: it is never
    negative, it is 0 between a cell and itself only, it does not
    depend on the order of the two cells, and it obeys the triangle
    inequality. *)
Theorem manhattan_distance_metric (x1 y1 x2 y2 x3 y3 : Z) :
  0 <= AI.manhattan_distance x1 y1 x2 y2 /\
  (AI.manhattan_distance x1 y1 x2 y2 = 0 <-> (x1, y1) = (x2, y2)) /\
  AI.manhattan_distance x1 y1 x2 y2 = AI.manhattan_distance x2 y2 x1 y1 /\
  AI.manhattan_distance x1 y1 x3 y3
  <= AI.manhattan_distance x1 y1 x2 y2 + AI.manhattan_distance x2 y2 x3 y3.
Proof.
  unfold AI.manhattan_distance. repeat split; try lia.
  - intros H. f_equal; lia.
  - intros [= -> ->]. lia.
Qed.

(** ** The player a search is asked for *)

Lemma is_game_over_winner (b : Board.t) (winner : value) :
  Board.is_game_over b = Ok winner ->
  winner = VFalse \/ winner = VInt (Board.active_player b) \/
  winner = VInt (Board.inactive_player b).
Proof.
  intros H. unfold Board.is_game_over in H. inv_bind H.
  destruct (negb (Board.nonempty a)); [injection H as <-; auto|].
  inv_bind H.
  destruct (negb (Board.nonempty a0)); injection H as <-; auto.
Qed.

(** X30. At a leaf, the player a search is asked for matters only while
    the game is in play.  For each of the four heuristics, on a board
    whose two players are [PLAYER1] and [PLAYER2], a leaf scored for the
    inactive player has the score it has for the active player when the
    game is over, and the opposite score when it is not. *)
Theorem leaf_by_player (b : Board.t) (depth : Z) (score_func : AI.heuristic)
        (winner : value) (r : AI.result) :
  players_ok b ->
  In score_func
     [AI.score_func1; AI.score_func2; AI.score_func3; AI.score_func4] ->
  Board.is_game_over b = Ok winner ->
  truthy winner = true \/ depth = 0 ->
  AI.negamax b depth (Board.active_player b) score_func = Ok r ->
  AI.negamax b depth (Board.inactive_player b) score_func
  = Ok (if truthy winner then fst r else neg (fst r), None).
Proof.
  intros Hp Hsf Hw Hleaf. unfold AI.negamax, AI.search_fuel.
  cbn [AI.negamax_fuel]. rewrite Hw. cbn [Py.bind].
  assert (Hc : truthy winner || (depth =? 0) = true).
  { destruct Hleaf as [-> | ->]; [reflexivity|].
    rewrite Z.eqb_refl. apply orb_true_r. }
  rewrite Hc. unfold AI.player_sign. rewrite Z.eqb_refl.
  assert (Hne : (Board.active_player b =? Board.inactive_player b) = false).
  { apply Z.eqb_neq. destruct Hp as [[-> ->]|[-> ->]]; discriminate. }
  rewrite Hne.
  assert (Hscore : forall s,
             score_func b winner (Board.active_player b) = Ok s ->
             score_func b winner (Board.inactive_player b)
             = Ok (if truthy winner then - s else s)).
  { apply is_game_over_winner in Hw.
    assert (Hcases : truthy winner = false \/
                     (truthy winner = true /\
                      (winner = VInt (Board.active_player b) \/
                       winner = VInt (Board.inactive_player b)))).
    { destruct Hw as [-> | [-> | ->]]; [left; reflexivity|right..];
        (split; [|auto]);
        destruct Hp as [[Ha Hi]|[Ha Hi]]; rewrite ?Ha, ?Hi; reflexivity. }
    clear Hw. intros s.
    cbn [In] in Hsf.
    destruct Hsf as [<-|[<-|[<-|[<-|[]]]]];
      unfold AI.score_func1, AI.score_func2, AI.score_func3, AI.score_func4,
        AI.terminal_score;
      (destruct Hcases as [-> | [-> [-> | ->]]];
       [intros ->; reflexivity| |]);
      cbn [eq_int]; rewrite Z.eqb_refl;
      try rewrite Hne;
      try (rewrite Z.eqb_sym, Hne);
      intros [= <-]; reflexivity. }
  intros H. inv_bind H. injection H as <-.
  rewrite (Hscore a Ha). cbn [Py.bind fst].
  destruct (truthy winner); cbn [neg]; do 3 f_equal; lia.
Qed.

(** On the 1 x 4 corridor, in play, at depth 0. *)
Lemma leaf_by_player_witness :
  AI.negamax corridor 0 2 AI.score_func1 = Ok (Fin 2, None).
Proof.
  apply (leaf_by_player corridor 0 AI.score_func1 VFalse (Fin (-2), None)).
  - left. split; reflexivity.
  - left. reflexivity.
  - vm_compute. reflexivity.
  - right. reflexivity.
  - vm_compute. reflexivity.
Defined.

